(** * Keras optimizers with a cyclical learning rate (clr_optimizers.py)

    A shallow embedding of [clr_optimizers.py]: the base class [Optimizer],
    the seven update rules (SGD, RMSprop, Adagrad, Adadelta, Adam, Adamax,
    Nadam) and the pieces of the Keras backend [K] they call.

    Modelling conventions.
    - Tensor elements are real numbers: rounding, overflow and NaN of the
      float32 backend are not modelled.
    - A backend variable is a handle (a natural number) into a store; a
      symbolic tensor is a function of the store, evaluated when the update
      operations are run.
    - One training step runs the list returned by [get_updates] as a batch:
      every right-hand side is evaluated in the store before the step.
    - Python exceptions are values of [exn]; a method is a function of the
      state (the object and the backend store) that returns either an
      exception or a result together with the state at that point. *)

From Stdlib Require Import Reals Lra Lia String List Bool Arith ZArith Permutation.
Import ListNotations.

Local Open Scope R_scope.

(** ** Tensors *)

Record tensor : Type := mkT { shape : list nat; data : list R }.

Definition scalar (r : R) : tensor := mkT [] [r].

(** The single element of a scalar tensor. *)
Definition item (t : tensor) : R := hd 0 (data t).

Definition tmap (f : R -> R) (t : tensor) : tensor :=
  mkT (shape t) (map f (data t)).

Fixpoint zipWith {A B C} (f : A -> B -> C) (l : list A) (l' : list B) : list C :=
  match l, l' with
  | a :: r, b :: r' => f a b :: zipWith f r r'
  | _, _ => []
  end.

(** Element-wise binary operation; a scalar operand is broadcast over the
    other one (the only broadcasting the optimizers rely on). *)
Definition tzip (f : R -> R -> R) (a b : tensor) : tensor :=
  match shape b with
  | [] => mkT (shape a) (map (fun x => f x (item b)) (data a))
  | _ :: _ =>
      match shape a with
      | [] => mkT (shape b) (map (f (item a)) (data b))
      | _ :: _ => mkT (shape a) (zipWith f (data a) (data b))
      end
  end.

Definition shape_eqb (s s' : list nat) : bool :=
  if list_eq_dec Nat.eq_dec s s' then true else false.

(** Comparisons of Python floats. *)
Definition Rgtb (x y : R) : bool := if Rgt_dec x y then true else false.
Definition Rgeb (x y : R) : bool := if Rge_dec x y then true else false.
Definition Reqb (x y : R) : bool := if Req_dec_T x y then true else false.

(** ** The backend store *)

Definition var := nat.

Record backend : Type := mkBackend { next_var : nat; value : var -> tensor }.

Definition write (h : backend) (x : var) (t : tensor) : backend :=
  mkBackend (next_var h) (fun y => if Nat.eqb y x then t else value h y).

(** A symbolic tensor: its value is read off the store at run time. *)
Definition texpr := backend -> tensor.
Definition bexpr := backend -> bool.

Definition read (x : var) : texpr := fun h => value h x.
Definition const (r : R) : texpr := fun _ => scalar r.
Definition lift1 (f : R -> R) (a : texpr) : texpr := fun h => tmap f (a h).
Definition lift2 (f : R -> R -> R) (a b : texpr) : texpr :=
  fun h => tzip f (a h) (b h).

Declare Scope texpr_scope.
Delimit Scope texpr_scope with E.
Bind Scope texpr_scope with texpr.
Notation "a + b" := (lift2 Rplus a b) : texpr_scope.
Notation "a - b" := (lift2 Rminus a b) : texpr_scope.
Notation "a * b" := (lift2 Rmult a b) : texpr_scope.
Notation "a / b" := (lift2 Rdiv a b) : texpr_scope.
Notation "# r" := (const r) (at level 5, format "# r") : texpr_scope.
Notation "! x" := (read x) (at level 5, format "! x") : texpr_scope.

(** Update operations, as built by [K.update] and [K.update_add]. *)
Inductive update_op : Type :=
| Update (x : var) (e : texpr)
| UpdateAdd (x : var) (k : R).

Definition target (u : update_op) : var :=
  match u with Update x _ => x | UpdateAdd x _ => x end.

Definition new_value (u : update_op) (h : backend) : tensor :=
  match u with
  | Update _ e => e h
  | UpdateAdd x k => tzip Rplus (value h x) (scalar k)
  end.

(** One training step: the batch reads the store [h] of before the step. *)
Definition run_updates (ups : list update_op) (h : backend) : backend :=
  fold_left (fun acc u => write acc (target u) (new_value u h)) ups h.

(** ** Exceptions and the state-and-exception monad *)

Inductive exn : Type :=
| TypeError (key : string)
| KeyError (key : string)
| ValueError (live provided : list nat)
| NotImplementedError.

Definition M (S A : Type) : Type := S -> (exn + A) * S.

Definition ret {S A} (a : A) : M S A := fun s => (inr a, s).
Definition raise {S A} (e : exn) : M S A := fun s => (inl e, s).
Definition bind {S A B} (m : M S A) (k : A -> M S B) : M S B :=
  fun s => match m s with
           | (inr a, s') => k a s'
           | (inl e, s') => (inl e, s')
           end.
Definition gets {S A} (f : S -> A) : M S A := fun s => (inr (f s), s).
Definition modify {S} (f : S -> S) : M S unit := fun s => (inr tt, f s).
Definition lift_exn {S A} (r : exn + A) : M S A := fun s => (r, s).

Declare Scope monad_scope.
Delimit Scope monad_scope with monad.
Notation "x <- m ;; k" := (bind m (fun x => k))
  (at level 61, m at next level, right associativity) : monad_scope.
Notation "m ;;; k" := (bind m (fun _ => k))
  (at level 61, right associativity) : monad_scope.

(** A method of an object of class [O] runs on the object and the store. *)
Definition on_backend {O A} (m : M backend A) : M (O * backend) A :=
  fun s => let '(r, h') := m (snd s) in (r, (fst s, h')).
Definition on_self {O} (f : O -> O) : M (O * backend) unit :=
  fun s => (inr tt, (f (fst s), snd s)).
Definition self_ {O} : M (O * backend) O := fun s => (inr (fst s), s).

(** ** The Keras backend [K] *)

Module K.

Definition variable (t : tensor) : M backend var :=
  fun h => (inr (next_var h),
            mkBackend (S (next_var h))
              (fun y => if Nat.eqb y (next_var h) then t else value h y)).

Definition zeros_tensor (s : list nat) : tensor :=
  mkT s (repeat 0 (fold_right Nat.mul 1%nat s)).

Definition zeros (s : list nat) : M backend var := variable (zeros_tensor s).

Definition get_variable_shape (p : var) : M backend (list nat) :=
  gets (fun h => shape (value h p)).

Definition get_value (x : var) : M backend tensor := gets (fun h => value h x).


Definition batch_get_value (xs : list var) : M backend (list tensor) :=
  gets (fun h => map (value h) xs).

Definition batch_set_value (tuples : list (var * tensor)) : M backend unit :=
  modify (fun h => fold_left (fun acc xw => write acc (fst xw) (snd xw)) tuples h).

Definition update (x : var) (e : texpr) : update_op := Update x e.
Definition update_add (x : var) (k : R) : update_op := UpdateAdd x k.

Definition square : texpr -> texpr := lift1 (fun x => x * x).
Definition sqrt : texpr -> texpr := lift1 R_sqrt.sqrt.
Definition abs : texpr -> texpr := lift1 Rabs.
Definition floor : texpr -> texpr := lift1 (fun x => IZR (Int_part x)).
Definition maximum : texpr -> texpr -> texpr := lift2 Rmax.
(** [pow] on a positive base; the optimizers raise 2, 0.96, the betas and
    gamma to a power. *)
Definition pow : texpr -> texpr -> texpr := lift2 Rpower.
Definition sum (a : texpr) : texpr :=
  fun h => scalar (fold_right Rplus 0 (data (a h))).
Definition clip (a : texpr) (lo hi : R) : texpr :=
  lift1 (fun x => Rmin (Rmax x lo) hi) a.
Definition switch (c : bexpr) (a b : texpr) : texpr :=
  fun h => if c h then a h else b h.
Definition greater_equal (a : texpr) (c : R) : bexpr :=
  fun h => Rgeb (item (a h)) c.

(** The differentiation engine is outside the file: a loss is represented
    by the gradient it yields for each parameter. *)
Definition loss_t := var -> texpr.
Definition gradients (loss : loss_t) (params : list var) : list texpr :=
  map loss params.

End K.

(** Python's [sum] over a list of tensors: [0 + t1 + t2 + ...]. *)
Definition py_sum (l : list texpr) : texpr :=
  fold_left (fun acc t => (acc + t)%E) l (const 0).

(** ** clip_norm *)

Definition clip_norm (g : texpr) (c : R) (n : texpr) : texpr :=
  if Rgtb c 0 then K.switch (K.greater_equal n c) (g * #c / n)%E g else g.

(** ** Python values, keyword dictionaries and the [clr] dictionary *)

(** The dictionary passed as [clr]: each of the four keys the optimizers
    read may be present or missing. *)
Record clr_dict : Type := mkClr {
  clr_mode : option string;
  clr_step_size : option R;
  clr_max_lr : option R;
  clr_gamma : option R
}.

Inductive pyval : Type :=
| PyFloat (r : R)
| PyBool (b : bool)
| PyArray (t : tensor)
| PyClr (c : option clr_dict).

(** A dictionary with string keys, in insertion order (keys are unique). *)
Definition dict := list (string * pyval).

Fixpoint assoc (k : string) (d : dict) : option pyval :=
  match d with
  | [] => None
  | (k', v) :: r => if String.eqb k k' then Some v else assoc k r
  end.

Definition keys (d : dict) : list string := map fst d.

Definition mem (k : string) (l : list string) : bool :=
  existsb (String.eqb k) l.

(** Numeric, boolean and dictionary readings of an argument value. *)
Definition py_float (v : pyval) : R :=
  match v with
  | PyFloat r => r
  | PyBool b => if b then 1 else 0
  | PyArray t => item t
  | PyClr _ => 0
  end.

Definition py_bool (v : pyval) : bool :=
  match v with
  | PyFloat r => negb (Reqb r 0)
  | PyBool b => b
  | PyArray t => negb (Reqb (item t) 0)
  | PyClr c => match c with Some _ => true | None => false end
  end.

Definition py_clr (v : pyval) : option clr_dict :=
  match v with PyClr c => c | _ => None end.

(** [d[key]] on a dictionary entry that may be missing. *)
Definition getitem {A} (key : string) (v : option A) : exn + A :=
  match v with Some a => inr a | None => inl (KeyError key) end.

(** Keyword call of a class on the entries of [config]: a named parameter
    takes its entry or its default, the entries left over go to [kwargs]. *)
Definition arg_float (name : string) (default : R) (config : dict) : R :=
  match assoc name config with Some v => py_float v | None => default end.
Definition arg_bool (name : string) (default : bool) (config : dict) : bool :=
  match assoc name config with Some v => py_bool v | None => default end.
Definition arg_clr (name : string) (config : dict) : option clr_dict :=
  match assoc name config with Some v => py_clr v | None => None end.
Definition rest_kwargs (names : list string) (config : dict) : dict :=
  filter (fun kv => negb (mem (fst kv) names)) config.

(** [constraints] maps a parameter to its projection. *)
Definition constraints_t := list (var * (texpr -> texpr)).

Fixpoint lookup_constraint (p : var) (cs : constraints_t) : option (texpr -> texpr) :=
  match cs with
  | [] => None
  | (q, c) :: r => if Nat.eqb p q then Some c else lookup_constraint p r
  end.

(** [if p in constraints: new_p = constraints[p](new_p)] *)
Definition apply_constraint (cs : constraints_t) (p : var) (new_p : texpr) : texpr :=
  match lookup_constraint p cs with Some c => c new_p | None => new_p end.

(** ** class Optimizer *)

Module Optimizer.

Record t : Type := mk {
  clipnorm : option R;
  clipvalue : option R;
  updates : list update_op;
  weights : list var
}.

Definition allowed_kwargs : list string := ["clipnorm"; "clipvalue"]%string.

(** [for k in kwargs: if k not in allowed_kwargs: raise TypeError] *)
Fixpoint check_kwargs (kwargs : dict) : exn + unit :=
  match kwargs with
  | [] => inr tt
  | (k, _) :: r =>
      if mem k allowed_kwargs then check_kwargs r else inl (TypeError k)
  end.

Definition init (kwargs : dict) : M backend t :=
  (lift_exn (check_kwargs kwargs) ;;;
   ret (mk (option_map py_float (assoc "clipnorm" kwargs))
           (option_map py_float (assoc "clipvalue" kwargs))
           [] []))%monad.

(** The base class leaves [get_updates] to its subclasses. *)
Definition get_updates (params : list var) (constraints : constraints_t)
  (loss : K.loss_t) : M (t * backend) (list update_op) :=
  raise NotImplementedError.

Definition get_gradients (self : t) (loss : K.loss_t) (params : list var)
  : list texpr :=
  let grads := K.gradients loss params in
  let grads :=
    match clipnorm self with
    | Some c =>
        if Rgtb c 0 then
          let norm := K.sqrt (py_sum (map (fun g => K.sum (K.square g)) grads)) in
          map (fun g => clip_norm g c norm) grads
        else grads
    | None => grads
    end in
  let grads :=
    match clipvalue self with
    | Some v => if Rgtb v 0 then map (fun g => K.clip g (- v) v) grads else grads
    | None => grads
    end in
  grads.

(** The loop of [set_weights] over [zip(param_values, params, weights)]. *)
Fixpoint check_shapes (l : list (tensor * var * tensor))
  (weight_value_tuples : list (var * tensor)) : exn + list (var * tensor) :=
  match l with
  | [] => inr weight_value_tuples
  | (pv, p, w) :: r =>
      if shape_eqb (shape pv) (shape w)
      then check_shapes r (weight_value_tuples ++ [(p, w)])
      else inl (ValueError (shape pv) (shape w))
  end.

Definition set_weights (self : t) (ws : list tensor) : M backend unit :=
  (let params := weights self in
   param_values <- K.batch_get_value params ;;
   weight_value_tuples <-
     lift_exn (check_shapes (combine (combine param_values params) ws) []) ;;
   K.batch_set_value weight_value_tuples)%monad.

Definition get_weights (self : t) : M backend (list tensor) :=
  K.batch_get_value (weights self).

Definition get_config (self : t) : dict :=
  (match clipnorm self with Some c => [("clipnorm"%string, PyFloat c)] | None => [] end)
  ++ (match clipvalue self with Some v => [("clipvalue"%string, PyFloat v)] | None => [] end).

End Optimizer.

(** An object of a subclass: the attributes of the base class and the
    attributes [F] its own constructor sets. *)
Record instance (F : Type) : Type := mkInstance { base : Optimizer.t; attrs : F }.
Arguments mkInstance {F} _ _.
Arguments base {F} _.
Arguments attrs {F} _.

Section Methods.
Context {F : Type}.

Definition set_updates (u : list update_op) : M (instance F * backend) unit :=
  on_self (fun o => mkInstance
    (Optimizer.mk (Optimizer.clipnorm (base o)) (Optimizer.clipvalue (base o))
                  u (Optimizer.weights (base o)))
    (attrs o)).

Definition set_weights_attr (w : list var) : M (instance F * backend) unit :=
  on_self (fun o => mkInstance
    (Optimizer.mk (Optimizer.clipnorm (base o)) (Optimizer.clipvalue (base o))
                  (Optimizer.updates (base o)) w)
    (attrs o)).

(** [self.updates.append(u)] *)
Definition append (u : update_op) : M (instance F * backend) unit :=
  (o <- self_ ;; set_updates (Optimizer.updates (base o) ++ [u]))%monad.

Definition get_updates_attr : M (instance F * backend) (list update_op) :=
  gets (fun s => Optimizer.updates (base (fst s))).

End Methods.

Fixpoint for_each {S A} (l : list A) (body : A -> M S unit) : M S unit :=
  match l with
  | [] => ret tt
  | a :: r => (body a ;;; for_each r body)%monad
  end.

Fixpoint map_M {S A B} (f : A -> M S B) (l : list A) : M S (list B) :=
  match l with
  | [] => ret []
  | a :: r => (b <- f a ;; bs <- map_M f r ;; ret (b :: bs))%monad
  end.

(** ** The cyclical learning rate block

    The block is repeated verbatim in the seven [get_updates]; it is
    written once here. *)

(** [cycle = tensor.floor(1+self.iterations/(2*step_size))] *)
Definition clr_cycle (iterations : var) (step_size : R) : texpr :=
  K.floor (#1 + !iterations / #(2 * step_size))%E.

(** [x = K.abs(self.iterations/step_size - 2*cycle + 1)] *)
Definition clr_x (iterations : var) (step_size : R) : texpr :=
  K.abs (!iterations / #step_size - #2 * clr_cycle iterations step_size + #1)%E.

(** [K.maximum(0., (1-x))] *)
Definition clr_amp (iterations : var) (step_size : R) : texpr :=
  K.maximum #0%E (#1 - clr_x iterations step_size)%E.

(** The three [if self.clr['mode']==...] branches; a missing key raises
    [KeyError], another mode leaves [lr] as it is. *)
Definition clr_block (clr : clr_dict) (iterations : var) (lr : texpr)
  : exn + texpr :=
  match getitem "mode" (clr_mode clr) with
  | inl e => inl e
  | inr mode =>
      if String.eqb mode "triangular" then
        match getitem "step_size" (clr_step_size clr) with
        | inl e => inl e
        | inr step_size =>
            match getitem "max_lr" (clr_max_lr clr) with
            | inl e => inl e
            | inr max_lr =>
                inr (lr + (#max_lr - lr) * clr_amp iterations step_size)%E
            end
        end
      else if String.eqb mode "triangular2" then
        match getitem "step_size" (clr_step_size clr) with
        | inl e => inl e
        | inr step_size =>
            match getitem "max_lr" (clr_max_lr clr) with
            | inl e => inl e
            | inr max_lr =>
                inr (lr + (#max_lr - lr) * clr_amp iterations step_size
                          / K.pow #2%E (clr_cycle iterations step_size - #1))%E
            end
        end
      else if String.eqb mode "exp_range" then
        match getitem "step_size" (clr_step_size clr) with
        | inl e => inl e
        | inr step_size =>
            match getitem "max_lr" (clr_max_lr clr) with
            | inl e => inl e
            | inr max_lr =>
                match getitem "gamma" (clr_gamma clr) with
                | inl e => inl e
                | inr gamma =>
                    inr (lr + (#max_lr - lr) * clr_amp iterations step_size
                              * K.pow #gamma%E !iterations)%E
                end
            end
        end
      else inr lr
  end.

(** [lr *= (1. / (1. + self.decay * self.iterations))] *)
Definition decayed (lr : texpr) (decay iterations : var) : texpr :=
  (lr * (#1 / (#1 + !decay * !iterations)))%E.

(** [shapes = [K.get_variable_shape(p) for p in params]] *)
Definition variable_shapes {O} (params : list var) : M (O * backend) (list (list nat)) :=
  on_backend (map_M K.get_variable_shape params).

(** [[K.zeros(shape) for shape in shapes]] *)
Definition zeros_list {O} (shapes : list (list nat)) : M (O * backend) (list var) :=
  on_backend (map_M K.zeros shapes).

(** Python's [zip] of three and of four lists. *)
Definition zip3 {A B C} (l1 : list A) (l2 : list B) (l3 : list C) : list (A * B * C) :=
  combine (combine l1 l2) l3.

Definition zip4 {A B C D} (l1 : list A) (l2 : list B) (l3 : list C) (l4 : list D)
  : list (A * B * C * D) :=
  combine (combine (combine l1 l2) l3) l4.

Section Schedules.
Context {F : Type}.

(** The rate computation of SGD, RMSprop, Adagrad and Adadelta, from
    [lr = self.lr] to [self.updates.append(K.update(self.current_lr, lr))]:
    the same lines in the four classes. *)
Definition rate_and_counter (lr decay iterations : var) (initial_decay : R)
  (clr : option clr_dict) (current_lr : var) : M (instance F * backend) texpr :=
  (let lr := read lr in
   lr <- (if Rgtb initial_decay 0
          then (let lr := decayed lr decay iterations in
                append (K.update_add iterations 1) ;;; ret lr)
          else ret lr) ;;
   lr <- match clr with
         | Some c =>
             lr <- lift_exn (clr_block c iterations lr) ;;
             (if Reqb initial_decay 0
              then append (K.update_add iterations 1)
              else ret tt) ;;;
             ret lr
         | None => ret lr
         end ;;
   append (K.update current_lr lr) ;;;
   ret lr)%monad.

(** The rate computation of Adam and Adamax: the counter is not touched
    here, [get_updates] starts with the increment. *)
Definition rate_only (lr decay iterations : var) (initial_decay : R)
  (clr : option clr_dict) (current_lr : var) : M (instance F * backend) texpr :=
  (let lr := read lr in
   let lr := if Rgtb initial_decay 0 then decayed lr decay iterations else lr in
   lr <- match clr with
         | Some c => lift_exn (clr_block c iterations lr)
         | None => ret lr
         end ;;
   append (K.update current_lr lr) ;;;
   ret lr)%monad.

End Schedules.

(** ** class SGD *)

Module SGD.

Record attrs_t : Type := mkAttrs {
  iterations : var;
  lr : var;
  momentum : var;
  decay : var;
  initial_decay : R;
  nesterov : bool;
  clr : option clr_dict;
  current_lr : var
}.

Abbreviation t := (instance attrs_t).

Definition init (lr0 momentum0 decay0 : R) (nesterov0 : bool)
  (clr0 : option clr_dict) (kwargs : dict) : M backend t :=
  (b <- Optimizer.init kwargs ;;
   iterations <- K.variable (scalar 0) ;;
   lr <- K.variable (scalar lr0) ;;
   momentum <- K.variable (scalar momentum0) ;;
   decay <- K.variable (scalar decay0) ;;
   current_lr <- K.variable (scalar 0) ;;
   ret (mkInstance b
          (mkAttrs iterations lr momentum decay decay0 nesterov0 clr0 current_lr)))%monad.

Definition get_updates (params : list var) (constraints : constraints_t)
  (loss : K.loss_t) : M (t * backend) (list update_op) :=
  (self <- self_ ;;
   let a := attrs self in
   let grads := Optimizer.get_gradients (base self) loss params in
   set_updates [] ;;;
   lr <- rate_and_counter (lr a) (decay a) (iterations a) (initial_decay a)
           (clr a) (current_lr a) ;;
   shapes <- variable_shapes params ;;
   moments <- zeros_list shapes ;;
   set_weights_attr (iterations a :: moments) ;;;
   for_each (zip3 params grads moments) (fun '(p, g, m) =>
     let v := (!(momentum a) * !m - lr * g)%E in
     append (K.update m v) ;;;
     let new_p := if nesterov a
                  then (!p + !(momentum a) * v - lr * g)%E
                  else (!p + v)%E in
     let new_p := apply_constraint constraints p new_p in
     append (K.update p new_p)) ;;;
   get_updates_attr)%monad.

Definition get_config (self : t) : M backend dict :=
  (let a := attrs self in
   lr <- K.get_value (lr a) ;;
   momentum <- K.get_value (momentum a) ;;
   decay <- K.get_value (decay a) ;;
   iterations <- K.get_value (iterations a) ;;
   current_lr <- K.get_value (current_lr a) ;;
   ret (Optimizer.get_config (base self) ++
        [("lr", PyFloat (item lr));
         ("momentum", PyFloat (item momentum));
         ("decay", PyFloat (item decay));
         ("nesterov", PyBool (nesterov a));
         ("iterations", PyArray iterations);
         ("current_lr", PyFloat (item current_lr))]%string))%monad.

(** The named parameters of the constructor. *)
Definition named_params : list string :=
  ["lr"; "momentum"; "decay"; "nesterov"; "clr"]%string.

Definition from_config (config : dict) : M backend t :=
  init (arg_float "lr" 0.01 config) (arg_float "momentum" 0 config)
       (arg_float "decay" 0 config) (arg_bool "nesterov" false config)
       (arg_clr "clr" config)
       (rest_kwargs named_params config).

End SGD.

(** ** class RMSprop *)

Module RMSprop.

Record attrs_t : Type := mkAttrs {
  lr : var;
  rho : var;
  epsilon : R;
  decay : var;
  initial_decay : R;
  iterations : var;
  clr : option clr_dict;
  current_lr : var
}.

Abbreviation t := (instance attrs_t).

Definition init (lr0 rho0 epsilon0 decay0 : R) (clr0 : option clr_dict)
  (kwargs : dict) : M backend t :=
  (b <- Optimizer.init kwargs ;;
   lr <- K.variable (scalar lr0) ;;
   rho <- K.variable (scalar rho0) ;;
   decay <- K.variable (scalar decay0) ;;
   iterations <- K.variable (scalar 0) ;;
   current_lr <- K.variable (scalar 0) ;;
   ret (mkInstance b
          (mkAttrs lr rho epsilon0 decay decay0 iterations clr0 current_lr)))%monad.

Definition get_updates (params : list var) (constraints : constraints_t)
  (loss : K.loss_t) : M (t * backend) (list update_op) :=
  (self <- self_ ;;
   let a := attrs self in
   let grads := Optimizer.get_gradients (base self) loss params in
   shapes <- variable_shapes params ;;
   accumulators <- zeros_list shapes ;;
   set_weights_attr accumulators ;;;
   set_updates [] ;;;
   lr <- rate_and_counter (lr a) (decay a) (iterations a) (initial_decay a)
           (clr a) (current_lr a) ;;
   for_each (zip3 params grads accumulators) (fun '(p, g, acc) =>
     let new_a := (!(rho a) * !acc + (#1 - !(rho a)) * K.square g)%E in
     append (K.update acc new_a) ;;;
     let new_p := (!p - lr * g / (K.sqrt new_a + #(epsilon a)))%E in
     let new_p := apply_constraint constraints p new_p in
     append (K.update p new_p)) ;;;
   get_updates_attr)%monad.

Definition get_config (self : t) : M backend dict :=
  (let a := attrs self in
   lr <- K.get_value (lr a) ;;
   rho <- K.get_value (rho a) ;;
   decay <- K.get_value (decay a) ;;
   iterations <- K.get_value (iterations a) ;;
   current_lr <- K.get_value (current_lr a) ;;
   ret (Optimizer.get_config (base self) ++
        [("lr", PyFloat (item lr));
         ("rho", PyFloat (item rho));
         ("decay", PyFloat (item decay));
         ("epsilon", PyFloat (epsilon a));
         ("iterations", PyArray iterations);
         ("current_lr", PyFloat (item current_lr))]%string))%monad.

(** The named parameters of the constructor. *)
Definition named_params : list string :=
  ["lr"; "rho"; "epsilon"; "decay"; "clr"]%string.

Definition from_config (config : dict) : M backend t :=
  init (arg_float "lr" 0.001 config) (arg_float "rho" 0.9 config)
       (arg_float "epsilon" 1e-8 config) (arg_float "decay" 0 config)
       (arg_clr "clr" config)
       (rest_kwargs named_params config).

End RMSprop.

(** ** class Adagrad *)

Module Adagrad.

Record attrs_t : Type := mkAttrs {
  lr : var;
  epsilon : R;
  decay : var;
  initial_decay : R;
  iterations : var;
  clr : option clr_dict;
  current_lr : var
}.

Abbreviation t := (instance attrs_t).

Definition init (lr0 epsilon0 decay0 : R) (clr0 : option clr_dict)
  (kwargs : dict) : M backend t :=
  (b <- Optimizer.init kwargs ;;
   lr <- K.variable (scalar lr0) ;;
   decay <- K.variable (scalar decay0) ;;
   iterations <- K.variable (scalar 0) ;;
   current_lr <- K.variable (scalar 0) ;;
   ret (mkInstance b
          (mkAttrs lr epsilon0 decay decay0 iterations clr0 current_lr)))%monad.

Definition get_updates (params : list var) (constraints : constraints_t)
  (loss : K.loss_t) : M (t * backend) (list update_op) :=
  (self <- self_ ;;
   let a := attrs self in
   let grads := Optimizer.get_gradients (base self) loss params in
   shapes <- variable_shapes params ;;
   accumulators <- zeros_list shapes ;;
   set_weights_attr accumulators ;;;
   set_updates [] ;;;
   lr <- rate_and_counter (lr a) (decay a) (iterations a) (initial_decay a)
           (clr a) (current_lr a) ;;
   for_each (zip3 params grads accumulators) (fun '(p, g, acc) =>
     let new_a := (!acc + K.square g)%E in
     append (K.update acc new_a) ;;;
     let new_p := (!p - lr * g / (K.sqrt new_a + #(epsilon a)))%E in
     let new_p := apply_constraint constraints p new_p in
     append (K.update p new_p)) ;;;
   get_updates_attr)%monad.

Definition get_config (self : t) : M backend dict :=
  (let a := attrs self in
   lr <- K.get_value (lr a) ;;
   decay <- K.get_value (decay a) ;;
   iterations <- K.get_value (iterations a) ;;
   current_lr <- K.get_value (current_lr a) ;;
   ret (Optimizer.get_config (base self) ++
        [("lr", PyFloat (item lr));
         ("decay", PyFloat (item decay));
         ("epsilon", PyFloat (epsilon a));
         ("iterations", PyArray iterations);
         ("current_lr", PyFloat (item current_lr))]%string))%monad.

(** The named parameters of the constructor. *)
Definition named_params : list string :=
  ["lr"; "epsilon"; "decay"; "clr"]%string.

Definition from_config (config : dict) : M backend t :=
  init (arg_float "lr" 0.01 config) (arg_float "epsilon" 1e-8 config)
       (arg_float "decay" 0 config) (arg_clr "clr" config)
       (rest_kwargs named_params config).

End Adagrad.

(** ** class Adadelta *)

Module Adadelta.

Record attrs_t : Type := mkAttrs {
  lr : var;
  rho : R;
  epsilon : R;
  decay : var;
  initial_decay : R;
  iterations : var;
  clr : option clr_dict;
  current_lr : var
}.

Abbreviation t := (instance attrs_t).

Definition init (lr0 rho0 epsilon0 decay0 : R) (clr0 : option clr_dict)
  (kwargs : dict) : M backend t :=
  (b <- Optimizer.init kwargs ;;
   lr <- K.variable (scalar lr0) ;;
   decay <- K.variable (scalar decay0) ;;
   iterations <- K.variable (scalar 0) ;;
   current_lr <- K.variable (scalar 0) ;;
   ret (mkInstance b
          (mkAttrs lr rho0 epsilon0 decay decay0 iterations clr0 current_lr)))%monad.

(** The update term [g * sqrt(d_a + epsilon) / sqrt(new_a + epsilon)]. *)
Definition update_term (a : attrs_t) (g new_a : texpr) (d_a : var) : texpr :=
  (g * K.sqrt (!d_a + #(epsilon a)) / K.sqrt (new_a + #(epsilon a)))%E.

Definition get_updates (params : list var) (constraints : constraints_t)
  (loss : K.loss_t) : M (t * backend) (list update_op) :=
  (self <- self_ ;;
   let a := attrs self in
   let grads := Optimizer.get_gradients (base self) loss params in
   shapes <- variable_shapes params ;;
   accumulators <- zeros_list shapes ;;
   delta_accumulators <- zeros_list shapes ;;
   set_weights_attr (accumulators ++ delta_accumulators) ;;;
   set_updates [] ;;;
   lr <- rate_and_counter (lr a) (decay a) (iterations a) (initial_decay a)
           (clr a) (current_lr a) ;;
   for_each (zip4 params grads accumulators delta_accumulators)
     (fun '(p, g, acc, d_a) =>
     let new_a := (#(rho a) * !acc + #(1 - rho a) * K.square g)%E in
     append (K.update acc new_a) ;;;
     let update := update_term a g new_a d_a in
     let new_p := (!p - lr * update)%E in
     let new_p := apply_constraint constraints p new_p in
     append (K.update p new_p) ;;;
     let new_d_a := (#(rho a) * !d_a + #(1 - rho a) * K.square update)%E in
     append (K.update d_a new_d_a)) ;;;
   get_updates_attr)%monad.

Definition get_config (self : t) : M backend dict :=
  (let a := attrs self in
   lr <- K.get_value (lr a) ;;
   decay <- K.get_value (decay a) ;;
   iterations <- K.get_value (iterations a) ;;
   current_lr <- K.get_value (current_lr a) ;;
   ret (Optimizer.get_config (base self) ++
        [("lr", PyFloat (item lr));
         ("rho", PyFloat (rho a));
         ("decay", PyFloat (item decay));
         ("epsilon", PyFloat (epsilon a));
         ("iterations", PyArray iterations);
         ("current_lr", PyFloat (item current_lr))]%string))%monad.

(** The named parameters of the constructor. *)
Definition named_params : list string :=
  ["lr"; "rho"; "epsilon"; "decay"; "clr"]%string.

Definition from_config (config : dict) : M backend t :=
  init (arg_float "lr" 1.0 config) (arg_float "rho" 0.95 config)
       (arg_float "epsilon" 1e-8 config) (arg_float "decay" 0 config)
       (arg_clr "clr" config)
       (rest_kwargs named_params config).

End Adadelta.

(** ** class Adam *)

Module Adam.

Record attrs_t : Type := mkAttrs {
  iterations : var;
  lr : var;
  beta_1 : var;
  beta_2 : var;
  epsilon : R;
  decay : var;
  initial_decay : R;
  clr : option clr_dict;
  current_lr : var
}.

Abbreviation t := (instance attrs_t).

Definition init (lr0 beta_1_0 beta_2_0 epsilon0 decay0 : R)
  (clr0 : option clr_dict) (kwargs : dict) : M backend t :=
  (b <- Optimizer.init kwargs ;;
   iterations <- K.variable (scalar 0) ;;
   lr <- K.variable (scalar lr0) ;;
   beta_1 <- K.variable (scalar beta_1_0) ;;
   beta_2 <- K.variable (scalar beta_2_0) ;;
   decay <- K.variable (scalar decay0) ;;
   current_lr <- K.variable (scalar 0) ;;
   ret (mkInstance b
          (mkAttrs iterations lr beta_1 beta_2 epsilon0 decay decay0 clr0
                   current_lr)))%monad.

Definition get_updates (params : list var) (constraints : constraints_t)
  (loss : K.loss_t) : M (t * backend) (list update_op) :=
  (self <- self_ ;;
   let a := attrs self in
   let grads := Optimizer.get_gradients (base self) loss params in
   set_updates [K.update_add (iterations a) 1] ;;;
   lr <- rate_only (lr a) (decay a) (iterations a) (initial_decay a)
           (clr a) (current_lr a) ;;
   let t := (!(iterations a) + #1)%E in
   let lr_t := (lr * (K.sqrt (#1 - K.pow !(beta_2 a) t)
                      / (#1 - K.pow !(beta_1 a) t)))%E in
   shapes <- variable_shapes params ;;
   ms <- zeros_list shapes ;;
   vs <- zeros_list shapes ;;
   set_weights_attr (iterations a :: ms ++ vs) ;;;
   for_each (zip4 params grads ms vs) (fun '(p, g, m, v) =>
     let m_t := (!(beta_1 a) * !m + (#1 - !(beta_1 a)) * g)%E in
     let v_t := (!(beta_2 a) * !v + (#1 - !(beta_2 a)) * K.square g)%E in
     let p_t := (!p - lr_t * m_t / (K.sqrt v_t + #(epsilon a)))%E in
     append (K.update m m_t) ;;;
     append (K.update v v_t) ;;;
     let new_p := p_t in
     let new_p := apply_constraint constraints p new_p in
     append (K.update p new_p)) ;;;
   get_updates_attr)%monad.

Definition get_config (self : t) : M backend dict :=
  (let a := attrs self in
   lr <- K.get_value (lr a) ;;
   beta_1 <- K.get_value (beta_1 a) ;;
   beta_2 <- K.get_value (beta_2 a) ;;
   decay <- K.get_value (decay a) ;;
   iterations <- K.get_value (iterations a) ;;
   current_lr <- K.get_value (current_lr a) ;;
   ret (Optimizer.get_config (base self) ++
        [("lr", PyFloat (item lr));
         ("beta_1", PyFloat (item beta_1));
         ("beta_2", PyFloat (item beta_2));
         ("decay", PyFloat (item decay));
         ("epsilon", PyFloat (epsilon a));
         ("iterations", PyArray iterations);
         ("current_lr", PyFloat (item current_lr))]%string))%monad.

(** The named parameters of the constructor. *)
Definition named_params : list string :=
  ["lr"; "beta_1"; "beta_2"; "epsilon"; "decay"; "clr"]%string.

Definition from_config (config : dict) : M backend t :=
  init (arg_float "lr" 0.001 config) (arg_float "beta_1" 0.9 config)
       (arg_float "beta_2" 0.999 config) (arg_float "epsilon" 1e-8 config)
       (arg_float "decay" 0 config) (arg_clr "clr" config)
       (rest_kwargs named_params config).

End Adam.

(** ** class Adamax *)

Module Adamax.

Record attrs_t : Type := mkAttrs {
  iterations : var;
  lr : var;
  beta_1 : var;
  beta_2 : var;
  epsilon : R;
  decay : var;
  initial_decay : R;
  clr : option clr_dict;
  current_lr : var
}.

Abbreviation t := (instance attrs_t).

Definition init (lr0 beta_1_0 beta_2_0 epsilon0 decay0 : R)
  (clr0 : option clr_dict) (kwargs : dict) : M backend t :=
  (b <- Optimizer.init kwargs ;;
   iterations <- K.variable (scalar 0) ;;
   lr <- K.variable (scalar lr0) ;;
   beta_1 <- K.variable (scalar beta_1_0) ;;
   beta_2 <- K.variable (scalar beta_2_0) ;;
   decay <- K.variable (scalar decay0) ;;
   current_lr <- K.variable (scalar 0) ;;
   ret (mkInstance b
          (mkAttrs iterations lr beta_1 beta_2 epsilon0 decay decay0 clr0
                   current_lr)))%monad.

Definition get_updates (params : list var) (constraints : constraints_t)
  (loss : K.loss_t) : M (t * backend) (list update_op) :=
  (self <- self_ ;;
   let a := attrs self in
   let grads := Optimizer.get_gradients (base self) loss params in
   set_updates [K.update_add (iterations a) 1] ;;;
   lr <- rate_only (lr a) (decay a) (iterations a) (initial_decay a)
           (clr a) (current_lr a) ;;
   let t := (!(iterations a) + #1)%E in
   let lr_t := (lr / (#1 - K.pow !(beta_1 a) t))%E in
   shapes <- variable_shapes params ;;
   ms <- zeros_list shapes ;;
   us <- zeros_list shapes ;;
   set_weights_attr (iterations a :: ms ++ us) ;;;
   for_each (zip4 params grads ms us) (fun '(p, g, m, u) =>
     let m_t := (!(beta_1 a) * !m + (#1 - !(beta_1 a)) * g)%E in
     let u_t := K.maximum (!(beta_2 a) * !u)%E (K.abs g) in
     let p_t := (!p - lr_t * m_t / (u_t + #(epsilon a)))%E in
     append (K.update m m_t) ;;;
     append (K.update u u_t) ;;;
     let new_p := p_t in
     let new_p := apply_constraint constraints p new_p in
     append (K.update p new_p)) ;;;
   get_updates_attr)%monad.

Definition get_config (self : t) : M backend dict :=
  (let a := attrs self in
   lr <- K.get_value (lr a) ;;
   beta_1 <- K.get_value (beta_1 a) ;;
   beta_2 <- K.get_value (beta_2 a) ;;
   decay <- K.get_value (decay a) ;;
   iterations <- K.get_value (iterations a) ;;
   current_lr <- K.get_value (current_lr a) ;;
   ret (Optimizer.get_config (base self) ++
        [("lr", PyFloat (item lr));
         ("beta_1", PyFloat (item beta_1));
         ("beta_2", PyFloat (item beta_2));
         ("decay", PyFloat (item decay));
         ("epsilon", PyFloat (epsilon a));
         ("iterations", PyArray iterations);
         ("current_lr", PyFloat (item current_lr))]%string))%monad.

(** The named parameters of the constructor. *)
Definition named_params : list string :=
  ["lr"; "beta_1"; "beta_2"; "epsilon"; "decay"; "clr"]%string.

Definition from_config (config : dict) : M backend t :=
  init (arg_float "lr" 0.002 config) (arg_float "beta_1" 0.9 config)
       (arg_float "beta_2" 0.999 config) (arg_float "epsilon" 1e-8 config)
       (arg_float "decay" 0 config) (arg_clr "clr" config)
       (rest_kwargs named_params config).

End Adamax.

(** ** class Nadam *)

Module Nadam.

Record attrs_t : Type := mkAttrs {
  iterations : var;
  m_schedule : var;
  lr : var;
  beta_1 : var;
  beta_2 : var;
  epsilon : R;
  schedule_decay : R;
  clr : option clr_dict;
  current_lr : var
}.

Abbreviation t := (instance attrs_t).

Definition init (lr0 beta_1_0 beta_2_0 epsilon0 schedule_decay0 : R)
  (clr0 : option clr_dict) (kwargs : dict) : M backend t :=
  (b <- Optimizer.init kwargs ;;
   iterations <- K.variable (scalar 0) ;;
   m_schedule <- K.variable (scalar 1) ;;
   lr <- K.variable (scalar lr0) ;;
   beta_1 <- K.variable (scalar beta_1_0) ;;
   beta_2 <- K.variable (scalar beta_2_0) ;;
   current_lr <- K.variable (scalar 0) ;;
   ret (mkInstance b
          (mkAttrs iterations m_schedule lr beta_1 beta_2 epsilon0
                   schedule_decay0 clr0 current_lr)))%monad.

Definition get_updates (params : list var) (constraints : constraints_t)
  (loss : K.loss_t) : M (t * backend) (list update_op) :=
  (self <- self_ ;;
   let a := attrs self in
   let grads := Optimizer.get_gradients (base self) loss params in
   set_updates [K.update_add (iterations a) 1] ;;;
   let lr := read (lr a) in
   lr <- match clr a with
         | Some c => lift_exn (clr_block c (iterations a) lr)
         | None => ret lr
         end ;;
   append (K.update (current_lr a) lr) ;;;
   let t := (!(iterations a) + #1)%E in
   let momentum_cache_t :=
     (!(beta_1 a) * (#1 - #0.5 * K.pow #0.96 (t * #(schedule_decay a))))%E in
   let momentum_cache_t_1 :=
     (!(beta_1 a) * (#1 - #0.5 * K.pow #0.96 ((t + #1) * #(schedule_decay a))))%E in
   let m_schedule_new := (!(m_schedule a) * momentum_cache_t)%E in
   let m_schedule_next :=
     (!(m_schedule a) * momentum_cache_t * momentum_cache_t_1)%E in
   append (Update (m_schedule a) m_schedule_new) ;;;
   shapes <- variable_shapes params ;;
   ms <- zeros_list shapes ;;
   vs <- zeros_list shapes ;;
   set_weights_attr (iterations a :: ms ++ vs) ;;;
   for_each (zip4 params grads ms vs) (fun '(p, g, m, v) =>
     let g_prime := (g / (#1 - m_schedule_new))%E in
     let m_t := (!(beta_1 a) * !m + (#1 - !(beta_1 a)) * g)%E in
     let m_t_prime := (m_t / (#1 - m_schedule_next))%E in
     let v_t := (!(beta_2 a) * !v + (#1 - !(beta_2 a)) * K.square g)%E in
     let v_t_prime := (v_t / (#1 - K.pow !(beta_2 a) t))%E in
     let m_t_bar :=
       ((#1 - momentum_cache_t) * g_prime + momentum_cache_t_1 * m_t_prime)%E in
     append (K.update m m_t) ;;;
     append (K.update v v_t) ;;;
     let p_t := (!p - lr * m_t_bar / (K.sqrt v_t_prime + #(epsilon a)))%E in
     let new_p := p_t in
     let new_p := apply_constraint constraints p new_p in
     append (K.update p new_p)) ;;;
   get_updates_attr)%monad.

Definition get_config (self : t) : M backend dict :=
  (let a := attrs self in
   lr <- K.get_value (lr a) ;;
   beta_1 <- K.get_value (beta_1 a) ;;
   beta_2 <- K.get_value (beta_2 a) ;;
   iterations <- K.get_value (iterations a) ;;
   current_lr <- K.get_value (current_lr a) ;;
   ret (Optimizer.get_config (base self) ++
        [("lr", PyFloat (item lr));
         ("beta_1", PyFloat (item beta_1));
         ("beta_2", PyFloat (item beta_2));
         ("epsilon", PyFloat (epsilon a));
         ("schedule_decay", PyFloat (schedule_decay a));
         ("iterations", PyArray iterations);
         ("current_lr", PyFloat (item current_lr))]%string))%monad.

(** The named parameters of the constructor. *)
Definition named_params : list string :=
  ["lr"; "beta_1"; "beta_2"; "epsilon"; "schedule_decay"; "clr"]%string.

Definition from_config (config : dict) : M backend t :=
  init (arg_float "lr" 0.002 config) (arg_float "beta_1" 0.9 config)
       (arg_float "beta_2" 0.999 config) (arg_float "epsilon" 1e-8 config)
       (arg_float "schedule_decay" 0.004 config) (arg_clr "clr" config)
       (rest_kwargs named_params config).

End Nadam.

(** * Vocabulary of the specification *)

(** The keyword names a class accepts: its named parameters and the two
    of the base class. *)
Definition recognized (names : list string) : list string :=
  names ++ Optimizer.allowed_kwargs.

(** The object with its [updates] and [weights] attributes replaced. *)
Definition with_state {F} (us : list update_op) (ws : list var)
  (o : instance F) : instance F :=
  mkInstance
    (Optimizer.mk (Optimizer.clipnorm (base o)) (Optimizer.clipvalue (base o)) us ws)
    (attrs o).

(** The store after allocating the tensors [ts] one after the other. *)
Fixpoint alloc (ts : list tensor) (h : backend) : backend :=
  match ts with
  | [] => h
  | t :: r => alloc r (snd (K.variable t h))
  end.

Definition zeros_of (params : list var) (h : backend) : list tensor :=
  map (fun p => K.zeros_tensor (shape (value h p))) params.

(** The cyclical block when a [clr] is configured, the rate as it is
    otherwise. *)
Definition rate_of (clr : option clr_dict) (iterations : var) (lr : texpr)
  : exn + texpr :=
  match clr with
  | Some c => clr_block c iterations lr
  | None => inr lr
  end.

(** The symbolic rate after decay and the cyclical block. *)
Definition rate_expr (lr decay iterations : var) (initial_decay : R)
  (clr : option clr_dict) : exn + texpr :=
  rate_of clr iterations
    (if Rgtb initial_decay 0 then decayed (read lr) decay iterations else read lr).

(** The counter increments emitted by the rate computation of SGD,
    RMSprop, Adagrad and Adadelta. *)
Definition counter_ops (initial_decay : R) (clr : option clr_dict)
  (iterations : var) : list update_op :=
  (if Rgtb initial_decay 0 then [UpdateAdd iterations 1] else [])
  ++ match clr with
     | Some _ => if Reqb initial_decay 0 then [UpdateAdd iterations 1] else []
     | None => []
     end.

(** The handles of an object are allocated and pairwise distinct. *)
Definition allocated (xs : list var) (h : backend) : Prop :=
  NoDup xs /\ Forall (fun x => (x < next_var h)%nat) xs.

(** Tensor arithmetic, for statements about values. *)
Declare Scope tensor_scope.
Delimit Scope tensor_scope with T.
Bind Scope tensor_scope with tensor.
Notation "a + b" := (tzip Rplus a b) : tensor_scope.
Notation "a - b" := (tzip Rminus a b) : tensor_scope.
Notation "a * b" := (tzip Rmult a b) : tensor_scope.
Notation "a / b" := (tzip Rdiv a b) : tensor_scope.
Definition tsqrt : tensor -> tensor := tmap R_sqrt.sqrt.
Definition tsquare : tensor -> tensor := tmap (fun x => x * x).

(** Where the per-parameter updates of a class may write: a parameter or a
    variable allocated by this call of [get_updates]. *)
Definition writes_within (params : list var) (hb : backend) (body : list update_op) : Prop :=
  forall u, In u body -> In (target u) params \/ (next_var hb <= target u)%nat.

(** The three updates Adadelta emits for one parameter, in this order. *)
Definition adadelta_updates (a : Adadelta.attrs_t) (cs : constraints_t) (lr : texpr)
  (x : var * texpr * var * var) : list update_op :=
  let '(p, g, acc, d_a) := x in
  let new_a := (#(Adadelta.rho a) * !acc + #(1 - Adadelta.rho a) * K.square g)%E in
  let update := Adadelta.update_term a g new_a d_a in
  [Update acc new_a;
   Update p (apply_constraint cs p (!p - lr * update)%E);
   Update d_a (#(Adadelta.rho a) * !d_a + #(1 - Adadelta.rho a) * K.square update)%E].

(** Nadam has no decay: its rate is the cyclical block on [lr]. *)
Definition nadam_rate (a : Nadam.attrs_t) : exn + texpr :=
  rate_of (Nadam.clr a) (Nadam.iterations a) (read (Nadam.lr a)).

(** Whether the rate computation of SGD, RMSprop, Adagrad and Adadelta
    emits a counter increment. *)
Definition advances (initial_decay : R) (clr : option clr_dict) : bool :=
  Rgtb initial_decay 0
  || match clr with Some _ => Reqb initial_decay 0 | None => false end.

Definition is_some {A} (o : option A) : bool :=
  match o with Some _ => true | None => false end.

(** The [clr] argument has the keys its mode reads. *)
Definition clr_complete (clr : option clr_dict) : bool :=
  match clr with
  | None => true
  | Some c =>
      match clr_mode c with
      | None => false
      | Some mode =>
          if String.eqb mode "triangular" || String.eqb mode "triangular2"
          then is_some (clr_step_size c) && is_some (clr_max_lr c)
          else if String.eqb mode "exp_range"
          then is_some (clr_step_size c) && is_some (clr_max_lr c)
               && is_some (clr_gamma c)
          else true
      end
  end.

(** The variable handles of an object of each class. *)
Definition SGD_handles (a : SGD.attrs_t) : list var :=
  [SGD.iterations a; SGD.lr a; SGD.momentum a; SGD.decay a; SGD.current_lr a].
Definition RMSprop_handles (a : RMSprop.attrs_t) : list var :=
  [RMSprop.lr a; RMSprop.rho a; RMSprop.decay a; RMSprop.iterations a;
   RMSprop.current_lr a].
Definition Adagrad_handles (a : Adagrad.attrs_t) : list var :=
  [Adagrad.lr a; Adagrad.decay a; Adagrad.iterations a; Adagrad.current_lr a].
Definition Adadelta_handles (a : Adadelta.attrs_t) : list var :=
  [Adadelta.lr a; Adadelta.decay a; Adadelta.iterations a; Adadelta.current_lr a].
Definition Adam_handles (a : Adam.attrs_t) : list var :=
  [Adam.iterations a; Adam.lr a; Adam.beta_1 a; Adam.beta_2 a; Adam.decay a;
   Adam.current_lr a].
Definition Adamax_handles (a : Adamax.attrs_t) : list var :=
  [Adamax.iterations a; Adamax.lr a; Adamax.beta_1 a; Adamax.beta_2 a;
   Adamax.decay a; Adamax.current_lr a].
Definition Nadam_handles (a : Nadam.attrs_t) : list var :=
  [Nadam.iterations a; Nadam.m_schedule a; Nadam.lr a; Nadam.beta_1 a;
   Nadam.beta_2 a; Nadam.current_lr a].

(** The net effect of one step on the counter: increased by one, or left
    as it was. *)
Definition counter_effect (adv : bool) (it : var) (ups : list update_op) : Prop :=
  forall h, value (run_updates ups h) it
            = if adv then (value h it + scalar 1)%T else value h it.

(** A store with one parameter (handle 0, value 2) and, after it, the
    variables of an optimizer constructed with its defaults. *)
Definition store0 : backend :=
  mkBackend 1 (fun y => if Nat.eqb y 0 then scalar 2 else scalar 0).

(** An SGD object constructed with its defaults on [store0], one with
    [decay = 0.5], and an RMSprop object with its defaults. *)
Definition sgd_default : SGD.t :=
  mkInstance (Optimizer.mk None None [] [])
    (SGD.mkAttrs 1%nat 2%nat 3%nat 4%nat 0 false None 5%nat).
Definition sgd_decaying : SGD.t :=
  mkInstance (Optimizer.mk None None [] [])
    (SGD.mkAttrs 1%nat 2%nat 3%nat 4%nat 0.5 false None 5%nat).
Definition rmsprop_default : RMSprop.t :=
  mkInstance (Optimizer.mk None None [] [])
    (RMSprop.mkAttrs 1%nat 2%nat 1e-8 3%nat 0 4%nat None 5%nat).
Definition store_sgd_default : backend :=
  snd (SGD.init 0.01 0 0 false None [] store0).
Definition store_sgd_decaying : backend :=
  snd (SGD.init 0.01 0 0.5 false None [] store0).
Definition store_rmsprop_default : backend :=
  snd (RMSprop.init 0.001 0.9 1e-8 0 None [] store0).

(** [get_updates] succeeds and leaves [ws] in [self.weights]; [get_weights]
    then returns the values of these variables, in this order. *)
Definition sets_weights {F} (run : M (instance F * backend) (list update_op))
  (s : instance F * backend) (ws : list var) : Prop :=
  exists ups self' h',
    run s = (inr ups, (self', h')) /\
    Optimizer.weights (base self') = ws /\
    Optimizer.get_weights (base self') h' = (inr (map (value h') ws), h').

(** A keyword call that meets a keyword outside the recognized ones raises
    [TypeError] on one of them and leaves the backend store as it was. *)
Definition rejects_unknown {A} (names : list string)
  (construct : dict -> M backend A) : Prop :=
  forall config h,
    (exists key, In key (keys config) /\ mem key (recognized names) = false) ->
    exists key, In key (keys config) /\ mem key (recognized names) = false /\
                construct config h = (inl (TypeError key), h).

Definition never_type_error {S A} (run : M S A) : Prop :=
  forall s key, fst (run s) <> inl (TypeError key).

(** Exporting the configuration and importing it on the store of the
    export. *)
Definition reimport {O} (get_config : O -> M backend dict)
  (from_config : dict -> M backend O) (self : O) (h : backend)
  : (exn + O) * backend :=
  (config <- get_config self ;; from_config config)%monad h.

(** The live tensor and the provided value at the same position differ in
    shape / all agree in shape. *)
Definition shape_mismatch (h : backend) (params : list var) (ws : list tensor) : Prop :=
  exists i p w, nth_error params i = Some p /\ nth_error ws i = Some w /\
                shape (value h p) <> shape w.

Definition shapes_agree (h : backend) (params : list var) (ws : list tensor) : Prop :=
  forall i p w, nth_error params i = Some p -> nth_error ws i = Some w ->
                shape (value h p) = shape w.

(** The object with another weight list. *)
Definition with_weights (ws : list var) (self : Optimizer.t) : Optimizer.t :=
  Optimizer.mk (Optimizer.clipnorm self) (Optimizer.clipvalue self)
    (Optimizer.updates self) ws.

(** A store with two optimizer weights: a scalar (handle 0) and a vector
    of two elements (handle 1). *)
Definition store_two : backend :=
  mkBackend 2 (fun y => if Nat.eqb y 0 then scalar 7 else mkT [2%nat] [1; 2]).
Definition two_weights : Optimizer.t := Optimizer.mk None None [] [0%nat; 1%nat].

(** The global norm: the square root of the sum of the squares of all
    elements of all gradients. *)
Definition global_norm (gs : list tensor) : R :=
  R_sqrt.sqrt (fold_right Rplus 0 (map (fun x => x * x) (concat (map data gs)))).

Definition value_clip_off (self : Optimizer.t) : Prop :=
  match Optimizer.clipvalue self with Some v => ~ v > 0 | None => True end.

(** The gradients of a step, evaluated in the store [h]. *)
Definition eval_all (es : list texpr) (h : backend) : list tensor :=
  map (fun e => e h) es.

(** A base object with [clipnorm = 1]. *)
Definition clipping_at_one : Optimizer.t := Optimizer.mk (Some 1) None [] [].

(** A triangular schedule. *)
Definition triangular_clr : clr_dict :=
  mkClr (Some "triangular"%string) (Some 2000) (Some 0.06) None.

(** What one Adadelta step does to every parameter of [params], and what
    the step after it does.  For the parameter [p] at position [i], [acc]
    and [d_a] are the accumulator and the delta accumulator the call
    allocates for it, [g] its gradient, [lr] the rate recorded into
    [current_lr], and [new_p] the new value before the constraint of [p],
    if it has one, is applied. *)
Definition adadelta_step_spec (self : Adadelta.t) (hb : backend)
  (params : list var) (cs : constraints_t) (loss : K.loss_t) : Prop :=
  let a := attrs self in
  let rho := Adadelta.rho a in
  let eps := Adadelta.epsilon a in
  let n := List.length params in
  exists ups s' lr,
    Adadelta.get_updates params cs loss (self, hb) = (inr ups, s') /\
    In (Update (Adadelta.current_lr a) lr) ups /\
    forall i p g,
      nth_error params i = Some p ->
      nth_error (Optimizer.get_gradients (base self) loss params) i = Some g ->
      let acc := (next_var hb + i)%nat in
      let d_a := (next_var hb + n + i)%nat in
      let new_a h := (scalar rho * value h acc + scalar (1 - rho) * tsquare (g h))%T in
      let update h d := (g h * tsqrt (d + scalar eps) / tsqrt (new_a h + scalar eps))%T in
      let new_d_a h := (scalar rho * value h d_a
                        + scalar (1 - rho) * tsquare (update h (value h d_a)))%T in
      let new_p : texpr := fun h => (value h p - lr h * update h (value h d_a))%T in
      (exists pre post e_a e_p e_d,
         ups = pre ++ [Update acc e_a; Update p e_p; Update d_a e_d] ++ post) /\
      forall h0,
        let h1 := run_updates ups h0 in
        let h2 := run_updates ups h1 in
        value h1 acc = new_a h0 /\
        value h1 p = apply_constraint cs p new_p h0 /\
        value h1 d_a = new_d_a h0 /\
        value h2 p = apply_constraint cs p new_p h1 /\
        new_p h1 = (value h1 p - lr h1 * update h1 (new_d_a h0))%T /\
        (lookup_constraint p cs = None ->
         value h1 p = (value h0 p - lr h0 * update h0 (value h0 d_a))%T /\
         value h2 p = (value h1 p - lr h1 * update h1 (new_d_a h0))%T).

(** An Adadelta object constructed with its defaults on [store0]. *)
Definition adadelta_default : Adadelta.t :=
  mkInstance (Optimizer.mk None None [] [])
    (Adadelta.mkAttrs 1%nat 0.95 1e-8 2%nat 0 3%nat None 4%nat).
Definition store_adadelta_default : backend :=
  snd (Adadelta.init 1.0 0.95 1e-8 0 None [] store0).

(** An Adadelta object constructed with its defaults on [store_two], whose
    two variables (a scalar and a vector) are the parameters. *)
Definition adadelta_on_two : Adadelta.t :=
  mkInstance (Optimizer.mk None None [] [])
    (Adadelta.mkAttrs 2%nat 0.95 1e-8 3%nat 0 4%nat None 5%nat).
Definition store_adadelta_two : backend :=
  snd (Adadelta.init 1.0 0.95 1e-8 0 None [] store_two).




(** No positive norm threshold is configured. *)
Definition norm_clip_off (self : Optimizer.t) : Prop :=
  match Optimizer.clipnorm self with Some c => ~ c > 0 | None => True end.


Definition clipnorm_zero : Optimizer.t := Optimizer.mk (Some 0) None [] [].
(** The cycle number, the position in the cycle and the amplitude factor
    of the cyclical block as functions of the counter value [t]. *)
Definition cycle_of (t step_size : R) : R :=
  IZR (Int_part (1 + t / (2 * step_size))).
Definition x_of (t step_size : R) : R :=
  Rabs (t / step_size - 2 * cycle_of t step_size + 1).
Definition amp_of (t step_size : R) : R := Rmax 0 (1 - x_of t step_size).

(** The first key the cyclical block misses, in the order it reads them. *)
Definition missing_key (clr : option clr_dict) : option string :=
  match clr with
  | None => None
  | Some c =>
      match clr_mode c with
      | None => Some "mode"%string
      | Some mode =>
          let common :=
            match clr_step_size c, clr_max_lr c with
            | None, _ => Some "step_size"%string
            | Some _, None => Some "max_lr"%string
            | Some _, Some _ => None
            end in
          if String.eqb mode "triangular" || String.eqb mode "triangular2"
          then common
          else if String.eqb mode "exp_range"
          then match common, clr_gamma c with
               | Some k, _ => Some k
               | None, None => Some "gamma"%string
               | None, Some _ => None
               end
          else None
      end
  end.

(** [get_updates] raises [KeyError] and leaves the store [h'] and the
    weight list [ws] behind. *)
Definition fails_with_key {F} (run : M (instance F * backend) (list update_op))
  (s : instance F * backend) (key : string) (h' : backend) (ws : list var) : Prop :=
  exists self',
    run s = (inl (KeyError key), (self', h')) /\
    attrs self' = attrs (fst s) /\
    Optimizer.weights (base self') = ws.

(** Schedules used as examples. *)
Definition exp_range_without_gamma : clr_dict :=
  mkClr (Some "exp_range"%string) (Some 2000) (Some 0.06) None.
Definition triangular2_clr : clr_dict :=
  mkClr (Some "triangular2"%string) (Some 2000) (Some 0.06) None.
Definition store_at (t : R) : backend :=
  mkBackend 3 (fun y => if Nat.eqb y 1 then scalar t else scalar 0.01).

(** An RMSprop and an Adam object whose [clr] lacks [gamma]. *)
Definition rmsprop_without_gamma : RMSprop.t :=
  mkInstance (Optimizer.mk None None [] [])
    (RMSprop.mkAttrs 1%nat 2%nat 1e-8 3%nat 0 4%nat
       (Some exp_range_without_gamma) 5%nat).

(** A keyword call whose keywords are all recognized returns an object,
    allocates [k] variables and leaves the variables of before as they
    were. *)
Definition accepts_known {A} (names : list string)
  (construct : dict -> M backend A) (k : nat) : Prop :=
  forall config h,
    (forall key, In key (keys config) -> mem key (recognized names) = true) ->
    exists self h',
      construct config h = (inr self, h') /\
      next_var h' = (next_var h + k)%nat /\
      forall x, (x < next_var h)%nat -> value h' x = value h x.

(** The exported configuration without the two entries no constructor
    takes. *)
Definition hyperparameters (config : dict) : dict :=
  rest_kwargs ["iterations"; "current_lr"]%string config.

(** Importing the hyperparameters of an export returns an object whose
    own export has the same hyperparameters, the counter and the current
    rate at 0, and no [clr]. *)
Definition reimports_hyperparameters {O} (get_config : O -> M backend dict)
  (from_config : dict -> M backend O) (clr_of : O -> option clr_dict) : Prop :=
  forall self h,
  exists cfg self' h' cfg',
    get_config self h = (inr cfg, h) /\
    from_config (hyperparameters cfg) h = (inr self', h') /\
    get_config self' h' = (inr cfg', h') /\
    hyperparameters cfg' = hyperparameters cfg /\
    assoc "iterations" cfg' = Some (PyArray (scalar 0)) /\
    assoc "current_lr" cfg' = Some (PyFloat 0) /\
    clr_of self' = None.

(** [n] training steps with the same batch of updates. *)
Definition steps (n : nat) (ups : list update_op) (h : backend) : backend :=
  Nat.iter n (run_updates ups) h.

(** [get_updates] succeeds, and [n] steps of the batch it returns add [n]
    to the counter when [adv] holds and leave it as it was otherwise. *)
Definition counts_steps {F} (run : M (instance F * backend) (list update_op))
  (s : instance F * backend) (it : var) (adv : bool) : Prop :=
  exists ups s',
    run s = (inr ups, s') /\
    forall h t n, value h it = scalar t ->
      value (steps n ups h) it = scalar (t + if adv then INR n else 0).

(** [get_updates] succeeds and allocates [k] lists of accumulators, one
    after the other: every accumulator is a tensor of zeros of the shape
    of its parameter, and the variables of before keep their values. *)
Definition allocates_zeros {F} (run : M (instance F * backend) (list update_op))
  (s : instance F * backend) (params : list var) (k : nat) : Prop :=
  let hb := snd s in
  let n := List.length params in
  exists ups self' h',
    run s = (inr ups, (self', h')) /\
    next_var h' = (next_var hb + k * n)%nat /\
    (forall x, (x < next_var hb)%nat -> value h' x = value hb x) /\
    (forall j i p, (j < k)%nat -> nth_error params i = Some p ->
       value h' (next_var hb + j * n + i)%nat
       = K.zeros_tensor (shape (value hb p))).

(** An Adam object constructed with its defaults on [store0]. *)
Definition adam_default : Adam.t :=
  mkInstance (Optimizer.mk None None [] [])
    (Adam.mkAttrs 1%nat 2%nat 3%nat 4%nat 1e-8 5%nat 0 None 6%nat).
Definition store_adam_default : backend :=
  snd (Adam.init 0.001 0.9 0.999 1e-8 0 None [] store0).

(** [get_updates] succeeds with a batch that assigns no variable twice:
    each variable it writes receives its right-hand side evaluated in the
    store of before the step, and the order of the batch does not matter. *)
Definition emits_distinct_targets {F}
  (run : M (instance F * backend) (list update_op)) (s : instance F * backend)
  : Prop :=
  exists ups s',
    run s = (inr ups, s') /\
    NoDup (map target ups) /\
    (forall u h, In u ups -> value (run_updates ups h) (target u) = new_value u h) /\
    (forall ups' h x, Permutation ups ups' ->
       value (run_updates ups' h) x = value (run_updates ups h) x).

(** The parameters are existing variables, pairwise distinct, and none of
    them is one of the handles [xs] of the optimizer. *)
Definition parameters_ok (params xs : list var) (hb : backend) : Prop :=
  NoDup params /\ Forall (fun p => (p < next_var hb)%nat) params /\
  forall p, In p params -> ~ In p xs.

(** A tensor of shape [s] that has as many elements as [s] says. *)
Definition like (s : list nat) (t : tensor) : Prop :=
  shape t = s /\ List.length (data t) = fold_right Nat.mul 1%nat s.

(** The two updates SGD emits for one parameter, in this order. *)
Definition sgd_updates (a : SGD.attrs_t) (cs : constraints_t) (lr : texpr)
  (x : var * texpr * var) : list update_op :=
  let '(p, g, m) := x in
  let v := (!(SGD.momentum a) * !m - lr * g)%E in
  [Update m v;
   Update p (apply_constraint cs p
               (if SGD.nesterov a
                then (!p + !(SGD.momentum a) * v - lr * g)%E
                else (!p + v)%E))].

(** [get_updates] of SGD succeeds, and a step of its batch in a store
    where the momentum is 0 moves every unconstrained parameter against its
    gradient by the rate the step records in [current_lr]. *)
Definition plain_descent (params : list var) (cs : constraints_t)
  (loss : K.loss_t) (self : SGD.t) (hb : backend) : Prop :=
  let a := attrs self in
  exists ups s',
    SGD.get_updates params cs loss (self, hb) = (inr ups, s') /\
    forall h i p g r s,
      nth_error params i = Some p ->
      nth_error (Optimizer.get_gradients (base self) loss params) i = Some g ->
      lookup_constraint p cs = None ->
      value h (SGD.momentum a) = scalar 0 ->
      value (run_updates ups h) (SGD.current_lr a) = scalar r ->
      like s (value h p) -> like s (g h) -> like s (value h (next_var hb + i)%nat) ->
      value (run_updates ups h) p = (value h p - scalar r * g h)%T.

(** Every element of the tensor is non-negative. *)
Definition nonneg (t : tensor) : Prop := Forall (fun x => 0 <= x) (data t).

(** The variable [x] holds a scalar between 0 and 1. *)
Definition unit_scalar (h : backend) (x : var) : Prop :=
  exists r, value h x = scalar r /\ 0 <= r <= 1.

(** [get_updates] succeeds, and a step of its batch in a store that
    satisfies [ok] keeps the [n] accumulators [acc 0 .. acc (n-1)]
    non-negative. *)
Definition keeps_nonneg {F} (run : M (instance F * backend) (list update_op))
  (s : instance F * backend) (acc : nat -> var) (n : nat) (ok : backend -> Prop)
  : Prop :=
  exists ups s',
    run s = (inr ups, s') /\
    forall h i, (i < n)%nat -> ok h ->
      nonneg (value h (acc i)) -> nonneg (value (run_updates ups h) (acc i)).

(** [get_updates] succeeds, and a step of its batch leaves the [n]
    accumulators [acc 0 .. acc (n-1)] non-negative, whatever they held. *)
Definition makes_nonneg {F} (run : M (instance F * backend) (list update_op))
  (s : instance F * backend) (acc : nat -> var) (n : nat) : Prop :=
  exists ups s',
    run s = (inr ups, s') /\
    forall h i, (i < n)%nat -> nonneg (value (run_updates ups h) (acc i)).

(** * Verification *)

(** ** Keyword checking at construction time *)

Lemma mem_app k l l' : mem k (l ++ l') = mem k l || mem k l'.
Proof. unfold mem. apply existsb_app. Qed.

Lemma check_kwargs_rejects kwargs :
  (exists k, In k (keys kwargs) /\ mem k Optimizer.allowed_kwargs = false) ->
  exists k, In k (keys kwargs) /\ mem k Optimizer.allowed_kwargs = false /\
            Optimizer.check_kwargs kwargs = inl (TypeError k).
Proof.
  induction kwargs as [|[k v] r IH]; intros [k0 [Hin Hk0]].
  - destruct Hin.
  - cbn [Optimizer.check_kwargs].
    destruct (mem k Optimizer.allowed_kwargs) eqn:Hk.
    + destruct Hin as [E|Hin]; [cbn in E; subst; congruence|].
      destruct IH as [k' [H1 [H2 H3]]]; [now exists k0|].
      exists k'. repeat split; auto. now right.
    + exists k. repeat split; auto. now left.
Qed.

Lemma check_kwargs_accepts kwargs :
  (forall k, In k (keys kwargs) -> mem k Optimizer.allowed_kwargs = true) ->
  Optimizer.check_kwargs kwargs = inr tt.
Proof.
  induction kwargs as [|[k v] r IH]; intros H; [reflexivity|].
  cbn [Optimizer.check_kwargs]. rewrite (H k) by now left.
  apply IH. intros k' Hk'. apply H. now right.
Qed.

Lemma keys_rest_kwargs names config k :
  In k (keys (rest_kwargs names config)) <->
  In k (keys config) /\ mem k names = false.
Proof.
  unfold keys, rest_kwargs. rewrite !in_map_iff. split.
  - intros [[k' v] [E H]]. cbn in E. subst k'.
    apply filter_In in H. destruct H as [H1 H2]. cbn in H2.
    split; [exists (k, v); auto|]. now apply negb_true_iff.
  - intros [[[k' v] [E H]] Hm]. cbn in E. subst k'.
    exists (k, v). split; auto. apply filter_In. split; auto.
    cbn. now rewrite Hm.
Qed.

(** The base constructor raises before anything is allocated, and every
    subclass constructor starts with it. *)
Lemma base_init_rejects {A} names config (k : Optimizer.t -> M backend A) h :
  (exists key, In key (keys config) /\ mem key (recognized names) = false) ->
  exists key, In key (keys config) /\ mem key (recognized names) = false /\
    bind (Optimizer.init (rest_kwargs names config)) k h = (inl (TypeError key), h).
Proof.
  intros [k0 [Hin Hk0]]. unfold recognized in *. rewrite mem_app in Hk0.
  apply orb_false_iff in Hk0. destruct Hk0 as [Hn Ha].
  destruct (check_kwargs_rejects (rest_kwargs names config)) as [k' [H1 [H2 H3]]].
  { exists k0. split; auto. apply keys_rest_kwargs. auto. }
  apply keys_rest_kwargs in H1. destruct H1 as [H1 H1'].
  exists k'. split; auto. split.
  - rewrite mem_app, H1', H2. reflexivity.
  - unfold bind, Optimizer.init, lift_exn, bind. rewrite H3. reflexivity.
Qed.

(** ** Running the monadic code *)

Lemma with_state_with_state {F} us ws us' ws' (o : instance F) :
  with_state us' ws' (with_state us ws o) = with_state us' ws' o.
Proof. reflexivity. Qed.

Lemma set_updates_run {F} us (o : instance F) h :
  set_updates us (o, h) = (inr tt, (with_state us (Optimizer.weights (base o)) o, h)).
Proof. reflexivity. Qed.

Lemma set_weights_attr_run {F} ws (o : instance F) h :
  set_weights_attr ws (o, h) = (inr tt, (with_state (Optimizer.updates (base o)) ws o, h)).
Proof. reflexivity. Qed.

Lemma append_run {F} u (o : instance F) h :
  append u (o, h) =
  (inr tt, (with_state (Optimizer.updates (base o) ++ [u]) (Optimizer.weights (base o)) o, h)).
Proof. reflexivity. Qed.

Lemma for_each_appends {F A} (body : A -> M (instance F * backend) unit)
  (f : A -> list update_op) (l : list A) :
  (forall a o h, body a (o, h) =
     (inr tt, (with_state (Optimizer.updates (base o) ++ f a)
                 (Optimizer.weights (base o)) o, h))) ->
  forall o h, for_each l body (o, h) =
     (inr tt, (with_state (Optimizer.updates (base o) ++ flat_map f l)
                 (Optimizer.weights (base o)) o, h)).
Proof.
  intros Hbody. induction l as [|a r IH]; intros o h.
  - cbn. rewrite app_nil_r. destruct o as [[cn cv us ws] at_]. reflexivity.
  - cbn [for_each flat_map]. unfold bind at 1. rewrite Hbody, IH.
    cbn. rewrite <- app_assoc. reflexivity.
Qed.

Lemma variable_shapes_run {O} params (o : O) h :
  variable_shapes params (o, h) = (inr (map (fun p => shape (value h p)) params), (o, h)).
Proof.
  unfold variable_shapes, on_backend. cbn [snd fst].
  assert (E : map_M K.get_variable_shape params h
              = (inr (map (fun p => shape (value h p)) params), h)).
  { induction params as [|p r IH]; [reflexivity|].
    cbn [map_M map]. unfold bind at 1. cbn. unfold bind at 1. rewrite IH. reflexivity. }
  rewrite E. reflexivity.
Qed.

Lemma map_M_zeros shapes h :
  map_M K.zeros shapes h =
  (inr (seq (next_var h) (length shapes)), alloc (map K.zeros_tensor shapes) h).
Proof.
  revert h. induction shapes as [|s r IH]; intros h; [reflexivity|].
  cbn [map_M map alloc length seq]. unfold bind at 1. cbn. unfold bind at 1.
  unfold K.zeros in IH. rewrite IH. reflexivity.
Qed.

Lemma zeros_list_run {O} shapes (o : O) h :
  zeros_list shapes (o, h) =
  (inr (seq (next_var h) (length shapes)), (o, alloc (map K.zeros_tensor shapes) h)).
Proof. unfold zeros_list, on_backend. cbn [snd fst]. rewrite map_M_zeros. reflexivity. Qed.

Lemma next_var_alloc ts h : next_var (alloc ts h) = (next_var h + length ts)%nat.
Proof.
  revert h. induction ts as [|t r IH]; intros h; cbn [alloc length]; [lia|].
  rewrite IH. cbn. lia.
Qed.

Lemma value_alloc_old ts h x :
  (x < next_var h)%nat -> value (alloc ts h) x = value h x.
Proof.
  revert h. induction ts as [|t r IH]; intros h Hx; [reflexivity|].
  cbn [alloc]. rewrite IH by (cbn; lia). cbn.
  destruct (Nat.eqb_spec x (next_var h)); [lia|reflexivity].
Qed.

Lemma value_alloc_new ts h i t :
  nth_error ts i = Some t -> value (alloc ts h) (next_var h + i)%nat = t.
Proof.
  revert h i. induction ts as [|t0 r IH]; intros h i Hi; [destruct i; discriminate|].
  cbn [alloc]. destruct i as [|i].
  - cbn in Hi. injection Hi as ->. rewrite value_alloc_old by (cbn; lia).
    cbn. rewrite Nat.add_0_r, Nat.eqb_refl. reflexivity.
  - cbn in Hi. specialize (IH (snd (K.variable t0 h)) i Hi).
    cbn [K.variable snd next_var] in IH.
    replace (next_var h + S i)%nat with (S (next_var h) + i)%nat by lia. exact IH.
Qed.

(** ** The rate computation *)

Lemma rate_and_counter_ok {F} lr decay it d clr cur e (o : instance F) h :
  rate_expr lr decay it d clr = inr e ->
  rate_and_counter lr decay it d clr cur (o, h) =
  (inr e, (with_state (Optimizer.updates (base o) ++ counter_ops d clr it ++ [Update cur e])
             (Optimizer.weights (base o)) o, h)).
Proof.
  unfold rate_expr, rate_of, rate_and_counter, counter_ops. intros H.
  destruct (Rgtb d 0); destruct clr as [c|]; try (injection H as <-).
  all: destruct (Reqb d 0); unfold bind, lift_exn; cbn; rewrite ?H; cbn;
    rewrite <- ?app_assoc; reflexivity.
Qed.

Lemma rate_and_counter_err {F} lr decay it d clr cur ex (s : instance F * backend) :
  rate_expr lr decay it d clr = inl ex ->
  fst (rate_and_counter lr decay it d clr cur s) = inl ex.
Proof.
  unfold rate_expr, rate_of, rate_and_counter. intros H.
  destruct (Rgtb d 0); destruct clr as [c|]; try discriminate.
  all: cbn; unfold bind, lift_exn; cbn; rewrite H; reflexivity.
Qed.

Lemma rate_only_ok {F} lr decay it d clr cur e (o : instance F) h :
  rate_expr lr decay it d clr = inr e ->
  rate_only lr decay it d clr cur (o, h) =
  (inr e, (with_state (Optimizer.updates (base o) ++ [Update cur e])
             (Optimizer.weights (base o)) o, h)).
Proof.
  unfold rate_expr, rate_of, rate_only. intros H.
  destruct clr as [c|]; [|injection H as <-];
    unfold bind, lift_exn; cbn; rewrite ?H; reflexivity.
Qed.

Lemma rate_only_err {F} lr decay it d clr cur ex (s : instance F * backend) :
  rate_expr lr decay it d clr = inl ex ->
  fst (rate_only lr decay it d clr cur s) = inl ex.
Proof.
  unfold rate_expr, rate_of, rate_only. intros H.
  destruct clr as [c|]; try discriminate.
  unfold bind, lift_exn. rewrite H. reflexivity.
Qed.

(** ** The update lists of the seven classes *)

Lemma in_zip3 {A B C} (l1 : list A) (l2 : list B) (l3 : list C) a b c :
  In (a, b, c) (zip3 l1 l2 l3) -> In a l1 /\ In b l2 /\ In c l3.
Proof.
  unfold zip3. intros H. pose proof (in_combine_r _ _ _ _ H).
  apply in_combine_l in H. pose proof (in_combine_r _ _ _ _ H).
  apply in_combine_l in H. auto.
Qed.

Lemma in_zip4 {A B C D} (l1 : list A) (l2 : list B) (l3 : list C) (l4 : list D) a b c d :
  In (a, b, c, d) (zip4 l1 l2 l3 l4) -> In a l1 /\ In b l2 /\ In c l3 /\ In d l4.
Proof.
  unfold zip4. intros H. pose proof (in_combine_r _ _ _ _ H).
  apply in_combine_l in H. apply (in_zip3 l1 l2 l3) in H. tauto.
Qed.

Ltac mrun H :=
  repeat (unfold bind at 1;
          first [ rewrite set_updates_run
                | erewrite (rate_and_counter_ok _ _ _ _ _ _ _ _ _ H)
                | erewrite (rate_only_ok _ _ _ _ _ _ _ _ _ H)
                | rewrite variable_shapes_run
                | rewrite zeros_list_run
                | rewrite set_weights_attr_run
                | rewrite append_run
                | progress (cbn [self_ fst snd]; cbv zeta) ];
          cbv beta iota).

Ltac finish_run :=
  cbv beta iota;
  cbn [get_updates_attr gets fst snd base with_state Optimizer.updates
       Optimizer.weights app];
  rewrite ?length_map, ?next_var_alloc, ?length_map; unfold zeros_of;
  rewrite ?map_map, <- ?app_assoc; cbn [app]; reflexivity.

Ltac body_run :=
  unfold bind; rewrite !append_run; cbv beta iota; rewrite ?append_run;
  cbn [base with_state Optimizer.updates Optimizer.weights];
  rewrite <- ?app_assoc; cbn [app].

Ltac seq_bound :=
  match goal with
  | H : In _ (seq _ _) |- _ => apply in_seq in H; lia
  end.

Lemma SGD_get_updates_ok params cs loss (self : SGD.t) hb e :
  let a := attrs self in
  rate_expr (SGD.lr a) (SGD.decay a) (SGD.iterations a) (SGD.initial_decay a)
    (SGD.clr a) = inr e ->
  exists body,
    let ups := counter_ops (SGD.initial_decay a) (SGD.clr a) (SGD.iterations a)
               ++ [Update (SGD.current_lr a) e] ++ body in
    SGD.get_updates params cs loss (self, hb) =
    (inr ups,
     (with_state ups (SGD.iterations a :: seq (next_var hb) (List.length params)) self,
      alloc (zeros_of params hb) hb)) /\
    writes_within params hb body.
Proof.
  intros a H. subst a. unfold SGD.get_updates.
  eexists. split.
  - mrun H. unfold bind at 1. erewrite for_each_appends.
    2:{ intros [[p g] m] o h. body_run.
        instantiate (1 := fun pgm => let '(p, g, m) := pgm in [_; _]).
        cbv beta iota. reflexivity. }
    finish_run.
  - intros u Hu. apply in_flat_map in Hu. destruct Hu as [[[p g] m] [Hz Hu]].
    apply in_zip3 in Hz. destruct Hz as (Hp & _ & Hm).
    cbn in Hu. destruct Hu as [<-|[<-|[]]]; cbn [target K.update]; auto.
    right. seq_bound.
Qed.

Lemma SGD_get_updates_err params cs loss (s : SGD.t * backend) ex :
  let a := attrs (fst s) in
  rate_expr (SGD.lr a) (SGD.decay a) (SGD.iterations a) (SGD.initial_decay a)
    (SGD.clr a) = inl ex ->
  fst (SGD.get_updates params cs loss s) = inl ex.
Proof.
  destruct s as [self hb]. intros a H. subst a. cbn [fst] in H.
  unfold SGD.get_updates. mrun H. unfold bind at 1.
  match goal with |- context [rate_and_counter ?a ?b ?c ?d ?e ?f ?s] =>
    pose proof (rate_and_counter_err a b c d e f _ s H) as Hr;
    destruct (rate_and_counter a b c d e f s) as [r s'] end.
  cbn in Hr. subst r. reflexivity.
Qed.

Ltac rate_err_run H :=
  mrun H; unfold bind at 1;
  match goal with
  | |- context [rate_and_counter ?a ?b ?c ?d ?e ?f ?s] =>
      let Hr := fresh "Hr" in let r := fresh "r" in let s' := fresh "s'" in
      pose proof (rate_and_counter_err a b c d e f _ s H) as Hr;
      destruct (rate_and_counter a b c d e f s) as [r s'];
      cbn in Hr; subst r; reflexivity
  | |- context [rate_only ?a ?b ?c ?d ?e ?f ?s] =>
      let Hr := fresh "Hr" in let r := fresh "r" in let s' := fresh "s'" in
      pose proof (rate_only_err a b c d e f _ s H) as Hr;
      destruct (rate_only a b c d e f s) as [r s'];
      cbn in Hr; subst r; reflexivity
  end.

Lemma RMSprop_get_updates_ok params cs loss (self : RMSprop.t) hb e :
  let a := attrs self in
  rate_expr (RMSprop.lr a) (RMSprop.decay a) (RMSprop.iterations a)
    (RMSprop.initial_decay a) (RMSprop.clr a) = inr e ->
  exists body,
    let ups := counter_ops (RMSprop.initial_decay a) (RMSprop.clr a) (RMSprop.iterations a)
               ++ [Update (RMSprop.current_lr a) e] ++ body in
    RMSprop.get_updates params cs loss (self, hb) =
    (inr ups,
     (with_state ups (seq (next_var hb) (List.length params)) self,
      alloc (zeros_of params hb) hb)) /\
    writes_within params hb body.
Proof.
  intros a H. subst a. unfold RMSprop.get_updates.
  eexists. split.
  - mrun H. unfold bind at 1. erewrite for_each_appends.
    2:{ intros [[p g] m] o h. body_run.
        instantiate (1 := fun pgm => let '(p, g, m) := pgm in [_; _]).
        cbv beta iota. reflexivity. }
    finish_run.
  - intros u Hu. apply in_flat_map in Hu. destruct Hu as [[[p g] m] [Hz Hu]].
    apply in_zip3 in Hz. destruct Hz as (Hp & _ & Hm).
    cbn in Hu. destruct Hu as [<-|[<-|[]]]; cbn [target K.update]; auto.
    right. seq_bound.
Qed.

Lemma RMSprop_get_updates_err params cs loss (s : RMSprop.t * backend) ex :
  let a := attrs (fst s) in
  rate_expr (RMSprop.lr a) (RMSprop.decay a) (RMSprop.iterations a)
    (RMSprop.initial_decay a) (RMSprop.clr a) = inl ex ->
  fst (RMSprop.get_updates params cs loss s) = inl ex.
Proof.
  destruct s as [self hb]. intros a H. subst a. cbn [fst] in H.
  unfold RMSprop.get_updates. rate_err_run H.
Qed.

Lemma Adagrad_get_updates_ok params cs loss (self : Adagrad.t) hb e :
  let a := attrs self in
  rate_expr (Adagrad.lr a) (Adagrad.decay a) (Adagrad.iterations a)
    (Adagrad.initial_decay a) (Adagrad.clr a) = inr e ->
  exists body,
    let ups := counter_ops (Adagrad.initial_decay a) (Adagrad.clr a) (Adagrad.iterations a)
               ++ [Update (Adagrad.current_lr a) e] ++ body in
    Adagrad.get_updates params cs loss (self, hb) =
    (inr ups,
     (with_state ups (seq (next_var hb) (List.length params)) self,
      alloc (zeros_of params hb) hb)) /\
    writes_within params hb body.
Proof.
  intros a H. subst a. unfold Adagrad.get_updates.
  eexists. split.
  - mrun H. unfold bind at 1. erewrite for_each_appends.
    2:{ intros [[p g] m] o h. body_run.
        instantiate (1 := fun pgm => let '(p, g, m) := pgm in [_; _]).
        cbv beta iota. reflexivity. }
    finish_run.
  - intros u Hu. apply in_flat_map in Hu. destruct Hu as [[[p g] m] [Hz Hu]].
    apply in_zip3 in Hz. destruct Hz as (Hp & _ & Hm).
    cbn in Hu. destruct Hu as [<-|[<-|[]]]; cbn [target K.update]; auto.
    right. seq_bound.
Qed.

Lemma Adagrad_get_updates_err params cs loss (s : Adagrad.t * backend) ex :
  let a := attrs (fst s) in
  rate_expr (Adagrad.lr a) (Adagrad.decay a) (Adagrad.iterations a)
    (Adagrad.initial_decay a) (Adagrad.clr a) = inl ex ->
  fst (Adagrad.get_updates params cs loss s) = inl ex.
Proof.
  destruct s as [self hb]. intros a H. subst a. cbn [fst] in H.
  unfold Adagrad.get_updates. rate_err_run H.
Qed.

Lemma Adadelta_get_updates_ok params cs loss (self : Adadelta.t) hb e :
  let a := attrs self in
  rate_expr (Adadelta.lr a) (Adadelta.decay a) (Adadelta.iterations a)
    (Adadelta.initial_decay a) (Adadelta.clr a) = inr e ->
  let n := List.length params in
  let body := flat_map (adadelta_updates a cs e)
                (zip4 params (Optimizer.get_gradients (base self) loss params)
                   (seq (next_var hb) n) (seq (next_var hb + n) n)) in
  let ups := counter_ops (Adadelta.initial_decay a) (Adadelta.clr a) (Adadelta.iterations a)
             ++ [Update (Adadelta.current_lr a) e] ++ body in
  Adadelta.get_updates params cs loss (self, hb) =
    (inr ups,
     (with_state ups (seq (next_var hb) n ++ seq (next_var hb + n) n) self,
      alloc (zeros_of params hb) (alloc (zeros_of params hb) hb))) /\
  writes_within params hb body.
Proof.
  intros a H n body ups. subst a n body ups. unfold Adadelta.get_updates.
  split.
  - mrun H. unfold bind at 1.
    erewrite (for_each_appends _ (adadelta_updates (attrs self) cs e)).
    2:{ intros [[[p g] m] d] o h. body_run. reflexivity. }
    finish_run.
  - intros u Hu. apply in_flat_map in Hu. destruct Hu as [[[[p g] m] d] [Hz Hu]].
    apply in_zip4 in Hz. destruct Hz as (Hp & _ & Hm & Hd).
    cbn in Hu. destruct Hu as [<-|[<-|[<-|[]]]]; cbn [target K.update]; auto.
    all: right; seq_bound.
Qed.

Lemma Adadelta_get_updates_err params cs loss (s : Adadelta.t * backend) ex :
  let a := attrs (fst s) in
  rate_expr (Adadelta.lr a) (Adadelta.decay a) (Adadelta.iterations a)
    (Adadelta.initial_decay a) (Adadelta.clr a) = inl ex ->
  fst (Adadelta.get_updates params cs loss s) = inl ex.
Proof.
  destruct s as [self hb]. intros a H. subst a. cbn [fst] in H.
  unfold Adadelta.get_updates. rate_err_run H.
Qed.

Lemma Adam_get_updates_ok params cs loss (self : Adam.t) hb e :
  let a := attrs self in
  rate_expr (Adam.lr a) (Adam.decay a) (Adam.iterations a)
    (Adam.initial_decay a) (Adam.clr a) = inr e ->
  let n := List.length params in
  exists body,
    let ups := [UpdateAdd (Adam.iterations a) 1; Update (Adam.current_lr a) e] ++ body in
    Adam.get_updates params cs loss (self, hb) =
    (inr ups,
     (with_state ups
        (Adam.iterations a :: seq (next_var hb) n ++ seq (next_var hb + n) n) self,
      alloc (zeros_of params hb) (alloc (zeros_of params hb) hb))) /\
    writes_within params hb body.
Proof.
  intros a H n. subst a n. unfold Adam.get_updates.
  eexists. split.
  - mrun H. unfold bind at 1. erewrite for_each_appends.
    2:{ intros [[[p g] m] v] o h. body_run.
        instantiate (1 := fun x => let '(p, g, m, v) := x in [_; _; _]).
        cbv beta iota. reflexivity. }
    finish_run.
  - intros u Hu. apply in_flat_map in Hu. destruct Hu as [[[[p g] m] d] [Hz Hu]].
    apply in_zip4 in Hz. destruct Hz as (Hp & _ & Hm & Hd).
    cbn in Hu. destruct Hu as [<-|[<-|[<-|[]]]]; cbn [target K.update]; auto.
    all: right; seq_bound.
Qed.

Lemma Adam_get_updates_err params cs loss (s : Adam.t * backend) ex :
  let a := attrs (fst s) in
  rate_expr (Adam.lr a) (Adam.decay a) (Adam.iterations a)
    (Adam.initial_decay a) (Adam.clr a) = inl ex ->
  fst (Adam.get_updates params cs loss s) = inl ex.
Proof.
  destruct s as [self hb]. intros a H. subst a. cbn [fst] in H.
  unfold Adam.get_updates. rate_err_run H.
Qed.

Lemma Adamax_get_updates_ok params cs loss (self : Adamax.t) hb e :
  let a := attrs self in
  rate_expr (Adamax.lr a) (Adamax.decay a) (Adamax.iterations a)
    (Adamax.initial_decay a) (Adamax.clr a) = inr e ->
  let n := List.length params in
  exists body,
    let ups := [UpdateAdd (Adamax.iterations a) 1; Update (Adamax.current_lr a) e] ++ body in
    Adamax.get_updates params cs loss (self, hb) =
    (inr ups,
     (with_state ups
        (Adamax.iterations a :: seq (next_var hb) n ++ seq (next_var hb + n) n) self,
      alloc (zeros_of params hb) (alloc (zeros_of params hb) hb))) /\
    writes_within params hb body.
Proof.
  intros a H n. subst a n. unfold Adamax.get_updates.
  eexists. split.
  - mrun H. unfold bind at 1. erewrite for_each_appends.
    2:{ intros [[[p g] m] v] o h. body_run.
        instantiate (1 := fun x => let '(p, g, m, v) := x in [_; _; _]).
        cbv beta iota. reflexivity. }
    finish_run.
  - intros u Hu. apply in_flat_map in Hu. destruct Hu as [[[[p g] m] d] [Hz Hu]].
    apply in_zip4 in Hz. destruct Hz as (Hp & _ & Hm & Hd).
    cbn in Hu. destruct Hu as [<-|[<-|[<-|[]]]]; cbn [target K.update]; auto.
    all: right; seq_bound.
Qed.

Lemma Adamax_get_updates_err params cs loss (s : Adamax.t * backend) ex :
  let a := attrs (fst s) in
  rate_expr (Adamax.lr a) (Adamax.decay a) (Adamax.iterations a)
    (Adamax.initial_decay a) (Adamax.clr a) = inl ex ->
  fst (Adamax.get_updates params cs loss s) = inl ex.
Proof.
  destruct s as [self hb]. intros a H. subst a. cbn [fst] in H.
  unfold Adamax.get_updates. rate_err_run H.
Qed.

Lemma Nadam_get_updates_ok params cs loss (self : Nadam.t) hb e :
  let a := attrs self in
  nadam_rate a = inr e ->
  let n := List.length params in
  exists m_schedule_new body,
    let ups := [UpdateAdd (Nadam.iterations a) 1; Update (Nadam.current_lr a) e;
                Update (Nadam.m_schedule a) m_schedule_new] ++ body in
    Nadam.get_updates params cs loss (self, hb) =
    (inr ups,
     (with_state ups
        (Nadam.iterations a :: seq (next_var hb) n ++ seq (next_var hb + n) n) self,
      alloc (zeros_of params hb) (alloc (zeros_of params hb) hb))) /\
    writes_within params hb body.
Proof.
  intros a H n. subst a n. unfold nadam_rate, rate_of in H. unfold Nadam.get_updates.
  do 2 eexists. split.
  - mrun H. unfold bind at 1.
    assert (E : forall s : Nadam.t * backend,
              match Nadam.clr (attrs self) with
              | Some c => lift_exn (clr_block c (Nadam.iterations (attrs self))
                                      (read (Nadam.lr (attrs self))))
              | None => ret (read (Nadam.lr (attrs self)))
              end s = (inr e, s)).
    { intros s. destruct (Nadam.clr (attrs self)); [unfold lift_exn; rewrite H|injection H as <-];
        reflexivity. }
    rewrite E. cbv beta iota. mrun H. unfold bind at 1. erewrite for_each_appends.
    2:{ intros [[[p g] m] v] o h. body_run.
        instantiate (1 := fun x => let '(p, g, m, v) := x in [_; _; _]).
        cbv beta iota. reflexivity. }
    finish_run.
  - intros u Hu. apply in_flat_map in Hu. destruct Hu as [[[[p g] m] d] [Hz Hu]].
    apply in_zip4 in Hz. destruct Hz as (Hp & _ & Hm & Hd).
    cbn in Hu. destruct Hu as [<-|[<-|[<-|[]]]]; cbn [target K.update]; auto.
    all: right; seq_bound.
Qed.

Lemma Nadam_get_updates_err params cs loss (s : Nadam.t * backend) ex :
  nadam_rate (attrs (fst s)) = inl ex ->
  fst (Nadam.get_updates params cs loss s) = inl ex.
Proof.
  destruct s as [self hb]. unfold nadam_rate, rate_of. cbn [fst]. intros H.
  unfold Nadam.get_updates. mrun H. unfold bind at 1.
  destruct (Nadam.clr (attrs self)); [|discriminate].
  unfold lift_exn. rewrite H. reflexivity.
Qed.

(** ** Comparisons *)

Lemma Rgtb_true x y : x > y -> Rgtb x y = true.
Proof. intros H. unfold Rgtb. destruct (Rgt_dec x y); [reflexivity|contradiction]. Qed.

Lemma Rgtb_false x y : ~ x > y -> Rgtb x y = false.
Proof. intros H. unfold Rgtb. destruct (Rgt_dec x y); [contradiction|reflexivity]. Qed.

Lemma Rgtb_spec x y : reflect (x > y) (Rgtb x y).
Proof. unfold Rgtb. destruct (Rgt_dec x y); constructor; assumption. Qed.

Lemma Rgeb_spec x y : reflect (x >= y) (Rgeb x y).
Proof. unfold Rgeb. destruct (Rge_dec x y); constructor; assumption. Qed.

Lemma Reqb_spec x y : reflect (x = y) (Reqb x y).
Proof. unfold Reqb. destruct (Req_dec_T x y); constructor; assumption. Qed.

(** ** Running a batch of updates *)

Lemma fold_write_untouched env ups acc x :
  (forall u, In u ups -> target u <> x) ->
  value (fold_left (fun acc u => write acc (target u) (new_value u env)) ups acc) x
  = value acc x.
Proof.
  revert acc. induction ups as [|u r IH]; intros acc H; [reflexivity|].
  cbn [fold_left]. rewrite IH by (intros v Hv; apply H; now right).
  cbn. destruct (Nat.eqb_spec x (target u)) as [E|]; [|reflexivity].
  exfalso. apply (H u); [now left|auto].
Qed.

Lemma run_updates_untouched ups h x :
  (forall u, In u ups -> target u <> x) ->
  value (run_updates ups h) x = value h x.
Proof. apply fold_write_untouched. Qed.

Lemma run_updates_last pre u post h :
  (forall v, In v post -> target v <> target u) ->
  value (run_updates (pre ++ u :: post) h) (target u) = new_value u h.
Proof.
  intros H. unfold run_updates. rewrite fold_left_app. cbn [fold_left].
  rewrite fold_write_untouched by assumption.
  cbn. rewrite Nat.eqb_refl. reflexivity.
Qed.

Lemma run_updates_skip pre post h x :
  (forall v, In v post -> target v <> x) ->
  value (run_updates (pre ++ post) h) x = value (run_updates pre h) x.
Proof.
  intros H. unfold run_updates. rewrite fold_left_app.
  now rewrite fold_write_untouched.
Qed.

Lemma writes_within_avoid params hb body x :
  writes_within params hb body -> ~ In x params -> (x < next_var hb)%nat ->
  forall u, In u body -> target u <> x.
Proof.
  intros Hw Hp Hx u Hu E. destruct (Hw u Hu) as [H|H]; [congruence|lia].
Qed.

(** ** Objects built by the constructors *)

Ltac constructed :=
  intros H;
  unfold SGD.init, RMSprop.init, Adagrad.init, Adadelta.init, Adam.init,
    Adamax.init, Nadam.init, bind, Optimizer.init, lift_exn in H;
  match type of H with
  | context [Optimizer.check_kwargs ?k] => destruct (Optimizer.check_kwargs k)
  end; [discriminate|];
  cbn in H; injection H as <- <-;
  split; [repeat constructor; cbn; intuition lia | repeat constructor; cbn; lia].

Lemma SGD_init_allocated lr0 momentum0 decay0 nesterov0 clr0 kwargs h self h' :
  SGD.init lr0 momentum0 decay0 nesterov0 clr0 kwargs h = (inr self, h') ->
  allocated (SGD_handles (attrs self)) h'.
Proof. constructed. Qed.

Lemma RMSprop_init_allocated lr0 rho0 epsilon0 decay0 clr0 kwargs h self h' :
  RMSprop.init lr0 rho0 epsilon0 decay0 clr0 kwargs h = (inr self, h') ->
  allocated (RMSprop_handles (attrs self)) h'.
Proof. constructed. Qed.

Lemma Adagrad_init_allocated lr0 epsilon0 decay0 clr0 kwargs h self h' :
  Adagrad.init lr0 epsilon0 decay0 clr0 kwargs h = (inr self, h') ->
  allocated (Adagrad_handles (attrs self)) h'.
Proof. constructed. Qed.

Lemma Adadelta_init_allocated lr0 rho0 epsilon0 decay0 clr0 kwargs h self h' :
  Adadelta.init lr0 rho0 epsilon0 decay0 clr0 kwargs h = (inr self, h') ->
  allocated (Adadelta_handles (attrs self)) h'.
Proof. constructed. Qed.

Lemma Adam_init_allocated lr0 b1 b2 epsilon0 decay0 clr0 kwargs h self h' :
  Adam.init lr0 b1 b2 epsilon0 decay0 clr0 kwargs h = (inr self, h') ->
  allocated (Adam_handles (attrs self)) h'.
Proof. constructed. Qed.

Lemma Adamax_init_allocated lr0 b1 b2 epsilon0 decay0 clr0 kwargs h self h' :
  Adamax.init lr0 b1 b2 epsilon0 decay0 clr0 kwargs h = (inr self, h') ->
  allocated (Adamax_handles (attrs self)) h'.
Proof. constructed. Qed.

Lemma Nadam_init_allocated lr0 b1 b2 epsilon0 sd0 clr0 kwargs h self h' :
  Nadam.init lr0 b1 b2 epsilon0 sd0 clr0 kwargs h = (inr self, h') ->
  allocated (Nadam_handles (attrs self)) h'.
Proof. constructed. Qed.

(** The handles stay allocated when the store grows. *)
Lemma allocated_mono xs h h' :
  (next_var h <= next_var h')%nat -> allocated xs h -> allocated xs h'.
Proof.
  intros Hle [Hnd Hlt]. split; [exact Hnd|].
  eapply Forall_impl; [|exact Hlt]. cbn. intros x Hx. lia.
Qed.

(** The weight lists [get_updates] builds have no repetition. *)
Lemma counter_and_fresh_distinct x n k :
  (x < n)%nat -> NoDup (x :: seq n k ++ seq (n + k) k).
Proof.
  intros Hx. constructor.
  - intros Hin. apply in_app_or in Hin. destruct Hin as [Hin|Hin]; apply in_seq in Hin; lia.
  - rewrite <- seq_app. apply seq_NoDup.
Qed.

(** ** The step counter *)

Lemma counter_ops_effect d clr it cur e body params hb :
  it <> cur -> (it < next_var hb)%nat -> ~ In it params ->
  writes_within params hb body ->
  counter_effect (advances d clr) it (counter_ops d clr it ++ [Update cur e] ++ body).
Proof.
  intros Hc Hit Hp Hw h.
  rewrite run_updates_skip.
  2:{ intros v [<-|Hv]; [cbn; auto|]. eapply writes_within_avoid; eauto. }
  unfold counter_ops, advances.
  destruct (Rgtb_spec d 0) as [Hd|Hd].
  - assert (E : Reqb d 0 = false) by (destruct (Reqb_spec d 0); [lra|reflexivity]).
    rewrite E. cbn [orb]. destruct clr; cbn [app];
      apply (run_updates_last [] (UpdateAdd it 1) []); intros v [].
  - cbn [orb app]. destruct clr as [c|]; [|reflexivity].
    destruct (Reqb d 0); [|reflexivity].
    apply (run_updates_last [] (UpdateAdd it 1) []); intros v [].
Qed.

Lemma leading_increment_effect it hdr body params hb :
  (forall u, In u hdr -> target u <> it) ->
  (it < next_var hb)%nat -> ~ In it params ->
  writes_within params hb body ->
  counter_effect true it ([UpdateAdd it 1] ++ hdr ++ body).
Proof.
  intros Hh Hit Hp Hw h.
  apply (run_updates_last [] (UpdateAdd it 1) (hdr ++ body)).
  intros v Hv. apply in_app_or in Hv. destruct Hv as [Hv|Hv]; [auto|].
  eapply writes_within_avoid; eauto.
Qed.

Lemma clr_block_complete c it lr :
  clr_complete (Some c) = true -> exists e, clr_block c it lr = inr e.
Proof.
  unfold clr_complete, clr_block. destruct c as [[mode|] [ss|] [ml|] [g|]]; cbn;
    try discriminate;
    destruct (String.eqb mode "triangular"); cbn; try discriminate; eauto;
    destruct (String.eqb mode "triangular2"); cbn; try discriminate; eauto;
    destruct (String.eqb mode "exp_range"); cbn; try discriminate; eauto.
Qed.

Lemma clr_block_error c it lr ex :
  clr_block c it lr = inl ex -> exists key, ex = KeyError key.
Proof.
  unfold clr_block. destruct c as [[mode|] [ss|] [ml|] [g|]]; cbn;
    try (intros [= <-]; eauto);
    destruct (String.eqb mode "triangular"); cbn; try discriminate;
    try (intros [= <-]; eauto);
    destruct (String.eqb mode "triangular2"); cbn; try discriminate;
    try (intros [= <-]; eauto);
    destruct (String.eqb mode "exp_range"); cbn; try discriminate;
    try (intros [= <-]; eauto).
Qed.

Lemma rate_expr_complete lr decay it d clr :
  clr_complete clr = true -> exists e, rate_expr lr decay it d clr = inr e.
Proof.
  unfold rate_expr, rate_of. destruct clr as [c|]; [apply clr_block_complete|eauto].
Qed.

Lemma rate_expr_error lr decay it d clr ex :
  rate_expr lr decay it d clr = inl ex -> exists key, ex = KeyError key.
Proof.
  unfold rate_expr, rate_of. destruct clr as [c|]; [apply clr_block_error|discriminate].
Qed.

Lemma nadam_rate_complete a :
  clr_complete (Nadam.clr a) = true -> exists e, nadam_rate a = inr e.
Proof.
  unfold nadam_rate, rate_of. destruct (Nadam.clr a) as [c|]; [apply clr_block_complete|eauto].
Qed.

Lemma nadam_rate_error a ex :
  nadam_rate a = inl ex -> exists key, ex = KeyError key.
Proof.
  unfold nadam_rate, rate_of. destruct (Nadam.clr a) as [c|]; [apply clr_block_error|discriminate].
Qed.

(** Facts about the handles of an object, read off [allocated]. *)
Ltac handles H :=
  let Hnd := fresh "Hnd" in
  let Hlt := fresh "Hlt" in
  destruct H as [Hnd Hlt];
  unfold SGD_handles, RMSprop_handles, Adagrad_handles, Adadelta_handles,
    Adam_handles, Adamax_handles, Nadam_handles in Hnd, Hlt;
  repeat match goal with
         | H : NoDup (_ :: _) |- _ => inversion H; clear H; subst
         | H : Forall _ (_ :: _) |- _ => inversion H; clear H; subst
         end;
  cbn [In] in *.

Lemma SGD_counter params cs loss (self : SGD.t) hb :
  let a := attrs self in
  allocated (SGD_handles a) hb -> ~ In (SGD.iterations a) params ->
  clr_complete (SGD.clr a) = true ->
  exists ups s', SGD.get_updates params cs loss (self, hb) = (inr ups, s') /\
    counter_effect (advances (SGD.initial_decay a) (SGD.clr a)) (SGD.iterations a) ups.
Proof.
  intros a Ha Hp Hc. unfold a in *.
  destruct (rate_expr_complete (SGD.lr a) (SGD.decay a) (SGD.iterations a)
              (SGD.initial_decay a) _ Hc) as [e He].
  destruct (SGD_get_updates_ok params cs loss self hb e He) as [body [Hrun Hw]].
  do 2 eexists. split; [exact Hrun|].
  handles Ha. apply counter_ops_effect with (params := params) (hb := hb); auto;
    intuition congruence.
Qed.

Lemma RMSprop_counter params cs loss (self : RMSprop.t) hb :
  let a := attrs self in
  allocated (RMSprop_handles a) hb -> ~ In (RMSprop.iterations a) params ->
  clr_complete (RMSprop.clr a) = true ->
  exists ups s', RMSprop.get_updates params cs loss (self, hb) = (inr ups, s') /\
    counter_effect (advances (RMSprop.initial_decay a) (RMSprop.clr a))
      (RMSprop.iterations a) ups.
Proof.
  intros a Ha Hp Hc. unfold a in *.
  destruct (rate_expr_complete (RMSprop.lr a) (RMSprop.decay a) (RMSprop.iterations a)
              (RMSprop.initial_decay a) _ Hc) as [e He].
  destruct (RMSprop_get_updates_ok params cs loss self hb e He) as [body [Hrun Hw]].
  do 2 eexists. split; [exact Hrun|].
  handles Ha. apply counter_ops_effect with (params := params) (hb := hb); auto;
    intuition congruence.
Qed.

Lemma Adagrad_counter params cs loss (self : Adagrad.t) hb :
  let a := attrs self in
  allocated (Adagrad_handles a) hb -> ~ In (Adagrad.iterations a) params ->
  clr_complete (Adagrad.clr a) = true ->
  exists ups s', Adagrad.get_updates params cs loss (self, hb) = (inr ups, s') /\
    counter_effect (advances (Adagrad.initial_decay a) (Adagrad.clr a))
      (Adagrad.iterations a) ups.
Proof.
  intros a Ha Hp Hc. unfold a in *.
  destruct (rate_expr_complete (Adagrad.lr a) (Adagrad.decay a) (Adagrad.iterations a)
              (Adagrad.initial_decay a) _ Hc) as [e He].
  destruct (Adagrad_get_updates_ok params cs loss self hb e He) as [body [Hrun Hw]].
  do 2 eexists. split; [exact Hrun|].
  handles Ha. apply counter_ops_effect with (params := params) (hb := hb); auto;
    intuition congruence.
Qed.

Lemma Adadelta_counter params cs loss (self : Adadelta.t) hb :
  let a := attrs self in
  allocated (Adadelta_handles a) hb -> ~ In (Adadelta.iterations a) params ->
  clr_complete (Adadelta.clr a) = true ->
  exists ups s', Adadelta.get_updates params cs loss (self, hb) = (inr ups, s') /\
    counter_effect (advances (Adadelta.initial_decay a) (Adadelta.clr a))
      (Adadelta.iterations a) ups.
Proof.
  intros a Ha Hp Hc. unfold a in *.
  destruct (rate_expr_complete (Adadelta.lr a) (Adadelta.decay a) (Adadelta.iterations a)
              (Adadelta.initial_decay a) _ Hc) as [e He].
  destruct (Adadelta_get_updates_ok params cs loss self hb e He) as [Hrun Hw].
  do 2 eexists. split; [exact Hrun|].
  handles Ha. apply counter_ops_effect with (params := params) (hb := hb); auto;
    intuition congruence.
Qed.

Lemma Adam_counter params cs loss (self : Adam.t) hb :
  let a := attrs self in
  allocated (Adam_handles a) hb -> ~ In (Adam.iterations a) params ->
  clr_complete (Adam.clr a) = true ->
  exists ups s', Adam.get_updates params cs loss (self, hb) = (inr ups, s') /\
    counter_effect true (Adam.iterations a) ups.
Proof.
  intros a Ha Hp Hc. unfold a in *.
  destruct (rate_expr_complete (Adam.lr a) (Adam.decay a) (Adam.iterations a)
              (Adam.initial_decay a) _ Hc) as [e He].
  destruct (Adam_get_updates_ok params cs loss self hb e He) as [body [Hrun Hw]].
  do 2 eexists. split; [exact Hrun|].
  handles Ha.
  apply (leading_increment_effect _ [Update (Adam.current_lr a) e] body params hb); auto.
  intros u [<-|[]]. cbn. intuition congruence.
Qed.

Lemma Adamax_counter params cs loss (self : Adamax.t) hb :
  let a := attrs self in
  allocated (Adamax_handles a) hb -> ~ In (Adamax.iterations a) params ->
  clr_complete (Adamax.clr a) = true ->
  exists ups s', Adamax.get_updates params cs loss (self, hb) = (inr ups, s') /\
    counter_effect true (Adamax.iterations a) ups.
Proof.
  intros a Ha Hp Hc. unfold a in *.
  destruct (rate_expr_complete (Adamax.lr a) (Adamax.decay a) (Adamax.iterations a)
              (Adamax.initial_decay a) _ Hc) as [e He].
  destruct (Adamax_get_updates_ok params cs loss self hb e He) as [body [Hrun Hw]].
  do 2 eexists. split; [exact Hrun|].
  handles Ha.
  apply (leading_increment_effect _ [Update (Adamax.current_lr a) e] body params hb); auto.
  intros u [<-|[]]. cbn. intuition congruence.
Qed.

Lemma Nadam_counter params cs loss (self : Nadam.t) hb :
  let a := attrs self in
  allocated (Nadam_handles a) hb -> ~ In (Nadam.iterations a) params ->
  clr_complete (Nadam.clr a) = true ->
  exists ups s', Nadam.get_updates params cs loss (self, hb) = (inr ups, s') /\
    counter_effect true (Nadam.iterations a) ups.
Proof.
  intros a Ha Hp Hc. unfold a in *.
  destruct (nadam_rate_complete a Hc) as [e He].
  destruct (Nadam_get_updates_ok params cs loss self hb e He) as [ms [body [Hrun Hw]]].
  do 2 eexists. split; [exact Hrun|].
  handles Ha.
  apply (leading_increment_effect _
           [Update (Nadam.current_lr a) e; Update (Nadam.m_schedule a) ms] body params hb);
    auto.
  intros u [<-|[<-|[]]]; cbn; intuition congruence.
Qed.

Example sgd_default_constructed :
  SGD.init 0.01 0 0 false None [] store0 = (inr sgd_default, store_sgd_default).
Proof. reflexivity. Qed.

Example sgd_decaying_constructed :
  SGD.init 0.01 0 0.5 false None [] store0 = (inr sgd_decaying, store_sgd_decaying).
Proof. reflexivity. Qed.

Example rmsprop_default_constructed :
  RMSprop.init 0.001 0.9 1e-8 0 None [] store0
  = (inr rmsprop_default, store_rmsprop_default).
Proof. reflexivity. Qed.

Ltac allocated_example :=
  split; [repeat constructor; cbn; intuition (try discriminate; try lia)
         | repeat constructor; cbn; lia].

(** C1 (as amended): one call of [get_updates] emits updates whose net
    effect on [iterations] is an increase of exactly 1 for Adam, Adamax and
    Nadam in every configuration, and for SGD, RMSprop, Adagrad and Adadelta
    exactly when [initial_decay > 0], or a [clr] is configured and
    [initial_decay = 0]; otherwise these four leave the counter unchanged. *)
Theorem step_counter_net_effect (params : list var) (cs : constraints_t)
  (loss : K.loss_t) (hb : backend) :
  (forall self : SGD.t, let a := attrs self in
     allocated (SGD_handles a) hb -> ~ In (SGD.iterations a) params ->
     clr_complete (SGD.clr a) = true ->
     exists ups s', SGD.get_updates params cs loss (self, hb) = (inr ups, s') /\
       counter_effect (advances (SGD.initial_decay a) (SGD.clr a))
         (SGD.iterations a) ups) /\
  (forall self : RMSprop.t, let a := attrs self in
     allocated (RMSprop_handles a) hb -> ~ In (RMSprop.iterations a) params ->
     clr_complete (RMSprop.clr a) = true ->
     exists ups s', RMSprop.get_updates params cs loss (self, hb) = (inr ups, s') /\
       counter_effect (advances (RMSprop.initial_decay a) (RMSprop.clr a))
         (RMSprop.iterations a) ups) /\
  (forall self : Adagrad.t, let a := attrs self in
     allocated (Adagrad_handles a) hb -> ~ In (Adagrad.iterations a) params ->
     clr_complete (Adagrad.clr a) = true ->
     exists ups s', Adagrad.get_updates params cs loss (self, hb) = (inr ups, s') /\
       counter_effect (advances (Adagrad.initial_decay a) (Adagrad.clr a))
         (Adagrad.iterations a) ups) /\
  (forall self : Adadelta.t, let a := attrs self in
     allocated (Adadelta_handles a) hb -> ~ In (Adadelta.iterations a) params ->
     clr_complete (Adadelta.clr a) = true ->
     exists ups s', Adadelta.get_updates params cs loss (self, hb) = (inr ups, s') /\
       counter_effect (advances (Adadelta.initial_decay a) (Adadelta.clr a))
         (Adadelta.iterations a) ups) /\
  (forall self : Adam.t, let a := attrs self in
     allocated (Adam_handles a) hb -> ~ In (Adam.iterations a) params ->
     clr_complete (Adam.clr a) = true ->
     exists ups s', Adam.get_updates params cs loss (self, hb) = (inr ups, s') /\
       counter_effect true (Adam.iterations a) ups) /\
  (forall self : Adamax.t, let a := attrs self in
     allocated (Adamax_handles a) hb -> ~ In (Adamax.iterations a) params ->
     clr_complete (Adamax.clr a) = true ->
     exists ups s', Adamax.get_updates params cs loss (self, hb) = (inr ups, s') /\
       counter_effect true (Adamax.iterations a) ups) /\
  (forall self : Nadam.t, let a := attrs self in
     allocated (Nadam_handles a) hb -> ~ In (Nadam.iterations a) params ->
     clr_complete (Nadam.clr a) = true ->
     exists ups s', Nadam.get_updates params cs loss (self, hb) = (inr ups, s') /\
       counter_effect true (Nadam.iterations a) ups).
Proof.
  repeat split; intros self a.
  - apply SGD_counter.
  - apply RMSprop_counter.
  - apply Adagrad_counter.
  - apply Adadelta_counter.
  - apply Adam_counter.
  - apply Adamax_counter.
  - apply Nadam_counter.
Qed.

Lemma step_counter_net_effect_witness :
  exists ups s',
    SGD.get_updates [0%nat] [] (fun _ => const 0.5) (sgd_decaying, store_sgd_decaying)
    = (inr ups, s') /\
    forall h, value (run_updates ups h) 1%nat = (value h 1%nat + scalar 1)%T.
Proof.
  destruct (proj1 (step_counter_net_effect [0%nat] [] (fun _ => const 0.5)
                     store_sgd_decaying) sgd_decaying)
    as [ups [s' [Hrun Heff]]].
  - allocated_example.
  - cbn. intuition discriminate.
  - reflexivity.
  - exists ups, s'. split; [exact Hrun|].
    intros h. pose proof (Heff h) as E.
    cbn [attrs sgd_decaying SGD.initial_decay SGD.clr SGD.iterations] in E.
    unfold advances in E. rewrite Rgtb_true in E by lra. exact E.
Defined.

(** C1 as stated fails: SGD constructed with its defaults ([decay = 0], no
    [clr]) emits no increment, and a step leaves the counter at 0. *)
Lemma sgd_default_counter_not_advanced :
  exists ups s',
    SGD.get_updates [0%nat] [] (fun _ => const 0.5) (sgd_default, store_sgd_default)
    = (inr ups, s') /\
    value (run_updates ups store_sgd_default) 1%nat = scalar 0 /\
    value (run_updates ups store_sgd_default) 1%nat
    <> (value store_sgd_default 1%nat + scalar 1)%T.
Proof.
  destruct (SGD_counter [0%nat] [] (fun _ => const 0.5) sgd_default store_sgd_default)
    as [ups [s' [Hrun Heff]]].
  - allocated_example.
  - cbn. intuition discriminate.
  - reflexivity.
  - exists ups, s'. split; [exact Hrun|].
    pose proof (Heff store_sgd_default) as E.
    cbn [attrs sgd_default SGD.initial_decay SGD.clr SGD.iterations] in E.
    unfold advances in E. rewrite Rgtb_false in E by lra. cbn [orb] in E.
    rewrite E. cbn. split; [reflexivity|].
    unfold scalar. intros [= E']. lra.
Qed.

(** ** The weight list *)

Lemma not_in_fresh x hb k n : (x < next_var hb)%nat -> ~ In x (seq (next_var hb + k) n).
Proof. intros Hx Hin. apply in_seq in Hin. lia. Qed.

(** C3 (as amended): after [get_updates] the list [self.weights], which
    [get_weights] reads, is the step counter followed by the accumulators
    for SGD (moments), Adam (ms then vs), Adamax (ms then us) and Nadam (ms
    then vs); for RMSprop and Adagrad it is the accumulators alone, for
    Adadelta the accumulators then the delta accumulators, and the step
    counter is not in the list of these three. *)
Theorem weights_after_get_updates (params : list var) (cs : constraints_t)
  (loss : K.loss_t) (hb : backend) :
  let n := List.length params in
  let first := seq (next_var hb) n in
  let second := seq (next_var hb + n) n in
  (forall self : SGD.t, clr_complete (SGD.clr (attrs self)) = true ->
     sets_weights (SGD.get_updates params cs loss) (self, hb)
       (SGD.iterations (attrs self) :: first)) /\
  (forall self : RMSprop.t, clr_complete (RMSprop.clr (attrs self)) = true ->
     allocated (RMSprop_handles (attrs self)) hb ->
     sets_weights (RMSprop.get_updates params cs loss) (self, hb) first /\
     ~ In (RMSprop.iterations (attrs self)) first) /\
  (forall self : Adagrad.t, clr_complete (Adagrad.clr (attrs self)) = true ->
     allocated (Adagrad_handles (attrs self)) hb ->
     sets_weights (Adagrad.get_updates params cs loss) (self, hb) first /\
     ~ In (Adagrad.iterations (attrs self)) first) /\
  (forall self : Adadelta.t, clr_complete (Adadelta.clr (attrs self)) = true ->
     allocated (Adadelta_handles (attrs self)) hb ->
     sets_weights (Adadelta.get_updates params cs loss) (self, hb) (first ++ second) /\
     ~ In (Adadelta.iterations (attrs self)) (first ++ second)) /\
  (forall self : Adam.t, clr_complete (Adam.clr (attrs self)) = true ->
     sets_weights (Adam.get_updates params cs loss) (self, hb)
       (Adam.iterations (attrs self) :: first ++ second)) /\
  (forall self : Adamax.t, clr_complete (Adamax.clr (attrs self)) = true ->
     sets_weights (Adamax.get_updates params cs loss) (self, hb)
       (Adamax.iterations (attrs self) :: first ++ second)) /\
  (forall self : Nadam.t, clr_complete (Nadam.clr (attrs self)) = true ->
     sets_weights (Nadam.get_updates params cs loss) (self, hb)
       (Nadam.iterations (attrs self) :: first ++ second)).
Proof.
  intros n first second. unfold sets_weights. repeat split.
  - intros self Hc.
    destruct (rate_expr_complete (SGD.lr (attrs self)) (SGD.decay (attrs self))
                (SGD.iterations (attrs self)) (SGD.initial_decay (attrs self)) _ Hc)
      as [e He].
    destruct (SGD_get_updates_ok params cs loss self hb e He) as [body [Hrun _]].
    do 3 eexists. split; [exact Hrun|split; reflexivity].
  - destruct (rate_expr_complete (RMSprop.lr (attrs self)) (RMSprop.decay (attrs self))
                (RMSprop.iterations (attrs self)) (RMSprop.initial_decay (attrs self)) _ H)
      as [e He].
    destruct (RMSprop_get_updates_ok params cs loss self hb e He) as [body [Hrun _]].
    do 3 eexists. split; [exact Hrun|split; reflexivity].
  - handles H0. subst first. rewrite <- (Nat.add_0_r (next_var hb)).
    now apply not_in_fresh.
  - destruct (rate_expr_complete (Adagrad.lr (attrs self)) (Adagrad.decay (attrs self))
                (Adagrad.iterations (attrs self)) (Adagrad.initial_decay (attrs self)) _ H)
      as [e He].
    destruct (Adagrad_get_updates_ok params cs loss self hb e He) as [body [Hrun _]].
    do 3 eexists. split; [exact Hrun|split; reflexivity].
  - handles H0. subst first. rewrite <- (Nat.add_0_r (next_var hb)).
    now apply not_in_fresh.
  - destruct (rate_expr_complete (Adadelta.lr (attrs self)) (Adadelta.decay (attrs self))
                (Adadelta.iterations (attrs self)) (Adadelta.initial_decay (attrs self)) _ H)
      as [e He].
    destruct (Adadelta_get_updates_ok params cs loss self hb e He) as [Hrun _].
    do 3 eexists. split; [exact Hrun|split; reflexivity].
  - handles H0. subst first second. intros Hin. apply in_app_or in Hin.
    destruct Hin as [Hin|Hin]; apply in_seq in Hin; lia.
  - intros self Hc.
    destruct (rate_expr_complete (Adam.lr (attrs self)) (Adam.decay (attrs self))
                (Adam.iterations (attrs self)) (Adam.initial_decay (attrs self)) _ Hc)
      as [e He].
    destruct (Adam_get_updates_ok params cs loss self hb e He) as [body [Hrun _]].
    do 3 eexists. split; [exact Hrun|split; reflexivity].
  - intros self Hc.
    destruct (rate_expr_complete (Adamax.lr (attrs self)) (Adamax.decay (attrs self))
                (Adamax.iterations (attrs self)) (Adamax.initial_decay (attrs self)) _ Hc)
      as [e He].
    destruct (Adamax_get_updates_ok params cs loss self hb e He) as [body [Hrun _]].
    do 3 eexists. split; [exact Hrun|split; reflexivity].
  - intros self Hc.
    destruct (nadam_rate_complete _ Hc) as [e He].
    destruct (Nadam_get_updates_ok params cs loss self hb e He) as [ms [body [Hrun _]]].
    do 3 eexists. split; [exact Hrun|split; reflexivity].
Qed.

Lemma weights_after_get_updates_witness :
  sets_weights (SGD.get_updates [0%nat] [] (fun _ => const 0.5))
    (sgd_default, store_sgd_default) [1%nat; 6%nat].
Proof.
  apply (proj1 (weights_after_get_updates [0%nat] [] (fun _ => const 0.5)
                  store_sgd_default) sgd_default).
  reflexivity.
Defined.

(** C3 as stated fails: after [get_updates] on an RMSprop object
    constructed with its defaults the weight list is the one accumulator,
    and its first element is not the step counter. *)
Lemma rmsprop_weights_without_counter :
  exists ups self' h',
    RMSprop.get_updates [0%nat] [] (fun _ => const 0.5)
      (rmsprop_default, store_rmsprop_default) = (inr ups, (self', h')) /\
    Optimizer.weights (base self') = [6%nat] /\
    hd_error (Optimizer.weights (base self'))
    <> Some (RMSprop.iterations (attrs rmsprop_default)).
Proof.
  destruct (RMSprop_get_updates_ok [0%nat] [] (fun _ => const 0.5)
              rmsprop_default store_rmsprop_default
              (read (RMSprop.lr (attrs rmsprop_default)))) as [body [Hrun _]].
  - unfold rate_expr. cbn [attrs rmsprop_default RMSprop.initial_decay RMSprop.clr].
    rewrite Rgtb_false by lra. reflexivity.
  - do 3 eexists. split; [exact Hrun|]. cbn. split; [reflexivity|discriminate].
Qed.

(** ** Unrecognized keywords *)

Lemma no_type_error_of_key {A} (r : exn + A) :
  (forall ex, r = inl ex -> exists key, ex = KeyError key) ->
  forall key, r <> inl (TypeError key).
Proof. intros H key E. destruct (H _ E) as [k Hk]. discriminate. Qed.

(** C8: for each of the seven classes, a keyword call with a keyword
    outside the class's named parameters and [clipnorm], [clipvalue] raises
    [TypeError] in the constructor with the backend store untouched (no
    variable has been created), and [get_updates] never raises it. *)
Theorem unrecognized_keyword_rejected_at_construction :
  (rejects_unknown SGD.named_params SGD.from_config /\
   rejects_unknown RMSprop.named_params RMSprop.from_config /\
   rejects_unknown Adagrad.named_params Adagrad.from_config /\
   rejects_unknown Adadelta.named_params Adadelta.from_config /\
   rejects_unknown Adam.named_params Adam.from_config /\
   rejects_unknown Adamax.named_params Adamax.from_config /\
   rejects_unknown Nadam.named_params Nadam.from_config) /\
  (forall params cs loss,
     never_type_error (SGD.get_updates params cs loss) /\
     never_type_error (RMSprop.get_updates params cs loss) /\
     never_type_error (Adagrad.get_updates params cs loss) /\
     never_type_error (Adadelta.get_updates params cs loss) /\
     never_type_error (Adam.get_updates params cs loss) /\
     never_type_error (Adamax.get_updates params cs loss) /\
     never_type_error (Nadam.get_updates params cs loss)).
Proof.
  split.
  - repeat split; intros config h Hbad.
    + apply (base_init_rejects SGD.named_params config _ h Hbad).
    + apply (base_init_rejects RMSprop.named_params config _ h Hbad).
    + apply (base_init_rejects Adagrad.named_params config _ h Hbad).
    + apply (base_init_rejects Adadelta.named_params config _ h Hbad).
    + apply (base_init_rejects Adam.named_params config _ h Hbad).
    + apply (base_init_rejects Adamax.named_params config _ h Hbad).
    + apply (base_init_rejects Nadam.named_params config _ h Hbad).
  - intros params cs loss. repeat split; intros [self hb] key.
    + destruct (rate_expr (SGD.lr (attrs self)) (SGD.decay (attrs self))
                  (SGD.iterations (attrs self)) (SGD.initial_decay (attrs self))
                  (SGD.clr (attrs self))) as [ex|e] eqn:E.
      * rewrite (SGD_get_updates_err params cs loss (self, hb) ex E).
        destruct (rate_expr_error _ _ _ _ _ _ E) as [k ->]. discriminate.
      * destruct (SGD_get_updates_ok params cs loss self hb e E) as [body [-> _]].
        discriminate.
    + destruct (rate_expr (RMSprop.lr (attrs self)) (RMSprop.decay (attrs self))
                  (RMSprop.iterations (attrs self)) (RMSprop.initial_decay (attrs self))
                  (RMSprop.clr (attrs self))) as [ex|e] eqn:E.
      * rewrite (RMSprop_get_updates_err params cs loss (self, hb) ex E).
        destruct (rate_expr_error _ _ _ _ _ _ E) as [k ->]. discriminate.
      * destruct (RMSprop_get_updates_ok params cs loss self hb e E) as [body [-> _]].
        discriminate.
    + destruct (rate_expr (Adagrad.lr (attrs self)) (Adagrad.decay (attrs self))
                  (Adagrad.iterations (attrs self)) (Adagrad.initial_decay (attrs self))
                  (Adagrad.clr (attrs self))) as [ex|e] eqn:E.
      * rewrite (Adagrad_get_updates_err params cs loss (self, hb) ex E).
        destruct (rate_expr_error _ _ _ _ _ _ E) as [k ->]. discriminate.
      * destruct (Adagrad_get_updates_ok params cs loss self hb e E) as [body [-> _]].
        discriminate.
    + destruct (rate_expr (Adadelta.lr (attrs self)) (Adadelta.decay (attrs self))
                  (Adadelta.iterations (attrs self)) (Adadelta.initial_decay (attrs self))
                  (Adadelta.clr (attrs self))) as [ex|e] eqn:E.
      * rewrite (Adadelta_get_updates_err params cs loss (self, hb) ex E).
        destruct (rate_expr_error _ _ _ _ _ _ E) as [k ->]. discriminate.
      * destruct (Adadelta_get_updates_ok params cs loss self hb e E) as [-> _].
        discriminate.
    + destruct (rate_expr (Adam.lr (attrs self)) (Adam.decay (attrs self))
                  (Adam.iterations (attrs self)) (Adam.initial_decay (attrs self))
                  (Adam.clr (attrs self))) as [ex|e] eqn:E.
      * rewrite (Adam_get_updates_err params cs loss (self, hb) ex E).
        destruct (rate_expr_error _ _ _ _ _ _ E) as [k ->]. discriminate.
      * destruct (Adam_get_updates_ok params cs loss self hb e E) as [body [-> _]].
        discriminate.
    + destruct (rate_expr (Adamax.lr (attrs self)) (Adamax.decay (attrs self))
                  (Adamax.iterations (attrs self)) (Adamax.initial_decay (attrs self))
                  (Adamax.clr (attrs self))) as [ex|e] eqn:E.
      * rewrite (Adamax_get_updates_err params cs loss (self, hb) ex E).
        destruct (rate_expr_error _ _ _ _ _ _ E) as [k ->]. discriminate.
      * destruct (Adamax_get_updates_ok params cs loss self hb e E) as [body [-> _]].
        discriminate.
    + destruct (nadam_rate (attrs self)) as [ex|e] eqn:E.
      * rewrite (Nadam_get_updates_err params cs loss (self, hb) ex E).
        destruct (nadam_rate_error _ _ E) as [k ->]. discriminate.
      * destruct (Nadam_get_updates_ok params cs loss self hb e E) as [ms [body [-> _]]].
        discriminate.
Qed.

Lemma unrecognized_keyword_rejected_witness :
  exists key,
    SGD.from_config [("lr", PyFloat 0.1); ("learning_rate", PyFloat 0.1)]%string store0
    = (inl (TypeError key), store0).
Proof.
  destruct (proj1 (proj1 unrecognized_keyword_rejected_at_construction)
              [("lr", PyFloat 0.1); ("learning_rate", PyFloat 0.1)]%string store0)
    as [key [_ [_ H]]].
  - exists "learning_rate"%string. split; [cbn; auto|reflexivity].
  - exists key. exact H.
Defined.

(** ** Exporting and importing the configuration *)

Lemma check_exported base_config (tl : dict) v :
  (forall k, In k (keys base_config) -> mem k Optimizer.allowed_kwargs = true) ->
  Optimizer.check_kwargs (base_config ++ ("iterations"%string, v) :: tl)
  = inl (TypeError "iterations").
Proof.
  induction base_config as [|[k w] r IH]; intros H; [reflexivity|].
  cbn [app Optimizer.check_kwargs]. rewrite (H k) by now left.
  apply IH. intros k' Hk'. apply H. now right.
Qed.

Lemma base_config_allowed (b : Optimizer.t) k :
  In k (keys (Optimizer.get_config b)) -> mem k Optimizer.allowed_kwargs = true.
Proof.
  unfold Optimizer.get_config.
  destruct (Optimizer.clipnorm b), (Optimizer.clipvalue b); cbn;
    intuition (subst; reflexivity).
Qed.

Lemma base_config_kept names (b : Optimizer.t) :
  mem "clipnorm" names = false -> mem "clipvalue" names = false ->
  rest_kwargs names (Optimizer.get_config b) = Optimizer.get_config b.
Proof.
  intros H1 H2. unfold Optimizer.get_config, rest_kwargs.
  destruct (Optimizer.clipnorm b), (Optimizer.clipvalue b); cbn;
    rewrite ?H1, ?H2; reflexivity.
Qed.

Lemma rest_kwargs_app names d d' :
  rest_kwargs names (d ++ d') = rest_kwargs names d ++ rest_kwargs names d'.
Proof. apply filter_app. Qed.

Ltac reimport_fails get_config from_config init :=
  intros self h; unfold reimport, get_config; unfold bind; cbn [K.get_value gets ret];
  unfold from_config, init; unfold bind at 1; unfold Optimizer.init at 1;
  unfold bind at 1; unfold lift_exn at 1;
  rewrite rest_kwargs_app, base_config_kept by reflexivity;
  cbn;
  rewrite check_exported by apply base_config_allowed;
  reflexivity.

(** C2 fails on the code: for each of the seven classes and every object
    and store, [from_config(get_config())] raises [TypeError] on the
    exported key [iterations] and constructs nothing. *)
Theorem from_config_rejects_exported_config :
  (forall (self : SGD.t) h,
     reimport SGD.get_config SGD.from_config self h = (inl (TypeError "iterations"), h)) /\
  (forall (self : RMSprop.t) h,
     reimport RMSprop.get_config RMSprop.from_config self h
     = (inl (TypeError "iterations"), h)) /\
  (forall (self : Adagrad.t) h,
     reimport Adagrad.get_config Adagrad.from_config self h
     = (inl (TypeError "iterations"), h)) /\
  (forall (self : Adadelta.t) h,
     reimport Adadelta.get_config Adadelta.from_config self h
     = (inl (TypeError "iterations"), h)) /\
  (forall (self : Adam.t) h,
     reimport Adam.get_config Adam.from_config self h
     = (inl (TypeError "iterations"), h)) /\
  (forall (self : Adamax.t) h,
     reimport Adamax.get_config Adamax.from_config self h
     = (inl (TypeError "iterations"), h)) /\
  (forall (self : Nadam.t) h,
     reimport Nadam.get_config Nadam.from_config self h
     = (inl (TypeError "iterations"), h)).
Proof.
  repeat split.
  - reimport_fails SGD.get_config SGD.from_config SGD.init.
  - reimport_fails RMSprop.get_config RMSprop.from_config RMSprop.init.
  - reimport_fails Adagrad.get_config Adagrad.from_config Adagrad.init.
  - reimport_fails Adadelta.get_config Adadelta.from_config Adadelta.init.
  - reimport_fails Adam.get_config Adam.from_config Adam.init.
  - reimport_fails Adamax.get_config Adamax.from_config Adamax.init.
  - reimport_fails Nadam.get_config Nadam.from_config Nadam.init.
Qed.

(** ** set_weights *)

Lemma shape_eqb_spec s s' : reflect (s = s') (shape_eqb s s').
Proof. unfold shape_eqb. destruct (list_eq_dec Nat.eq_dec s s'); constructor; assumption. Qed.

Lemma zipped_weights (f : var -> tensor) params (ws : list tensor) :
  combine (combine (map f params) params) ws
  = map (fun pw => (f (fst pw), fst pw, snd pw)) (combine params ws).
Proof.
  revert ws. induction params as [|p r IH]; intros [|w ws]; cbn; try reflexivity.
  now rewrite IH.
Qed.

Lemma nth_error_combine {A B} (l : list A) (l' : list B) i a b :
  nth_error (combine l l') i = Some (a, b) <->
  nth_error l i = Some a /\ nth_error l' i = Some b.
Proof.
  revert l' i. induction l as [|x r IH]; intros [|y r'] [|i]; cbn;
    try (split; [discriminate|intros [? ?]; discriminate]).
  - split; [intros [= -> ->]; auto|intros [[= ->] [= ->]]; auto].
  - apply IH.
Qed.

Lemma check_shapes_ok (f : var -> tensor) l acc :
  (forall p w, In (p, w) l -> shape (f p) = shape w) ->
  Optimizer.check_shapes (map (fun pw => (f (fst pw), fst pw, snd pw)) l) acc
  = inr (acc ++ l).
Proof.
  revert acc. induction l as [|[p w] r IH]; intros acc H; cbn.
  - now rewrite app_nil_r.
  - destruct (shape_eqb_spec (shape (f p)) (shape w)) as [_|N].
    + rewrite IH by (intros; apply H; now right). now rewrite <- app_assoc.
    + exfalso. apply N, H. now left.
Qed.

Lemma check_shapes_bad (f : var -> tensor) l acc :
  (exists p w, In (p, w) l /\ shape (f p) <> shape w) ->
  exists p w, In (p, w) l /\ shape (f p) <> shape w /\
    Optimizer.check_shapes (map (fun pw => (f (fst pw), fst pw, snd pw)) l) acc
    = inl (ValueError (shape (f p)) (shape w)).
Proof.
  revert acc. induction l as [|[p w] r IH]; intros acc [p0 [w0 [Hin Hne]]].
  - destruct Hin.
  - cbn. destruct (shape_eqb_spec (shape (f p)) (shape w)) as [E|N].
    + destruct Hin as [Hin|Hin]; [injection Hin as <- <-; contradiction|].
      destruct (IH (acc ++ [(p, w)])) as [p1 [w1 [H1 [H2 H3]]]];
        [exists p0, w0; auto|].
      exists p1, w1. repeat split; auto.
    + exists p, w. repeat split; auto.
Qed.

Lemma fold_write_tuples_untouched (l : list (var * tensor)) h x :
  ~ In x (map fst l) ->
  value (fold_left (fun acc xw => write acc (fst xw) (snd xw)) l h) x = value h x.
Proof.
  revert h. induction l as [|[p w] r IH]; intros h H; [reflexivity|].
  cbn [fold_left]. rewrite IH by (intros Hin; apply H; now right).
  cbn. destruct (Nat.eqb_spec x p) as [->|]; [|reflexivity].
  exfalso. apply H. now left.
Qed.

Lemma fold_write_tuples_assigned (l : list (var * tensor)) h p w :
  NoDup (map fst l) -> In (p, w) l ->
  value (fold_left (fun acc xw => write acc (fst xw) (snd xw)) l h) p = w.
Proof.
  revert h. induction l as [|[q v] r IH]; intros h Hnd Hin; [destruct Hin|].
  cbn [map fst] in Hnd. inversion Hnd as [|? ? Hq Hr]; subst.
  cbn [fold_left]. destruct Hin as [[= -> ->]|Hin].
  - rewrite fold_write_tuples_untouched by assumption.
    cbn. now rewrite Nat.eqb_refl.
  - now apply IH.
Qed.

Lemma next_var_fold_write (l : list (var * tensor)) h :
  next_var (fold_left (fun acc xw => write acc (fst xw) (snd xw)) l h) = next_var h.
Proof. revert h. induction l as [|[q v] r IH]; intros h; [reflexivity|]. cbn. now rewrite IH. Qed.

Lemma map_fst_combine {A B} (l : list A) (l' : list B) :
  map fst (combine l l') = firstn (List.length l') l.
Proof.
  revert l'. induction l as [|a r IH]; intros [|b r']; cbn; try reflexivity.
  now rewrite IH.
Qed.

Lemma set_weights_run (self : Optimizer.t) ws h :
  Optimizer.set_weights self ws h =
  match Optimizer.check_shapes
          (map (fun pw => (value h (fst pw), fst pw, snd pw))
               (combine (Optimizer.weights self) ws)) [] with
  | inl e => (inl e, h)
  | inr tuples =>
      (inr tt, fold_left (fun acc xw => write acc (fst xw) (snd xw)) tuples h)
  end.
Proof.
  unfold Optimizer.set_weights, bind, K.batch_get_value, gets, lift_exn,
    K.batch_set_value, modify.
  rewrite zipped_weights. destruct (Optimizer.check_shapes _ _); reflexivity.
Qed.

Lemma set_weights_rejects (self : Optimizer.t) ws h :
  shape_mismatch h (Optimizer.weights self) ws ->
  exists p w, In p (Optimizer.weights self) /\ In w ws /\
    shape (value h p) <> shape w /\
    Optimizer.set_weights self ws h
    = (inl (ValueError (shape (value h p)) (shape w)), h).
Proof.
  intros [i [p [w [Hp [Hw Hne]]]]]. rewrite set_weights_run.
  destruct (check_shapes_bad (value h) (combine (Optimizer.weights self) ws) [])
    as [p1 [w1 [H1 [H2 H3]]]].
  { exists p, w. split; auto. apply (nth_error_In _ i). now apply nth_error_combine. }
  exists p1, w1. rewrite H3.
  pose proof (in_combine_l _ _ _ _ H1). pose proof (in_combine_r _ _ _ _ H1). auto.
Qed.

Lemma set_weights_assigns (self : Optimizer.t) ws h :
  shapes_agree h (Optimizer.weights self) ws ->
  exists h',
    Optimizer.set_weights self ws h = (inr tt, h') /\
    next_var h' = next_var h /\
    (forall x, ~ In x (firstn (List.length ws) (Optimizer.weights self)) ->
               value h' x = value h x) /\
    (NoDup (Optimizer.weights self) ->
     forall i p w, nth_error (Optimizer.weights self) i = Some p ->
                   nth_error ws i = Some w -> value h' p = w).
Proof.
  intros Hs. rewrite set_weights_run. rewrite check_shapes_ok.
  2:{ intros p w Hin. apply In_nth_error in Hin. destruct Hin as [i Hi].
      apply nth_error_combine in Hi. destruct Hi. eapply Hs; eauto. }
  cbn [app]. eexists. split; [reflexivity|]. split; [apply next_var_fold_write|]. split.
  - intros x Hx. apply fold_write_tuples_untouched. now rewrite map_fst_combine.
  - intros Hnd i p w Hp Hw. apply fold_write_tuples_assigned.
    + rewrite map_fst_combine.
      rewrite <- (firstn_skipn (List.length ws) (Optimizer.weights self)) in Hnd.
      now apply NoDup_app_remove_r in Hnd.
    + apply (nth_error_In _ i). now apply nth_error_combine.
Qed.

Lemma check_shapes_error l acc e :
  Optimizer.check_shapes l acc = inl e -> exists s s', e = ValueError s s'.
Proof.
  revert acc. induction l as [|[[pv p] w] r IH]; intros acc H; [discriminate|].
  cbn in H. destruct (shape_eqb (shape pv) (shape w)); [eauto|].
  injection H as <-. eauto.
Qed.

Lemma set_weights_outcome (self : Optimizer.t) ws h :
  (exists s s', Optimizer.set_weights self ws h = (inl (ValueError s s'), h)) \/
  (exists h', Optimizer.set_weights self ws h = (inr tt, h')).
Proof.
  rewrite set_weights_run.
  destruct (Optimizer.check_shapes _ _) as [e|tuples] eqn:E.
  - left. destruct (check_shapes_error _ _ _ E) as [s [s' ->]]. eauto.
  - right. eauto.
Qed.

Lemma combine_firstn_length {A B} (l : list A) (l' : list B) :
  combine (firstn (List.length l') l) l' = combine l l'.
Proof.
  revert l'. induction l as [|a r IH]; intros [|b r']; cbn; try reflexivity.
  now rewrite IH.
Qed.

Lemma not_in_firstn_later {A} (l : list A) n j x :
  NoDup l -> nth_error l j = Some x -> (n <= j)%nat -> ~ In x (firstn n l).
Proof.
  revert n j. induction l as [|a r IH]; intros n j Hnd Hj Hn.
  - destruct j; discriminate.
  - inversion Hnd as [|? ? Ha Hr]; subst. destruct n as [|n]; [intros []|].
    destruct j as [|j]; [lia|]. cbn in Hj. cbn [firstn]. intros [->|Hin].
    + apply Ha. eapply nth_error_In; eauto.
    + apply (IH n j); auto. lia.
Qed.

(** C6: [set_weights] raises [ValueError] when a provided value and the
    live tensor at the same position differ in shape, and then the store is
    the one before the call; when the shapes agree at every position it
    returns and every live tensor holds the value provided for it.  There
    is no third outcome. *)
Theorem set_weights_all_or_nothing (self : Optimizer.t) (ws : list tensor)
  (h : backend) :
  ((exists s s', Optimizer.set_weights self ws h = (inl (ValueError s s'), h)) \/
   (exists h', Optimizer.set_weights self ws h = (inr tt, h'))) /\
  (shape_mismatch h (Optimizer.weights self) ws ->
   exists p w, In p (Optimizer.weights self) /\ In w ws /\
     shape (value h p) <> shape w /\
     Optimizer.set_weights self ws h
     = (inl (ValueError (shape (value h p)) (shape w)), h)) /\
  (shapes_agree h (Optimizer.weights self) ws ->
   NoDup (Optimizer.weights self) ->
   exists h',
     Optimizer.set_weights self ws h = (inr tt, h') /\
     forall i p w, nth_error (Optimizer.weights self) i = Some p ->
                   nth_error ws i = Some w -> value h' p = w).
Proof.
  split; [apply set_weights_outcome|]. split.
  - apply set_weights_rejects.
  - intros Hs Hnd. destruct (set_weights_assigns self ws h Hs) as [h' [H1 [_ [_ H2]]]].
    exists h'. split; [exact H1|]. now apply H2.
Qed.

Lemma set_weights_all_or_nothing_witness :
  (exists s s',
     Optimizer.set_weights two_weights [scalar 1; mkT [3%nat] [1; 2; 3]] store_two
     = (inl (ValueError s s'), store_two)) /\
  (exists h',
     Optimizer.set_weights two_weights [scalar 9; mkT [2%nat] [5; 6]] store_two
     = (inr tt, h') /\
     value h' 0%nat = scalar 9 /\ value h' 1%nat = mkT [2%nat] [5; 6]).
Proof.
  split.
  - destruct (proj1 (proj2 (set_weights_all_or_nothing two_weights
                       [scalar 1; mkT [3%nat] [1; 2; 3]] store_two)))
      as [p [w [_ [_ [_ H]]]]].
    + exists 1%nat, 1%nat, (mkT [3%nat] [1; 2; 3]). cbn.
      repeat split; try reflexivity. discriminate.
    + eauto.
  - destruct (proj2 (proj2 (set_weights_all_or_nothing two_weights
                       [scalar 9; mkT [2%nat] [5; 6]] store_two)))
      as [h' [H1 H2]].
    + intros [|[|i]] p w Hp Hw; cbn in Hp, Hw.
      * injection Hp as <-. injection Hw as <-. reflexivity.
      * injection Hp as <-. injection Hw as <-. reflexivity.
      * destruct i; discriminate.
    + cbn. repeat constructor; cbn; intuition discriminate.
    + exists h'. split; [exact H1|]. split.
      * apply (H2 0%nat); reflexivity.
      * apply (H2 1%nat); reflexivity.
Defined.

(** C9: with fewer arrays than weights, [set_weights] behaves as on the
    leading weights alone: the missing arrays raise no error, the leading
    weights are validated and assigned, and the others keep their values. *)
Theorem set_weights_shorter_list (self : Optimizer.t) (ws : list tensor)
  (h : backend) :
  (List.length ws < List.length (Optimizer.weights self))%nat ->
  Optimizer.set_weights self ws h
  = Optimizer.set_weights
      (with_weights (firstn (List.length ws) (Optimizer.weights self)) self) ws h /\
  (shapes_agree h (Optimizer.weights self) ws ->
   NoDup (Optimizer.weights self) ->
   exists h',
     Optimizer.set_weights self ws h = (inr tt, h') /\
     (forall i p w, nth_error (Optimizer.weights self) i = Some p ->
                    nth_error ws i = Some w -> value h' p = w) /\
     (forall j x, (List.length ws <= j)%nat ->
                  nth_error (Optimizer.weights self) j = Some x ->
                  value h' x = value h x)).
Proof.
  intros Hlen. split.
  - rewrite !set_weights_run. cbn [with_weights Optimizer.weights].
    now rewrite combine_firstn_length.
  - intros Hs Hnd. destruct (set_weights_assigns self ws h Hs) as [h' [H1 [_ [H2 H3]]]].
    exists h'. split; [exact H1|]. split; [now apply H3|].
    intros j x Hj Hx. apply H2. eapply not_in_firstn_later; eauto.
Qed.

Lemma set_weights_shorter_list_witness :
  exists h',
    Optimizer.set_weights two_weights [scalar 9] store_two = (inr tt, h') /\
    value h' 0%nat = scalar 9 /\ value h' 1%nat = value store_two 1%nat.
Proof.
  destruct (set_weights_shorter_list two_weights [scalar 9] store_two) as [_ H].
  - cbn. lia.
  - destruct H as [h' [H1 [H2 H3]]].
    + intros [|i] p w Hp Hw; cbn in Hp, Hw.
      * injection Hp as <-. injection Hw as <-. reflexivity.
      * destruct i; discriminate.
    + cbn. repeat constructor; cbn; intuition discriminate.
    + exists h'. split; [exact H1|]. split.
      * apply (H2 0%nat); reflexivity.
      * apply (H3 1%nat); [cbn; lia|reflexivity].
Defined.

(** ** Gradient clipping by the global norm *)

Lemma fold_left_Rplus l a : fold_left Rplus l a = a + fold_right Rplus 0 l.
Proof.
  revert a. induction l as [|x r IH]; intros a; cbn; [lra|]. rewrite IH. lra.
Qed.

Lemma fold_right_Rplus_app l l' :
  fold_right Rplus 0 (l ++ l') = fold_right Rplus 0 l + fold_right Rplus 0 l'.
Proof. induction l as [|x r IH]; cbn; [lra|]. rewrite IH. lra. Qed.

Lemma sum_squares_concat (gs : list tensor) :
  fold_right Rplus 0 (map (fun x => x * x) (concat (map data gs)))
  = fold_right Rplus 0
      (map (fun g => fold_right Rplus 0 (map (fun x => x * x) (data g))) gs).
Proof.
  induction gs as [|g r IH]; [reflexivity|].
  cbn [map concat fold_right]. rewrite map_app, fold_right_Rplus_app, IH. reflexivity.
Qed.

Lemma py_sum_scalars (grads : list texpr) (acc : texpr) a h :
  acc h = scalar a ->
  fold_left (fun acc t => (acc + t)%E)
    (map (fun g => K.sum (K.square g)) grads) acc h
  = scalar (fold_left Rplus
              (map (fun g => fold_right Rplus 0 (map (fun x => x * x) (data (g h))))
                   grads) a).
Proof.
  revert acc a. induction grads as [|g r IH]; intros acc a Ha; [exact Ha|].
  cbn [map fold_left]. apply IH.
  unfold lift2, K.sum, K.square, lift1. rewrite Ha. reflexivity.
Qed.

Lemma norm_value (grads : list texpr) h :
  K.sqrt (py_sum (map (fun g => K.sum (K.square g)) grads)) h
  = scalar (global_norm (eval_all grads h)).
Proof.
  unfold K.sqrt, lift1, py_sum. rewrite (py_sum_scalars grads (const 0) 0 h eq_refl).
  unfold global_norm, eval_all. rewrite sum_squares_concat, fold_left_Rplus, map_map.
  cbn. rewrite Rplus_0_l. reflexivity.
Qed.

Lemma clip_norm_value (g n : texpr) c r h :
  c > 0 -> n h = scalar r ->
  clip_norm g c n h
  = if Rgeb r c then tmap (fun x => x * (c / r)) (g h) else g h.
Proof.
  intros Hc Hn. unfold clip_norm. rewrite Rgtb_true by assumption.
  unfold K.switch, K.greater_equal. rewrite Hn. cbn [item scalar data hd].
  destruct (Rgeb r c); [|reflexivity].
  unfold lift2, const. rewrite Hn. unfold tzip, tmap. cbn. rewrite map_map.
  f_equal. apply map_ext. intros x. unfold Rdiv. ring.
Qed.

(** C4: with a norm threshold [c > 0] and [n] the square root of the sum
    of the squares of all elements of all gradients, [get_gradients]
    returns every gradient as it is when [n < c] and every gradient
    multiplied by [c / n] when [n >= c]; it is a total function, so no
    value of [n] (0 included) raises. *)
Theorem clip_by_global_norm (self : Optimizer.t) (loss : K.loss_t)
  (params : list var) (h : backend) (c : R) :
  Optimizer.clipnorm self = Some c -> c > 0 -> value_clip_off self ->
  let raw := eval_all (K.gradients loss params) h in
  let clipped := eval_all (Optimizer.get_gradients self loss params) h in
  let n := global_norm raw in
  (n < c -> clipped = raw) /\
  (n >= c -> clipped = map (tmap (fun x => x * (c / n))) raw) /\
  (n = 0 -> clipped = raw).
Proof.
  intros Hcn Hc Hv raw clipped n.
  assert (E : clipped
              = map (fun t => if Rgeb n c then tmap (fun x => x * (c / n)) t else t) raw).
  { subst clipped raw. unfold Optimizer.get_gradients. rewrite Hcn.
    rewrite Rgtb_true by assumption.
    assert (Ev : forall gs, match Optimizer.clipvalue self with
                            | Some v => if Rgtb v 0
                                        then map (fun g => K.clip g (- v) v) gs else gs
                            | None => gs
                            end = gs).
    { intros gs. unfold value_clip_off in Hv. destruct (Optimizer.clipvalue self); auto.
      now rewrite Rgtb_false. }
    cbv zeta. rewrite Ev. unfold eval_all. rewrite !map_map. apply map_ext.
    intros p. apply clip_norm_value; [assumption|apply norm_value]. }
  assert (Hlt : n < c -> clipped = raw).
  { intros Hn. rewrite E. destruct (Rgeb_spec n c); [lra|]. apply map_id. }
  split; [exact Hlt|]. split.
  - intros Hn. rewrite E. destruct (Rgeb_spec n c); [reflexivity|contradiction].
  - intros Hn. apply Hlt. lra.
Qed.

Lemma clip_by_global_norm_witness :
  eval_all (Optimizer.get_gradients clipping_at_one
              (fun _ => const 0) [0%nat]) store0
  = [scalar 0] /\
  eval_all (Optimizer.get_gradients clipping_at_one
              (fun _ _ => mkT [2%nat] [3; 4]) [0%nat]) store0
  = [mkT [2%nat] [3 * (1 / 5); 4 * (1 / 5)]].
Proof.
  split.
  - apply (clip_by_global_norm clipping_at_one (fun _ => const 0) [0%nat] store0 1);
      [reflexivity|lra|exact I|].
    unfold global_norm. cbn.
    replace (0 * 0 + 0) with 0 by ring. rewrite sqrt_0. lra.
  - assert (N : global_norm
                  (eval_all (K.gradients (fun _ _ => mkT [2%nat] [3; 4]) [0%nat]) store0)
                = 5).
    { unfold global_norm. cbn.
      replace (3 * 3 + (4 * 4 + 0)) with (5 * 5) by ring. apply sqrt_square. lra. }
    destruct (clip_by_global_norm clipping_at_one (fun _ _ => mkT [2%nat] [3; 4])
                [0%nat] store0 1) as [_ [H _]]; [reflexivity|lra|exact I|].
    rewrite H by (rewrite N; lra). rewrite N. reflexivity.
Defined.

(** ** The triangular schedule at the start *)

Lemma Int_part_1 : Int_part 1 = 1%Z.
Proof. symmetry. apply Int_part_spec. lra. Qed.

(** C7: in [triangular] mode with [step_size > 0], when the counter is 0
    the block computes [cycle = 1], [x = 1] and the amplitude factor 0, and
    the rate it returns is the base rate. *)
Theorem triangular_at_start (c : clr_dict) (iterations : var) (lr : texpr)
  (h : backend) (base_lr step_size max_lr : R) :
  clr_mode c = Some "triangular"%string ->
  clr_step_size c = Some step_size -> clr_max_lr c = Some max_lr ->
  step_size > 0 ->
  value h iterations = scalar 0 -> lr h = scalar base_lr ->
  clr_cycle iterations step_size h = scalar 1 /\
  clr_x iterations step_size h = scalar 1 /\
  clr_amp iterations step_size h = scalar 0 /\
  exists e, clr_block c iterations lr = inr e /\ e h = scalar base_lr.
Proof.
  intros Hm Hs Hx Hpos Hit Hlr.
  assert (C : clr_cycle iterations step_size h = scalar 1).
  { unfold clr_cycle, K.floor, lift1, lift2, read, const. rewrite Hit.
    unfold tzip, tmap, scalar. cbn. do 2 f_equal.
    replace (1 + 0 / (2 * step_size)) with 1 by (unfold Rdiv; ring).
    now rewrite Int_part_1. }
  assert (X : clr_x iterations step_size h = scalar 1).
  { unfold clr_x, K.abs, lift1, lift2. rewrite C. unfold read, const. rewrite Hit.
    unfold tzip, tmap, scalar. cbn. do 2 f_equal.
    replace (0 / step_size - 2 * 1 + 1) with (- (1)) by (unfold Rdiv; ring).
    rewrite Rabs_Ropp. apply Rabs_R1. }
  assert (A : clr_amp iterations step_size h = scalar 0).
  { unfold clr_amp, K.maximum, lift2. rewrite X. unfold const, tzip, scalar. cbn.
    do 2 f_equal. replace (1 - 1) with 0 by ring. apply Rmax_left. lra. }
  repeat split; auto.
  unfold clr_block. rewrite Hm, Hs, Hx. cbn. eexists. split; [reflexivity|].
  unfold lift2. rewrite A, Hlr. unfold const, tzip, scalar. cbn. do 2 f_equal. ring.
Qed.

Lemma triangular_at_start_witness :
  exists e, clr_block triangular_clr 1%nat (read 2%nat) = inr e /\
            e store_sgd_default = scalar 0.01.
Proof.
  destruct (triangular_at_start triangular_clr 1%nat (read 2%nat) store_sgd_default
              0.01 2000 0.06) as [_ [_ [_ H]]];
    try reflexivity; [lra|exact H].
Defined.

(** ** Adadelta *)

Example adadelta_default_constructed :
  Adadelta.init 1.0 0.95 1e-8 0 None [] store0
  = (inr adadelta_default, store_adadelta_default).
Proof. reflexivity. Qed.

Lemma get_gradients_length (self : Optimizer.t) loss params :
  List.length (Optimizer.get_gradients self loss params) = List.length params.
Proof.
  unfold Optimizer.get_gradients, K.gradients.
  destruct (Optimizer.clipnorm self) as [c|], (Optimizer.clipvalue self) as [v|];
    try destruct (Rgtb c 0); try destruct (Rgtb v 0);
    now rewrite ?length_map.
Qed.

(** ** The decay branch *)





(** * Further properties of the code *)

(** ** get_gradients: shapes, value clipping, the clipped norm *)

Lemma value_clip_off_id (self : Optimizer.t) (gs : list texpr) :
  value_clip_off self ->
  match Optimizer.clipvalue self with
  | Some v => if Rgtb v 0 then map (fun g => K.clip g (- v) v) gs else gs
  | None => gs
  end = gs.
Proof.
  unfold value_clip_off. destruct (Optimizer.clipvalue self); auto.
  intros H. now rewrite Rgtb_false.
Qed.

Lemma norm_clip_off_id (self : Optimizer.t) (gs : list texpr) :
  norm_clip_off self ->
  match Optimizer.clipnorm self with
  | Some c =>
      if Rgtb c 0 then
        map (fun g => clip_norm g c
                        (K.sqrt (py_sum (map (fun g => K.sum (K.square g)) gs)))) gs
      else gs
  | None => gs
  end = gs.
Proof.
  unfold norm_clip_off. destruct (Optimizer.clipnorm self); auto.
  intros H. now rewrite Rgtb_false.
Qed.

Lemma clip_norm_shape (g n : texpr) c r h :
  n h = scalar r ->
  shape (clip_norm g c n h) = shape (g h) /\
  List.length (data (clip_norm g c n h)) = List.length (data (g h)).
Proof.
  intros Hn. unfold clip_norm. destruct (Rgtb c 0); [|auto].
  unfold K.switch. destruct (K.greater_equal n c h); [|auto].
  unfold lift2, const. rewrite Hn. unfold tzip. cbn. now rewrite !length_map.
Qed.

(** X1: [get_gradients] returns one gradient per parameter, each with
    the shape and the number of elements of the raw gradient, whatever
    clipping is configured; with no positive threshold ([clipnorm] and
    [clipvalue] absent, zero or negative) it returns the raw gradients. *)
Theorem get_gradients_keeps_shapes (self : Optimizer.t) (loss : K.loss_t)
  (params : list var) (h : backend) :
  let raw := eval_all (K.gradients loss params) h in
  let clipped := eval_all (Optimizer.get_gradients self loss params) h in
  List.length clipped = List.length params /\
  map shape clipped = map shape raw /\
  map (fun t => List.length (data t)) clipped
  = map (fun t => List.length (data t)) raw /\
  (norm_clip_off self -> value_clip_off self ->
   Optimizer.get_gradients self loss params = K.gradients loss params).
Proof.
  intros raw clipped. split; [|split; [|split]].
  - subst clipped. unfold eval_all. now rewrite length_map, get_gradients_length.
  - subst clipped raw. unfold Optimizer.get_gradients, eval_all.
    set (gs := K.gradients loss params).
    destruct (Optimizer.clipnorm self) as [c|], (Optimizer.clipvalue self) as [v|];
      try destruct (Rgtb c 0); try destruct (Rgtb v 0);
      rewrite ?map_map; try reflexivity; apply map_ext; intros g;
      unfold K.clip, lift1, tmap; cbn [shape];
      try (apply (clip_norm_shape g _ c _ h (norm_value gs h)));
      reflexivity.
  - subst clipped raw. unfold Optimizer.get_gradients, eval_all.
    set (gs := K.gradients loss params).
    destruct (Optimizer.clipnorm self) as [c|], (Optimizer.clipvalue self) as [v|];
      try destruct (Rgtb c 0); try destruct (Rgtb v 0);
      rewrite ?map_map; try reflexivity; apply map_ext; intros g;
      unfold K.clip, lift1, tmap; cbn [data]; rewrite ?length_map;
      try (apply (clip_norm_shape g _ c _ h (norm_value gs h)));
      reflexivity.
  - intros Hn Hv. unfold Optimizer.get_gradients. cbv zeta.
    rewrite (norm_clip_off_id self _ Hn). apply (value_clip_off_id self _ Hv).
Qed.

Lemma get_gradients_keeps_shapes_witness :
  Optimizer.get_gradients clipnorm_zero (fun _ _ => mkT [2%nat] [3; 4]) [0%nat]
  = K.gradients (fun _ _ => mkT [2%nat] [3; 4]) [0%nat].
Proof.
  apply (get_gradients_keeps_shapes clipnorm_zero (fun _ _ => mkT [2%nat] [3; 4])
           [0%nat] store0).
  - cbn. lra.
  - exact I.
Defined.





Lemma sum_squares_scaled k (d : list R) :
  fold_right Rplus 0 (map (fun x => x * x) (map (fun x => x * k) d))
  = k * k * fold_right Rplus 0 (map (fun x => x * x) d).
Proof. induction d as [|x r IH]; cbn; [ring|]. rewrite IH. ring. Qed.

Lemma global_norm_scaled k (gs : list tensor) :
  0 <= k ->
  global_norm (map (tmap (fun x => x * k)) gs) = k * global_norm gs.
Proof.
  intros Hk. unfold global_norm.
  assert (E : fold_right Rplus 0
                (map (fun x => x * x)
                   (concat (map data (map (tmap (fun x => x * k)) gs))))
              = k * k * fold_right Rplus 0
                          (map (fun x => x * x) (concat (map data gs)))).
  { rewrite !sum_squares_concat. induction gs as [|g r IH]; cbn; [ring|].
    rewrite IH, sum_squares_scaled. ring. }
  rewrite E. rewrite sqrt_mult_alt by nra. rewrite sqrt_square by assumption.
  reflexivity.
Qed.

(** X3: with a norm threshold [c > 0] and no value clipping, the global
    norm of the gradients [get_gradients] returns is the smaller of the
    global norm of the raw gradients and [c]. *)
Theorem clipped_norm_is_min (self : Optimizer.t) (loss : K.loss_t)
  (params : list var) (h : backend) (c : R) :
  Optimizer.clipnorm self = Some c -> c > 0 -> value_clip_off self ->
  global_norm (eval_all (Optimizer.get_gradients self loss params) h)
  = Rmin (global_norm (eval_all (K.gradients loss params) h)) c.
Proof.
  intros Hcn Hc Hv.
  set (raw := eval_all (K.gradients loss params) h).
  set (n := global_norm raw).
  assert (E : eval_all (Optimizer.get_gradients self loss params) h
              = map (fun t => if Rgeb n c then tmap (fun x => x * (c / n)) t else t) raw).
  { subst raw. unfold Optimizer.get_gradients. rewrite Hcn.
    rewrite Rgtb_true by assumption. cbv zeta.
    rewrite (value_clip_off_id self _ Hv). unfold eval_all. rewrite !map_map.
    apply map_ext. intros p. apply clip_norm_value; [assumption|apply norm_value]. }
  rewrite E. destruct (Rgeb_spec n c) as [Hge|Hlt].
  - rewrite global_norm_scaled.
    + fold n. rewrite Rmin_right by lra. field. lra.
    + apply Rlt_le, Rdiv_lt_0_compat; lra.
  - rewrite map_id. fold n. rewrite Rmin_left by lra. reflexivity.
Qed.

Lemma clipped_norm_is_min_witness :
  global_norm (eval_all (Optimizer.get_gradients clipping_at_one
                           (fun _ _ => mkT [2%nat] [3; 4]) [0%nat]) store0)
  = 1.
Proof.
  rewrite (clipped_norm_is_min clipping_at_one (fun _ _ => mkT [2%nat] [3; 4])
             [0%nat] store0 1); [|reflexivity|lra|exact I].
  unfold global_norm. cbn.
  replace (3 * 3 + (4 * 4 + 0)) with (5 * 5) by ring.
  rewrite sqrt_square by lra. apply Rmin_right. lra.
Defined.

(** ** The cyclical learning rate block *)

Lemma clr_values iterations step_size h t :
  value h iterations = scalar t ->
  clr_cycle iterations step_size h = scalar (cycle_of t step_size) /\
  clr_x iterations step_size h = scalar (x_of t step_size) /\
  clr_amp iterations step_size h = scalar (amp_of t step_size).
Proof.
  intros Hit.
  assert (C : clr_cycle iterations step_size h = scalar (cycle_of t step_size)).
  { unfold clr_cycle, K.floor, lift1, lift2, read, const. now rewrite Hit. }
  assert (X : clr_x iterations step_size h = scalar (x_of t step_size)).
  { unfold clr_x, K.abs, lift1, lift2. rewrite C. unfold read, const.
    now rewrite Hit. }
  repeat split; auto.
  unfold clr_amp, K.maximum, lift2. rewrite X. reflexivity.
Qed.

Lemma amp_of_range t step_size : 0 <= amp_of t step_size <= 1.
Proof.
  unfold amp_of, x_of. split; [apply Rmax_l|].
  apply Rmax_lub; [lra|]. pose proof (Rabs_pos (t / step_size - 2 * cycle_of t step_size + 1)).
  lra.
Qed.

Lemma Int_part_IZR_plus (z : Z) (f : R) : 0 <= f < 1 -> Int_part (IZR z + f) = z.
Proof. intros Hf. symmetry. apply Int_part_spec. lra. Qed.

Lemma Int_part_plus_1 (r : R) : Int_part (r + 1) = (Int_part r + 1)%Z.
Proof.
  symmetry. apply Int_part_spec. rewrite plus_IZR.
  destruct (base_Int_part r) as [H1 H2]. lra.
Qed.

Lemma cycle_of_next t step_size :
  step_size <> 0 ->
  cycle_of (t + 2 * step_size) step_size = cycle_of t step_size + 1.
Proof.
  intros Hs. unfold cycle_of.
  replace (1 + (t + 2 * step_size) / (2 * step_size))
    with (1 + t / (2 * step_size) + 1) by (field; lra).
  rewrite Int_part_plus_1, plus_IZR. reflexivity.
Qed.

Lemma x_of_next t step_size :
  step_size <> 0 -> x_of (t + 2 * step_size) step_size = x_of t step_size.
Proof.
  intros Hs. unfold x_of. rewrite cycle_of_next by assumption. f_equal. field. lra.
Qed.

Lemma cycle_of_nonneg t step_size :
  0 <= t -> step_size > 0 -> 1 <= cycle_of t step_size.
Proof.
  intros Ht Hs. unfold cycle_of.
  assert (H : 0 <= t / (2 * step_size)).
  { apply Rmult_le_pos; [assumption|]. apply Rlt_le, Rinv_0_lt_compat. lra. }
  destruct (base_Int_part (1 + t / (2 * step_size))) as [H1 H2].
  assert (0 < IZR (Int_part (1 + t / (2 * step_size)))) by lra.
  apply lt_IZR in H0. apply IZR_le. lia.
Qed.

Lemma triangular_rate c iterations lr h t b step_size max_lr :
  clr_mode c = Some "triangular"%string ->
  clr_step_size c = Some step_size -> clr_max_lr c = Some max_lr ->
  value h iterations = scalar t -> lr h = scalar b ->
  exists e, clr_block c iterations lr = inr e /\
            e h = scalar (b + (max_lr - b) * amp_of t step_size).
Proof.
  intros Hm Hs Hx Hit Hlr. unfold clr_block. rewrite Hm, Hs, Hx. cbn.
  eexists. split; [reflexivity|].
  destruct (clr_values iterations step_size h t Hit) as (_ & _ & A).
  unfold lift2. rewrite A, Hlr. reflexivity.
Qed.

Lemma triangular2_rate c iterations lr h t b step_size max_lr :
  clr_mode c = Some "triangular2"%string ->
  clr_step_size c = Some step_size -> clr_max_lr c = Some max_lr ->
  value h iterations = scalar t -> lr h = scalar b ->
  exists e, clr_block c iterations lr = inr e /\
            e h = scalar (b + (max_lr - b) * amp_of t step_size
                              / Rpower 2 (cycle_of t step_size - 1)).
Proof.
  intros Hm Hs Hx Hit Hlr. unfold clr_block. rewrite Hm, Hs, Hx. cbn.
  eexists. split; [reflexivity|].
  destruct (clr_values iterations step_size h t Hit) as (C & _ & A).
  unfold K.pow, lift2. rewrite A, C, Hlr. reflexivity.
Qed.

Lemma exp_range_rate c iterations lr h t b step_size max_lr gamma :
  clr_mode c = Some "exp_range"%string ->
  clr_step_size c = Some step_size -> clr_max_lr c = Some max_lr ->
  clr_gamma c = Some gamma ->
  value h iterations = scalar t -> lr h = scalar b ->
  exists e, clr_block c iterations lr = inr e /\
            e h = scalar (b + (max_lr - b) * amp_of t step_size * Rpower gamma t).
Proof.
  intros Hm Hs Hx Hg Hit Hlr. unfold clr_block. rewrite Hm, Hs, Hx, Hg. cbn.
  eexists. split; [reflexivity|].
  destruct (clr_values iterations step_size h t Hit) as (_ & _ & A).
  unfold K.pow, lift2, read. rewrite A, Hit, Hlr. reflexivity.
Qed.

Lemma between_scaled b m a : b <= m -> 0 <= a <= 1 -> b <= b + (m - b) * a <= m.
Proof. intros; nra. Qed.

(** X4: whatever the mode, when the counter is non-negative, the step
    size positive, a [gamma] that is read lies in (0, 1] and
    [lr <= max_lr], the rate the cyclical block returns lies between [lr]
    and [max_lr]. *)
Theorem clr_rate_between (c : clr_dict) (iterations : var) (lr e : texpr)
  (h : backend) (t b step_size max_lr : R) :
  clr_block c iterations lr = inr e ->
  clr_step_size c = Some step_size -> clr_max_lr c = Some max_lr ->
  (forall gamma, clr_gamma c = Some gamma -> 0 < gamma <= 1) ->
  value h iterations = scalar t -> lr h = scalar b ->
  0 <= t -> step_size > 0 -> b <= max_lr ->
  exists r, e h = scalar r /\ b <= r <= max_lr.
Proof.
  intros He Hs Hx Hg Hit Hlr Ht Hss Hb.
  pose proof (amp_of_range t step_size) as Ha.
  destruct (clr_mode c) as [mode|] eqn:Hm;
    [|unfold clr_block in He; rewrite Hm in He; discriminate].
  destruct (String.eqb_spec mode "triangular") as [->|N1].
  { destruct (triangular_rate c iterations lr h t b _ _ Hm Hs Hx Hit Hlr) as [e' [E1 E2]].
    rewrite He in E1. injection E1 as <-. eexists. split; [exact E2|].
    now apply between_scaled. }
  destruct (String.eqb_spec mode "triangular2") as [->|N2].
  { destruct (triangular2_rate c iterations lr h t b _ _ Hm Hs Hx Hit Hlr) as [e' [E1 E2]].
    rewrite He in E1. injection E1 as <-. eexists. split; [exact E2|].
    pose proof (cycle_of_nonneg t step_size Ht Hss) as Hc.
    assert (P : 1 <= Rpower 2 (cycle_of t step_size - 1)).
    { unfold Rpower. rewrite <- exp_0 at 1.
      destruct (Req_dec (cycle_of t step_size - 1) 0) as [->|Hne].
      - rewrite Rmult_0_l. lra.
      - apply Rlt_le, exp_increasing. apply Rmult_lt_0_compat; [lra|].
        rewrite <- ln_1. apply ln_increasing; lra. }
    replace (b + (max_lr - b) * amp_of t step_size / Rpower 2 (cycle_of t step_size - 1))
      with (b + (max_lr - b) * (amp_of t step_size / Rpower 2 (cycle_of t step_size - 1)))
      by (unfold Rdiv; ring).
    apply between_scaled; [assumption|]. split.
    - apply Rmult_le_pos; [lra|]. apply Rlt_le, Rinv_0_lt_compat. lra.
    - apply Rmult_le_reg_r with (Rpower 2 (cycle_of t step_size - 1)); [lra|].
      unfold Rdiv. rewrite Rmult_assoc, Rinv_l by lra. nra. }
  destruct (String.eqb_spec mode "exp_range") as [->|N3].
  { destruct (clr_gamma c) as [gamma|] eqn:Hgm;
      [|unfold clr_block in He; rewrite Hm, Hs, Hx, Hgm in He; discriminate].
    destruct (exp_range_rate c iterations lr h t b _ _ _ Hm Hs Hx Hgm Hit Hlr)
      as [e' [E1 E2]].
    rewrite He in E1. injection E1 as <-. eexists. split; [exact E2|].
    destruct (Hg gamma eq_refl) as [G1 G2].
    assert (P : 0 < Rpower gamma t <= 1).
    { unfold Rpower. split; [apply exp_pos|]. rewrite <- exp_0.
      assert (L : ln gamma <= 0).
      { rewrite <- ln_1. destruct G2 as [G2| ->]; [|lra].
        apply Rlt_le, ln_increasing; lra. }
      destruct (Req_dec (t * ln gamma) 0) as [->|Hne]; [lra|].
      apply Rlt_le, exp_increasing. nra. }
    rewrite Rmult_assoc. apply between_scaled; [assumption|]. nra. }
  unfold clr_block in He. rewrite Hm in He. cbn in He.
  apply String.eqb_neq in N1, N2, N3. rewrite N1, N2, N3 in He.
  injection He as <-. exists b. split; [assumption|lra].
Qed.

Lemma clr_rate_between_witness :
  exists e r, clr_block triangular2_clr 1%nat (read 2%nat) = inr e /\
              e (store_at 3000) = scalar r /\ 0.01 <= r <= 0.06.
Proof.
  destruct (clr_block triangular2_clr 1%nat (read 2%nat)) as [ex|e] eqn:E;
    [discriminate|].
  destruct (clr_rate_between triangular2_clr 1%nat (read 2%nat) e (store_at 3000)
              3000 0.01 2000 0.06 E) as [r [H1 H2]];
    try reflexivity; try lra; [intros gamma; discriminate|].
  exists e, r. auto.
Defined.

Lemma cycle_of_multiple (k : nat) (f step_size : R) :
  step_size > 0 -> 0 <= f < 1 ->
  cycle_of ((2 * INR k + 2 * f) * step_size) step_size = INR k + 1.
Proof.
  intros Hs Hf. unfold cycle_of.
  replace (1 + (2 * INR k + 2 * f) * step_size / (2 * step_size))
    with (IZR (Z.of_nat k + 1) + f).
  - rewrite Int_part_IZR_plus by assumption. rewrite plus_IZR, <- INR_IZR_INZ. reflexivity.
  - rewrite plus_IZR, <- INR_IZR_INZ. field. lra.
Qed.

(** X5: in [triangular] mode with [step_size > 0] the rate is [lr] when
    the counter is an even multiple of [step_size] and [max_lr] when it is
    an odd multiple. *)
Theorem triangular_at_multiples (c : clr_dict) (iterations : var) (lr : texpr)
  (h : backend) (k : nat) (b step_size max_lr : R) :
  clr_mode c = Some "triangular"%string ->
  clr_step_size c = Some step_size -> clr_max_lr c = Some max_lr ->
  step_size > 0 -> lr h = scalar b ->
  exists e, clr_block c iterations lr = inr e /\
    (value h iterations = scalar (2 * INR k * step_size) -> e h = scalar b) /\
    (value h iterations = scalar ((2 * INR k + 1) * step_size) ->
     e h = scalar max_lr).
Proof.
  intros Hm Hs Hx Hss Hlr.
  destruct (clr_block c iterations lr) as [ex|e] eqn:E.
  { unfold clr_block in E. rewrite Hm, Hs, Hx in E. discriminate. }
  exists e. split; [reflexivity|]. split; intros Hit.
  - destruct (triangular_rate c iterations lr h _ b _ _ Hm Hs Hx Hit Hlr) as [e' [E1 E2]].
    rewrite E in E1. injection E1 as <-. rewrite E2. f_equal.
    unfold amp_of, x_of.
    replace (2 * INR k * step_size) with ((2 * INR k + 2 * 0) * step_size) by ring.
    rewrite cycle_of_multiple by lra.
    replace ((2 * INR k + 2 * 0) * step_size / step_size - 2 * (INR k + 1) + 1)
      with (- (1)) by (field; lra).
    rewrite Rabs_Ropp, Rabs_R1. replace (1 - 1) with 0 by ring.
    rewrite Rmax_left by lra. ring.
  - destruct (triangular_rate c iterations lr h _ b _ _ Hm Hs Hx Hit Hlr) as [e' [E1 E2]].
    rewrite E in E1. injection E1 as <-. rewrite E2. f_equal.
    unfold amp_of, x_of.
    replace ((2 * INR k + 1) * step_size)
      with ((2 * INR k + 2 * (1 / 2)) * step_size) by field.
    rewrite cycle_of_multiple by lra.
    replace ((2 * INR k + 2 * (1 / 2)) * step_size / step_size - 2 * (INR k + 1) + 1)
      with 0 by (field; lra).
    rewrite Rabs_R0. replace (1 - 0) with 1 by ring.
    rewrite Rmax_right by lra. ring.
Qed.

Lemma triangular_at_multiples_witness :
  exists e, clr_block triangular_clr 1%nat (read 2%nat) = inr e /\
            e (store_at 2000) = scalar 0.06.
Proof.
  destruct (triangular_at_multiples triangular_clr 1%nat (read 2%nat)
              (store_at 2000) 0 0.01 2000 0.06) as [e [E [_ H]]];
    try reflexivity; [lra|].
  exists e. split; [exact E|]. apply H. cbn. f_equal. ring.
Defined.

(** X6: with [step_size > 0], advancing the counter by [2 * step_size]
    leaves the [triangular] rate as it is and halves the distance of the
    [triangular2] rate from [lr]. *)
Theorem clr_one_cycle_later (c : clr_dict) (iterations : var) (lr e : texpr)
  (h h' : backend) (t b step_size max_lr : R) :
  clr_block c iterations lr = inr e ->
  clr_step_size c = Some step_size -> clr_max_lr c = Some max_lr ->
  step_size > 0 ->
  value h iterations = scalar t ->
  value h' iterations = scalar (t + 2 * step_size) ->
  lr h = scalar b -> lr h' = scalar b ->
  (clr_mode c = Some "triangular"%string -> e h' = e h) /\
  (clr_mode c = Some "triangular2"%string ->
   exists r, e h = scalar r /\ e h' = scalar (b + (r - b) / 2)).
Proof.
  intros He Hs Hx Hss Hit Hit' Hlr Hlr'. split; intros Hm.
  - destruct (triangular_rate c iterations lr h _ b _ _ Hm Hs Hx Hit Hlr) as [e1 [E1 E2]].
    destruct (triangular_rate c iterations lr h' _ b _ _ Hm Hs Hx Hit' Hlr')
      as [e2 [E3 E4]].
    rewrite He in E1, E3. injection E1 as <-. injection E3 as <-.
    rewrite E2, E4. unfold amp_of. rewrite x_of_next by lra. reflexivity.
  - destruct (triangular2_rate c iterations lr h _ b _ _ Hm Hs Hx Hit Hlr) as [e1 [E1 E2]].
    destruct (triangular2_rate c iterations lr h' _ b _ _ Hm Hs Hx Hit' Hlr')
      as [e2 [E3 E4]].
    rewrite He in E1, E3. injection E1 as <-. injection E3 as <-.
    eexists. split; [exact E2|]. rewrite E4. f_equal.
    unfold amp_of. rewrite x_of_next, cycle_of_next by lra.
    replace (cycle_of t step_size + 1 - 1) with (cycle_of t step_size - 1 + 1) by ring.
    rewrite Rpower_plus, Rpower_1 by lra.
    assert (P : 0 < Rpower 2 (cycle_of t step_size - 1)) by apply exp_pos.
    field. lra.
Qed.

Lemma clr_one_cycle_later_witness :
  exists e, clr_block triangular_clr 1%nat (read 2%nat) = inr e /\
            e (store_at (500 + 2 * 2000)) = e (store_at 500).
Proof.
  destruct (clr_block triangular_clr 1%nat (read 2%nat)) as [ex|e] eqn:E;
    [discriminate|].
  exists e. split; [reflexivity|].
  apply (clr_one_cycle_later triangular_clr 1%nat (read 2%nat) e
           (store_at 500) (store_at (500 + 2 * 2000)) 500 0.01 2000 0.06 E);
    try reflexivity. lra.
Defined.

(** ** A [clr] dictionary that lacks a key *)

Lemma clr_block_missing c it lr k :
  missing_key (Some c) = Some k -> clr_block c it lr = inl (KeyError k).
Proof.
  unfold missing_key, clr_block.
  destruct c as [[mode|] [ss|] [ml|] [g|]]; cbn;
    try (intros [= <-]; reflexivity);
    destruct (String.eqb mode "triangular"); cbn;
    try (intros [= <-]; reflexivity); try discriminate;
    destruct (String.eqb mode "triangular2"); cbn;
    try (intros [= <-]; reflexivity); try discriminate;
    destruct (String.eqb mode "exp_range"); cbn;
    try (intros [= <-]; reflexivity); discriminate.
Qed.

Lemma rate_expr_missing lr decay it d clr k :
  missing_key clr = Some k -> rate_expr lr decay it d clr = inl (KeyError k).
Proof.
  unfold rate_expr, rate_of. destruct clr as [c|]; [apply clr_block_missing|discriminate].
Qed.

Lemma rate_and_counter_fail {F} lr decay it d clr cur ex (o : instance F) h :
  rate_expr lr decay it d clr = inl ex ->
  exists us,
    rate_and_counter lr decay it d clr cur (o, h)
    = (inl ex, (with_state us (Optimizer.weights (base o)) o, h)).
Proof.
  unfold rate_expr, rate_of, rate_and_counter. intros H.
  destruct clr as [c|]; [|discriminate]. destruct o as [[cn cv us ws] a].
  destruct (Rgtb d 0); unfold bind, lift_exn; cbn; rewrite H; cbn; eexists;
    reflexivity.
Qed.

Lemma rate_only_fail {F} lr decay it d clr cur ex (o : instance F) h :
  rate_expr lr decay it d clr = inl ex ->
  rate_only lr decay it d clr cur (o, h) = (inl ex, (o, h)).
Proof.
  unfold rate_expr, rate_of, rate_only. intros H.
  destruct clr as [c|]; [|discriminate].
  unfold bind, lift_exn. rewrite H. reflexivity.
Qed.

Ltac fail_run H :=
  mrun H; unfold bind at 1;
  match goal with
  | |- context [rate_and_counter ?a ?b ?c ?d ?e ?f (?o, ?h)] =>
      let us := fresh "us" in let E := fresh "E" in
      destruct (rate_and_counter_fail a b c d e f _ o h H) as [us E];
      rewrite E
  | |- context [rate_only ?a ?b ?c ?d ?e ?f (?o, ?h)] =>
      rewrite (rate_only_fail a b c d e f _ o h H)
  end;
  cbv beta iota; unfold zeros_of;
  rewrite ?map_map, ?length_map, ?next_var_alloc, ?length_map;
  eexists; split; [reflexivity|];
  split; [reflexivity|];
  cbn [base attrs with_state Optimizer.weights]; reflexivity.

(** X7: when the [clr] dictionary lacks a key its mode reads,
    [get_updates] raises [KeyError] on the first such key (in the order
    mode, step_size, max_lr, gamma).  SGD, Adam, Adamax and Nadam raise
    with the backend store and the weight list as they were; RMSprop,
    Adagrad and Adadelta have by then allocated their accumulators and
    replaced the weight list. *)
Theorem get_updates_missing_key (params : list var) (cs : constraints_t)
  (loss : K.loss_t) (hb : backend) (key : string) :
  let n := List.length params in
  let first := seq (next_var hb) n in
  let second := seq (next_var hb + n) n in
  let once := alloc (zeros_of params hb) hb in
  let twice := alloc (zeros_of params hb) once in
  (forall self : SGD.t, missing_key (SGD.clr (attrs self)) = Some key ->
     fails_with_key (SGD.get_updates params cs loss) (self, hb) key hb
       (Optimizer.weights (base self))) /\
  (forall self : RMSprop.t, missing_key (RMSprop.clr (attrs self)) = Some key ->
     fails_with_key (RMSprop.get_updates params cs loss) (self, hb) key once first) /\
  (forall self : Adagrad.t, missing_key (Adagrad.clr (attrs self)) = Some key ->
     fails_with_key (Adagrad.get_updates params cs loss) (self, hb) key once first) /\
  (forall self : Adadelta.t, missing_key (Adadelta.clr (attrs self)) = Some key ->
     fails_with_key (Adadelta.get_updates params cs loss) (self, hb) key twice
       (first ++ second)) /\
  (forall self : Adam.t, missing_key (Adam.clr (attrs self)) = Some key ->
     fails_with_key (Adam.get_updates params cs loss) (self, hb) key hb
       (Optimizer.weights (base self))) /\
  (forall self : Adamax.t, missing_key (Adamax.clr (attrs self)) = Some key ->
     fails_with_key (Adamax.get_updates params cs loss) (self, hb) key hb
       (Optimizer.weights (base self))) /\
  (forall self : Nadam.t, missing_key (Nadam.clr (attrs self)) = Some key ->
     fails_with_key (Nadam.get_updates params cs loss) (self, hb) key hb
       (Optimizer.weights (base self))).
Proof.
  intros n first second once twice. subst n first second once twice.
  unfold fails_with_key.
  repeat match goal with |- _ /\ _ => split end; intros self Hk; cbn [fst].
  - pose proof (rate_expr_missing (SGD.lr (attrs self)) (SGD.decay (attrs self))
                  (SGD.iterations (attrs self)) (SGD.initial_decay (attrs self))
                  _ _ Hk) as H.
    unfold SGD.get_updates. fail_run H.
  - pose proof (rate_expr_missing (RMSprop.lr (attrs self)) (RMSprop.decay (attrs self))
                  (RMSprop.iterations (attrs self)) (RMSprop.initial_decay (attrs self))
                  _ _ Hk) as H.
    unfold RMSprop.get_updates. fail_run H.
  - pose proof (rate_expr_missing (Adagrad.lr (attrs self)) (Adagrad.decay (attrs self))
                  (Adagrad.iterations (attrs self)) (Adagrad.initial_decay (attrs self))
                  _ _ Hk) as H.
    unfold Adagrad.get_updates. fail_run H.
  - pose proof (rate_expr_missing (Adadelta.lr (attrs self)) (Adadelta.decay (attrs self))
                  (Adadelta.iterations (attrs self)) (Adadelta.initial_decay (attrs self))
                  _ _ Hk) as H.
    unfold Adadelta.get_updates. fail_run H.
  - pose proof (rate_expr_missing (Adam.lr (attrs self)) (Adam.decay (attrs self))
                  (Adam.iterations (attrs self)) (Adam.initial_decay (attrs self))
                  _ _ Hk) as H.
    unfold Adam.get_updates. fail_run H.
  - pose proof (rate_expr_missing (Adamax.lr (attrs self)) (Adamax.decay (attrs self))
                  (Adamax.iterations (attrs self)) (Adamax.initial_decay (attrs self))
                  _ _ Hk) as H.
    unfold Adamax.get_updates. fail_run H.
  - assert (H : nadam_rate (attrs self) = inl (KeyError key)).
    { unfold nadam_rate, rate_of. unfold missing_key in Hk.
      destruct (Nadam.clr (attrs self)) as [c|]; [|discriminate].
      now apply clr_block_missing. }
    unfold nadam_rate, rate_of in H. unfold Nadam.get_updates. mrun H.
    unfold bind at 1. destruct (Nadam.clr (attrs self)) as [c|]; [|discriminate].
    unfold lift_exn. rewrite H. cbv beta iota.
    eexists. split; [reflexivity|]. split; reflexivity.
Qed.

Lemma get_updates_missing_key_witness :
  fails_with_key (RMSprop.get_updates [0%nat] [] (fun _ => const 0.5))
    (rmsprop_without_gamma, store_rmsprop_default) "gamma"
    (alloc (zeros_of [0%nat] store_rmsprop_default) store_rmsprop_default)
    [6%nat].
Proof.
  apply (proj1 (proj2 (get_updates_missing_key [0%nat] [] (fun _ => const 0.5)
                         store_rmsprop_default "gamma")) rmsprop_without_gamma).
  reflexivity.
Defined.

(** ** Constructors and configurations *)

Lemma rest_kwargs_allowed names config :
  (forall key, In key (keys config) -> mem key (recognized names) = true) ->
  Optimizer.check_kwargs (rest_kwargs names config) = inr tt.
Proof.
  intros H. apply check_kwargs_accepts. intros k Hk.
  apply keys_rest_kwargs in Hk. destruct Hk as [Hin Hn].
  specialize (H k Hin). unfold recognized in H. rewrite mem_app, Hn in H. exact H.
Qed.

Ltac old_values :=
  intros x Hx; cbn;
  repeat match goal with
         | |- context [Nat.eqb ?a ?b] => destruct (Nat.eqb_spec a b); [lia|]
         end;
  reflexivity.

Ltac accepts init :=
  intros config h Hk; unfold init, bind, Optimizer.init, lift_exn;
  rewrite (rest_kwargs_allowed _ config Hk); cbn;
  do 2 eexists; split; [reflexivity|]; split; [cbn; lia|old_values].

(** X8: for each of the seven classes, a keyword call whose keywords are
    all among the class's named parameters, [clipnorm] and [clipvalue]
    returns an object; it allocates as many variables as the constructor
    has [K.variable] calls (5, 5, 4, 4, 6, 6, 6) and changes no variable
    that existed before. *)
Theorem recognized_keywords_accepted :
  accepts_known SGD.named_params SGD.from_config 5 /\
  accepts_known RMSprop.named_params RMSprop.from_config 5 /\
  accepts_known Adagrad.named_params Adagrad.from_config 4 /\
  accepts_known Adadelta.named_params Adadelta.from_config 4 /\
  accepts_known Adam.named_params Adam.from_config 6 /\
  accepts_known Adamax.named_params Adamax.from_config 6 /\
  accepts_known Nadam.named_params Nadam.from_config 6.
Proof.
  repeat match goal with |- _ /\ _ => split end.
  - unfold SGD.from_config. accepts SGD.init.
  - unfold RMSprop.from_config. accepts RMSprop.init.
  - unfold Adagrad.from_config. accepts Adagrad.init.
  - unfold Adadelta.from_config. accepts Adadelta.init.
  - unfold Adam.from_config. accepts Adam.init.
  - unfold Adamax.from_config. accepts Adamax.init.
  - unfold Nadam.from_config. accepts Nadam.init.
Qed.

Lemma recognized_keywords_accepted_witness :
  exists self h',
    SGD.from_config [("lr", PyFloat 0.1); ("clipnorm", PyFloat 1)]%string store0
    = (inr self, h') /\ next_var h' = 6%nat.
Proof.
  destruct (proj1 recognized_keywords_accepted
              [("lr", PyFloat 0.1); ("clipnorm", PyFloat 1)]%string store0)
    as [self [h' [H1 [H2 _]]]].
  - intros key [<-|[<-|[]]]; reflexivity.
  - exists self, h'. split; [exact H1|exact H2].
Defined.

Ltac fresh_values :=
  repeat match goal with
         | |- context [Nat.eqb ?a ?a] => rewrite (Nat.eqb_refl a)
         | |- context [Nat.eqb ?a ?b] =>
             rewrite (proj2 (Nat.eqb_neq a b)) by lia
         end.

Ltac exported init get_config :=
  intros H; unfold init, bind, Optimizer.init, lift_exn in H;
  match type of H with
  | context [Optimizer.check_kwargs ?k] => destruct (Optimizer.check_kwargs k)
  end; [discriminate|];
  cbn in H; injection H as <- <-;
  unfold get_config, bind, K.get_value, gets, ret; cbn;
  fresh_values; reflexivity.

(** X9: [get_config] on an object a constructor has just returned gives
    the constructor's arguments back: the hyperparameters as passed,
    [iterations] 0 and [current_lr] 0, after the [clipnorm] and [clipvalue]
    entries of the base class.  The [clr] argument is not exported. *)
Theorem get_config_of_constructed (kwargs : dict) (h h' : backend)
  (clr0 : option clr_dict) :
  (forall lr0 momentum0 decay0 nesterov0 self,
     SGD.init lr0 momentum0 decay0 nesterov0 clr0 kwargs h = (inr self, h') ->
     SGD.get_config self h'
     = (inr (Optimizer.get_config (base self) ++
             [("lr", PyFloat lr0); ("momentum", PyFloat momentum0);
              ("decay", PyFloat decay0); ("nesterov", PyBool nesterov0);
              ("iterations", PyArray (scalar 0));
              ("current_lr", PyFloat 0)]%string), h')) /\
  (forall lr0 rho0 epsilon0 decay0 self,
     RMSprop.init lr0 rho0 epsilon0 decay0 clr0 kwargs h = (inr self, h') ->
     RMSprop.get_config self h'
     = (inr (Optimizer.get_config (base self) ++
             [("lr", PyFloat lr0); ("rho", PyFloat rho0);
              ("decay", PyFloat decay0); ("epsilon", PyFloat epsilon0);
              ("iterations", PyArray (scalar 0));
              ("current_lr", PyFloat 0)]%string), h')) /\
  (forall lr0 epsilon0 decay0 self,
     Adagrad.init lr0 epsilon0 decay0 clr0 kwargs h = (inr self, h') ->
     Adagrad.get_config self h'
     = (inr (Optimizer.get_config (base self) ++
             [("lr", PyFloat lr0); ("decay", PyFloat decay0);
              ("epsilon", PyFloat epsilon0);
              ("iterations", PyArray (scalar 0));
              ("current_lr", PyFloat 0)]%string), h')) /\
  (forall lr0 rho0 epsilon0 decay0 self,
     Adadelta.init lr0 rho0 epsilon0 decay0 clr0 kwargs h = (inr self, h') ->
     Adadelta.get_config self h'
     = (inr (Optimizer.get_config (base self) ++
             [("lr", PyFloat lr0); ("rho", PyFloat rho0);
              ("decay", PyFloat decay0); ("epsilon", PyFloat epsilon0);
              ("iterations", PyArray (scalar 0));
              ("current_lr", PyFloat 0)]%string), h')) /\
  (forall lr0 beta_1_0 beta_2_0 epsilon0 decay0 self,
     Adam.init lr0 beta_1_0 beta_2_0 epsilon0 decay0 clr0 kwargs h = (inr self, h') ->
     Adam.get_config self h'
     = (inr (Optimizer.get_config (base self) ++
             [("lr", PyFloat lr0); ("beta_1", PyFloat beta_1_0);
              ("beta_2", PyFloat beta_2_0); ("decay", PyFloat decay0);
              ("epsilon", PyFloat epsilon0);
              ("iterations", PyArray (scalar 0));
              ("current_lr", PyFloat 0)]%string), h')) /\
  (forall lr0 beta_1_0 beta_2_0 epsilon0 decay0 self,
     Adamax.init lr0 beta_1_0 beta_2_0 epsilon0 decay0 clr0 kwargs h = (inr self, h') ->
     Adamax.get_config self h'
     = (inr (Optimizer.get_config (base self) ++
             [("lr", PyFloat lr0); ("beta_1", PyFloat beta_1_0);
              ("beta_2", PyFloat beta_2_0); ("decay", PyFloat decay0);
              ("epsilon", PyFloat epsilon0);
              ("iterations", PyArray (scalar 0));
              ("current_lr", PyFloat 0)]%string), h')) /\
  (forall lr0 beta_1_0 beta_2_0 epsilon0 schedule_decay0 self,
     Nadam.init lr0 beta_1_0 beta_2_0 epsilon0 schedule_decay0 clr0 kwargs h
     = (inr self, h') ->
     Nadam.get_config self h'
     = (inr (Optimizer.get_config (base self) ++
             [("lr", PyFloat lr0); ("beta_1", PyFloat beta_1_0);
              ("beta_2", PyFloat beta_2_0); ("epsilon", PyFloat epsilon0);
              ("schedule_decay", PyFloat schedule_decay0);
              ("iterations", PyArray (scalar 0));
              ("current_lr", PyFloat 0)]%string), h')).
Proof.
  repeat match goal with |- _ /\ _ => split end; intros.
  - revert H. exported SGD.init SGD.get_config.
  - revert H. exported RMSprop.init RMSprop.get_config.
  - revert H. exported Adagrad.init Adagrad.get_config.
  - revert H. exported Adadelta.init Adadelta.get_config.
  - revert H. exported Adam.init Adam.get_config.
  - revert H. exported Adamax.init Adamax.get_config.
  - revert H. exported Nadam.init Nadam.get_config.
Qed.

Lemma get_config_of_constructed_witness :
  SGD.get_config sgd_decaying store_sgd_decaying
  = (inr [("lr", PyFloat 0.01); ("momentum", PyFloat 0); ("decay", PyFloat 0.5);
          ("nesterov", PyBool false); ("iterations", PyArray (scalar 0));
          ("current_lr", PyFloat 0)]%string, store_sgd_decaying).
Proof.
  apply (proj1 (get_config_of_constructed [] store0 store_sgd_decaying None)
           0.01 0 0.5 false sgd_decaying).
  reflexivity.
Defined.

Ltac reimported get_config from_config init :=
  intros [[cn cv us ws] a] h; destruct a; destruct cn, cv;
  unfold get_config, bind, K.get_value, gets, ret; cbn;
  eexists; do 3 eexists; (split; [reflexivity|]);
  unfold hyperparameters, from_config, init, bind, Optimizer.init, lift_exn;
  cbn;
  (split; [reflexivity|]);
  unfold K.get_value, gets, ret; cbn; fresh_values;
  repeat split; reflexivity.

(** X10: for each of the seven classes, the exported configuration
    without [iterations] and [current_lr] is accepted by [from_config], and
    the object it returns exports the same hyperparameters (with
    [clipnorm] and [clipvalue]); its counter and current rate are 0 and it
    has no [clr]. *)
Theorem hyperparameters_round_trip :
  reimports_hyperparameters SGD.get_config SGD.from_config
    (fun o => SGD.clr (attrs o)) /\
  reimports_hyperparameters RMSprop.get_config RMSprop.from_config
    (fun o => RMSprop.clr (attrs o)) /\
  reimports_hyperparameters Adagrad.get_config Adagrad.from_config
    (fun o => Adagrad.clr (attrs o)) /\
  reimports_hyperparameters Adadelta.get_config Adadelta.from_config
    (fun o => Adadelta.clr (attrs o)) /\
  reimports_hyperparameters Adam.get_config Adam.from_config
    (fun o => Adam.clr (attrs o)) /\
  reimports_hyperparameters Adamax.get_config Adamax.from_config
    (fun o => Adamax.clr (attrs o)) /\
  reimports_hyperparameters Nadam.get_config Nadam.from_config
    (fun o => Nadam.clr (attrs o)).
Proof.
  repeat match goal with |- _ /\ _ => split end.
  - reimported SGD.get_config SGD.from_config SGD.init.
  - reimported RMSprop.get_config RMSprop.from_config RMSprop.init.
  - reimported Adagrad.get_config Adagrad.from_config Adagrad.init.
  - reimported Adadelta.get_config Adadelta.from_config Adadelta.init.
  - reimported Adam.get_config Adam.from_config Adam.init.
  - reimported Adamax.get_config Adamax.from_config Adamax.init.
  - reimported Nadam.get_config Nadam.from_config Nadam.init.
Qed.

Lemma hyperparameters_round_trip_witness :
  exists self' h' cfg',
    SGD.from_config
      [("lr", PyFloat 0.01); ("momentum", PyFloat 0); ("decay", PyFloat 0.5);
       ("nesterov", PyBool false)]%string store_sgd_decaying = (inr self', h') /\
    SGD.get_config self' h' = (inr cfg', h') /\
    hyperparameters cfg'
    = [("lr", PyFloat 0.01); ("momentum", PyFloat 0); ("decay", PyFloat 0.5);
       ("nesterov", PyBool false)]%string.
Proof.
  destruct (proj1 hyperparameters_round_trip sgd_decaying store_sgd_decaying)
    as [cfg [self' [h' [cfg' [H0 [H1 [H2 [H3 _]]]]]]]].
  cbn in H0. injection H0 as <-.
  exists self', h', cfg'. split; [exact H1|]. split; [exact H2|exact H3].
Defined.

(** ** set_weights and get_weights together *)

Lemma map_by_position {A B} (f : A -> B) (l : list A) (l' : list B) :
  List.length l = List.length l' ->
  (forall i a b, nth_error l i = Some a -> nth_error l' i = Some b -> f a = b) ->
  map f l = l'.
Proof.
  revert l'. induction l as [|a r IH]; intros [|b r'] Hlen H; try discriminate.
  - reflexivity.
  - cbn. f_equal.
    + apply (H 0%nat); reflexivity.
    + apply IH; [cbn in Hlen; lia|]. intros i x y Hx Hy. apply (H (S i)); assumption.
Qed.

(** X11: after [set_weights] with one array per weight, of the shapes of
    the live tensors, [get_weights] returns exactly the arrays that were
    set. *)
Theorem get_weights_after_set_weights (self : Optimizer.t) (ws : list tensor)
  (h : backend) :
  List.length ws = List.length (Optimizer.weights self) ->
  shapes_agree h (Optimizer.weights self) ws ->
  NoDup (Optimizer.weights self) ->
  exists h',
    Optimizer.set_weights self ws h = (inr tt, h') /\
    Optimizer.get_weights self h' = (inr ws, h').
Proof.
  intros Hlen Hs Hnd.
  destruct (set_weights_assigns self ws h Hs) as [h' [H1 [_ [_ H2]]]].
  exists h'. split; [exact H1|].
  unfold Optimizer.get_weights, K.batch_get_value, gets. do 2 f_equal.
  apply map_by_position; [now symmetry|]. intros i p w Hp Hw. now apply (H2 Hnd i).
Qed.

Lemma get_weights_after_set_weights_witness :
  exists h',
    Optimizer.set_weights two_weights [scalar 9; mkT [2%nat] [5; 6]] store_two
    = (inr tt, h') /\
    Optimizer.get_weights two_weights h' = (inr [scalar 9; mkT [2%nat] [5; 6]], h').
Proof.
  apply (get_weights_after_set_weights two_weights
           [scalar 9; mkT [2%nat] [5; 6]] store_two).
  - reflexivity.
  - intros [|[|i]] p w Hp Hw; cbn in Hp, Hw.
    + injection Hp as <-. injection Hw as <-. reflexivity.
    + injection Hp as <-. injection Hw as <-. reflexivity.
    + destruct i; discriminate.
  - cbn. repeat constructor; cbn; intuition discriminate.
Defined.

Lemma fold_write_same (f : var -> tensor) (l : list var) h :
  (forall x, value h x = f x) ->
  forall x,
    value (fold_left (fun acc xw => write acc (fst xw) (snd xw))
             (combine l (map f l)) h) x = f x.
Proof.
  revert h. induction l as [|p r IH]; intros h H x; [apply H|].
  cbn [map combine fold_left]. apply IH. intros y. cbn.
  destruct (Nat.eqb_spec y p) as [->|]; [reflexivity|apply H].
Qed.

(** X12: [set_weights] on what [get_weights] has just returned raises
    nothing and leaves every variable of the store with the value it
    had. *)
Theorem set_weights_of_get_weights (self : Optimizer.t) (h : backend) :
  exists ws h',
    Optimizer.get_weights self h = (inr ws, h) /\
    Optimizer.set_weights self ws h = (inr tt, h') /\
    next_var h' = next_var h /\
    forall x, value h' x = value h x.
Proof.
  exists (map (value h) (Optimizer.weights self)).
  rewrite set_weights_run. rewrite check_shapes_ok.
  2:{ intros p w Hin. apply In_nth_error in Hin. destruct Hin as [i Hi].
      apply nth_error_combine in Hi. destruct Hi as [Hp Hw].
      rewrite nth_error_map, Hp in Hw. cbn in Hw. now injection Hw as <-. }
  cbn [app]. eexists. split; [reflexivity|]. split; [reflexivity|].
  split; [apply next_var_fold_write|].
  intros x. now apply fold_write_same.
Qed.

Lemma check_shapes_tuples (f : var -> tensor) l acc tuples :
  Optimizer.check_shapes (map (fun pw => (f (fst pw), fst pw, snd pw)) l) acc
  = inr tuples ->
  tuples = acc ++ l.
Proof.
  revert acc. induction l as [|[p w] r IH]; intros acc H; cbn in H.
  - injection H as <-. now rewrite app_nil_r.
  - destruct (shape_eqb (shape (f p)) (shape w)); [|discriminate].
    apply IH in H. now rewrite <- app_assoc in H.
Qed.

Lemma combine_firstn_left {A B} (l : list A) (l' : list B) :
  combine l (firstn (List.length l) l') = combine l l'.
Proof.
  revert l'. induction l as [|a r IH]; intros [|b r']; cbn; try reflexivity.
  now rewrite IH.
Qed.

(** X13: arrays beyond the number of weights are ignored by
    [set_weights], not even their shapes are looked at; in particular on an
    object with no weights yet (before [get_updates]) it accepts any list
    and returns with the store as it was. *)
Theorem set_weights_surplus_ignored (self : Optimizer.t) (ws : list tensor)
  (h : backend) :
  Optimizer.set_weights self ws h
  = Optimizer.set_weights self
      (firstn (List.length (Optimizer.weights self)) ws) h /\
  (Optimizer.weights self = [] ->
   Optimizer.set_weights self ws h = (inr tt, h) /\
   Optimizer.get_weights self h = (inr [], h)).
Proof.
  split.
  - rewrite !set_weights_run. now rewrite combine_firstn_left.
  - intros Hw. rewrite set_weights_run. unfold Optimizer.get_weights,
      K.batch_get_value, gets. rewrite Hw. cbn. destruct h. split; reflexivity.
Qed.

Lemma set_weights_surplus_ignored_witness :
  Optimizer.set_weights (base sgd_default) [scalar 1; mkT [2%nat] [5; 6]]
    store_sgd_default
  = (inr tt, store_sgd_default).
Proof.
  apply (proj2 (set_weights_surplus_ignored (base sgd_default)
                  [scalar 1; mkT [2%nat] [5; 6]] store_sgd_default)).
  reflexivity.
Defined.

(** X14: whatever [set_weights] returns, it allocates nothing and every
    variable that is not one of the optimizer's weights keeps its value. *)
Theorem set_weights_frame (self : Optimizer.t) (ws : list tensor)
  (h h' : backend) (r : exn + unit) :
  Optimizer.set_weights self ws h = (r, h') ->
  next_var h' = next_var h /\
  forall x, ~ In x (Optimizer.weights self) -> value h' x = value h x.
Proof.
  rewrite set_weights_run.
  destruct (Optimizer.check_shapes _ _) as [e|tuples] eqn:E.
  - intros [= <- <-]. split; reflexivity.
  - intros [= <- <-]. apply check_shapes_tuples in E. cbn [app] in E. subst tuples.
    split; [apply next_var_fold_write|].
    intros x Hx. apply fold_write_tuples_untouched.
    rewrite map_fst_combine. intros Hin. apply Hx.
    rewrite <- (firstn_skipn (List.length ws) (Optimizer.weights self)).
    apply in_or_app. now left.
Qed.

Lemma set_weights_frame_witness :
  exists r h',
    Optimizer.set_weights two_weights [scalar 9] store_two = (r, h') /\
    next_var h' = 2%nat /\ value h' 5%nat = value store_two 5%nat.
Proof.
  destruct (Optimizer.set_weights two_weights [scalar 9] store_two) as [r h'] eqn:E.
  destruct (set_weights_frame two_weights [scalar 9] store_two h' r E) as [H1 H2].
  exists r, h'. split; [reflexivity|]. split; [exact H1|].
  apply H2. cbn. intuition discriminate.
Defined.

(** ** Several steps, and the accumulators a call allocates *)

Example adam_default_constructed :
  Adam.init 0.001 0.9 0.999 1e-8 0 None [] store0
  = (inr adam_default, store_adam_default).
Proof. reflexivity. Qed.

Lemma counter_effect_steps adv it ups h t n :
  counter_effect adv it ups -> value h it = scalar t ->
  value (steps n ups h) it = scalar (t + if adv then INR n else 0).
Proof.
  intros He Ht. induction n as [|n IH].
  - cbn. rewrite Ht. f_equal. destruct adv; cbn; ring.
  - change (steps (S n) ups h) with (run_updates ups (steps n ups h)).
    rewrite He, IH. destruct adv.
    + rewrite S_INR. cbn. unfold scalar. do 2 f_equal. ring.
    + reflexivity.
Qed.

Ltac counted L :=
  intros self a Ha Hp Hc; unfold a in *; unfold counts_steps;
  match goal with
  | |- exists ups s', ?run ?params ?cs ?loss (_, ?hb) = _ /\ _ =>
      destruct (L params cs loss self hb Ha Hp Hc) as [ups [s' [Hrun Heff]]]
  end;
  do 2 eexists; split; [eassumption|];
  intros h t n Ht;
  match goal with
  | H : counter_effect ?adv _ _ |- _ =>
      exact (counter_effect_steps adv _ _ h t n H Ht)
  end.

(** X15: [n] steps of the batch [get_updates] returns add exactly [n] to
    the counter for Adam, Adamax and Nadam, and for SGD, RMSprop, Adagrad
    and Adadelta when [initial_decay > 0] or a [clr] is configured with
    [initial_decay = 0]; otherwise these four leave it where it was. *)
Theorem counter_after_steps (params : list var) (cs : constraints_t)
  (loss : K.loss_t) (hb : backend) :
  (forall self : SGD.t, let a := attrs self in
     allocated (SGD_handles a) hb -> ~ In (SGD.iterations a) params ->
     clr_complete (SGD.clr a) = true ->
     counts_steps (SGD.get_updates params cs loss) (self, hb) (SGD.iterations a)
       (advances (SGD.initial_decay a) (SGD.clr a))) /\
  (forall self : RMSprop.t, let a := attrs self in
     allocated (RMSprop_handles a) hb -> ~ In (RMSprop.iterations a) params ->
     clr_complete (RMSprop.clr a) = true ->
     counts_steps (RMSprop.get_updates params cs loss) (self, hb)
       (RMSprop.iterations a)
       (advances (RMSprop.initial_decay a) (RMSprop.clr a))) /\
  (forall self : Adagrad.t, let a := attrs self in
     allocated (Adagrad_handles a) hb -> ~ In (Adagrad.iterations a) params ->
     clr_complete (Adagrad.clr a) = true ->
     counts_steps (Adagrad.get_updates params cs loss) (self, hb)
       (Adagrad.iterations a)
       (advances (Adagrad.initial_decay a) (Adagrad.clr a))) /\
  (forall self : Adadelta.t, let a := attrs self in
     allocated (Adadelta_handles a) hb -> ~ In (Adadelta.iterations a) params ->
     clr_complete (Adadelta.clr a) = true ->
     counts_steps (Adadelta.get_updates params cs loss) (self, hb)
       (Adadelta.iterations a)
       (advances (Adadelta.initial_decay a) (Adadelta.clr a))) /\
  (forall self : Adam.t, let a := attrs self in
     allocated (Adam_handles a) hb -> ~ In (Adam.iterations a) params ->
     clr_complete (Adam.clr a) = true ->
     counts_steps (Adam.get_updates params cs loss) (self, hb)
       (Adam.iterations a) true) /\
  (forall self : Adamax.t, let a := attrs self in
     allocated (Adamax_handles a) hb -> ~ In (Adamax.iterations a) params ->
     clr_complete (Adamax.clr a) = true ->
     counts_steps (Adamax.get_updates params cs loss) (self, hb)
       (Adamax.iterations a) true) /\
  (forall self : Nadam.t, let a := attrs self in
     allocated (Nadam_handles a) hb -> ~ In (Nadam.iterations a) params ->
     clr_complete (Nadam.clr a) = true ->
     counts_steps (Nadam.get_updates params cs loss) (self, hb)
       (Nadam.iterations a) true).
Proof.
  repeat match goal with |- _ /\ _ => split end.
  - counted SGD_counter.
  - counted RMSprop_counter.
  - counted Adagrad_counter.
  - counted Adadelta_counter.
  - counted Adam_counter.
  - counted Adamax_counter.
  - counted Nadam_counter.
Qed.

Lemma counter_after_steps_witness :
  exists ups s',
    Adam.get_updates [0%nat] [] (fun _ => const 0.5) (adam_default, store_adam_default)
    = (inr ups, s') /\
    value (steps 10 ups store_adam_default) 1%nat = scalar (0 + INR 10).
Proof.
  destruct (proj1 (proj2 (proj2 (proj2 (proj2
              (counter_after_steps [0%nat] [] (fun _ => const 0.5)
                 store_adam_default))))) adam_default)
    as [ups [s' [Hrun H]]].
  - allocated_example.
  - cbn. intuition discriminate.
  - reflexivity.
  - exists ups, s'. split; [exact Hrun|]. apply (H store_adam_default 0 10%nat).
    reflexivity.
Defined.

Lemma zeros_of_nth params hb i p :
  nth_error params i = Some p ->
  nth_error (zeros_of params hb) i = Some (K.zeros_tensor (shape (value hb p))).
Proof. intros H. unfold zeros_of. rewrite nth_error_map, H. reflexivity. Qed.

Lemma zeros_of_length params hb : List.length (zeros_of params hb) = List.length params.
Proof. unfold zeros_of. apply length_map. Qed.

Lemma zeros_once params hb :
  let n := List.length params in
  let h' := alloc (zeros_of params hb) hb in
  next_var h' = (next_var hb + 1 * n)%nat /\
  (forall x, (x < next_var hb)%nat -> value h' x = value hb x) /\
  (forall j i p, (j < 1)%nat -> nth_error params i = Some p ->
     value h' (next_var hb + j * n + i)%nat = K.zeros_tensor (shape (value hb p))).
Proof.
  intros n h'. subst n h'. split; [|split].
  - rewrite next_var_alloc, zeros_of_length. lia.
  - intros x Hx. now apply value_alloc_old.
  - intros j i p Hj Hp. replace j with 0%nat by lia. cbn [Nat.mul]. rewrite Nat.add_0_r.
    apply value_alloc_new. now apply zeros_of_nth.
Qed.

Lemma zeros_twice params hb :
  let n := List.length params in
  let h' := alloc (zeros_of params hb) (alloc (zeros_of params hb) hb) in
  next_var h' = (next_var hb + 2 * n)%nat /\
  (forall x, (x < next_var hb)%nat -> value h' x = value hb x) /\
  (forall j i p, (j < 2)%nat -> nth_error params i = Some p ->
     value h' (next_var hb + j * n + i)%nat = K.zeros_tensor (shape (value hb p))).
Proof.
  intros n h'. subst n h'.
  assert (N : next_var (alloc (zeros_of params hb) hb)
              = (next_var hb + List.length params)%nat).
  { now rewrite next_var_alloc, zeros_of_length. }
  split; [|split].
  - rewrite next_var_alloc, N, zeros_of_length. lia.
  - intros x Hx. rewrite value_alloc_old by lia. now apply value_alloc_old.
  - intros j i p Hj Hp.
    assert (Hi : (i < List.length params)%nat).
    { apply nth_error_Some. rewrite Hp. discriminate. }
    destruct j as [|[|j]]; [| |lia].
    + cbn [Nat.mul]. rewrite Nat.add_0_r. rewrite value_alloc_old by lia.
      apply value_alloc_new. now apply zeros_of_nth.
    + replace (next_var hb + 1 * List.length params + i)%nat
        with (next_var (alloc (zeros_of params hb) hb) + i)%nat by lia.
      apply value_alloc_new. now apply zeros_of_nth.
Qed.

(** X16: a successful [get_updates] allocates one list of accumulators
    (SGD, RMSprop, Adagrad) or two (Adadelta, Adam, Adamax, Nadam), each
    with one tensor of zeros per parameter, of the parameter's shape, and
    changes the value of no variable that existed before the call. *)
Theorem accumulators_are_zeros (params : list var) (cs : constraints_t)
  (loss : K.loss_t) (hb : backend) :
  (forall self : SGD.t, clr_complete (SGD.clr (attrs self)) = true ->
     allocates_zeros (SGD.get_updates params cs loss) (self, hb) params 1) /\
  (forall self : RMSprop.t, clr_complete (RMSprop.clr (attrs self)) = true ->
     allocates_zeros (RMSprop.get_updates params cs loss) (self, hb) params 1) /\
  (forall self : Adagrad.t, clr_complete (Adagrad.clr (attrs self)) = true ->
     allocates_zeros (Adagrad.get_updates params cs loss) (self, hb) params 1) /\
  (forall self : Adadelta.t, clr_complete (Adadelta.clr (attrs self)) = true ->
     allocates_zeros (Adadelta.get_updates params cs loss) (self, hb) params 2) /\
  (forall self : Adam.t, clr_complete (Adam.clr (attrs self)) = true ->
     allocates_zeros (Adam.get_updates params cs loss) (self, hb) params 2) /\
  (forall self : Adamax.t, clr_complete (Adamax.clr (attrs self)) = true ->
     allocates_zeros (Adamax.get_updates params cs loss) (self, hb) params 2) /\
  (forall self : Nadam.t, clr_complete (Nadam.clr (attrs self)) = true ->
     allocates_zeros (Nadam.get_updates params cs loss) (self, hb) params 2).
Proof.
  repeat match goal with |- _ /\ _ => split end;
    intros self Hc; unfold allocates_zeros; cbn [snd].
  - destruct (rate_expr_complete (SGD.lr (attrs self)) (SGD.decay (attrs self))
                (SGD.iterations (attrs self)) (SGD.initial_decay (attrs self)) _ Hc)
      as [e He].
    destruct (SGD_get_updates_ok params cs loss self hb e He) as [body [Hrun _]].
    do 3 eexists. split; [exact Hrun|apply zeros_once].
  - destruct (rate_expr_complete (RMSprop.lr (attrs self)) (RMSprop.decay (attrs self))
                (RMSprop.iterations (attrs self)) (RMSprop.initial_decay (attrs self))
                _ Hc) as [e He].
    destruct (RMSprop_get_updates_ok params cs loss self hb e He) as [body [Hrun _]].
    do 3 eexists. split; [exact Hrun|apply zeros_once].
  - destruct (rate_expr_complete (Adagrad.lr (attrs self)) (Adagrad.decay (attrs self))
                (Adagrad.iterations (attrs self)) (Adagrad.initial_decay (attrs self))
                _ Hc) as [e He].
    destruct (Adagrad_get_updates_ok params cs loss self hb e He) as [body [Hrun _]].
    do 3 eexists. split; [exact Hrun|apply zeros_once].
  - destruct (rate_expr_complete (Adadelta.lr (attrs self)) (Adadelta.decay (attrs self))
                (Adadelta.iterations (attrs self)) (Adadelta.initial_decay (attrs self))
                _ Hc) as [e He].
    destruct (Adadelta_get_updates_ok params cs loss self hb e He) as [Hrun _].
    do 3 eexists. split; [exact Hrun|apply zeros_twice].
  - destruct (rate_expr_complete (Adam.lr (attrs self)) (Adam.decay (attrs self))
                (Adam.iterations (attrs self)) (Adam.initial_decay (attrs self))
                _ Hc) as [e He].
    destruct (Adam_get_updates_ok params cs loss self hb e He) as [body [Hrun _]].
    do 3 eexists. split; [exact Hrun|apply zeros_twice].
  - destruct (rate_expr_complete (Adamax.lr (attrs self)) (Adamax.decay (attrs self))
                (Adamax.iterations (attrs self)) (Adamax.initial_decay (attrs self))
                _ Hc) as [e He].
    destruct (Adamax_get_updates_ok params cs loss self hb e He) as [body [Hrun _]].
    do 3 eexists. split; [exact Hrun|apply zeros_twice].
  - destruct (nadam_rate_complete _ Hc) as [e He].
    destruct (Nadam_get_updates_ok params cs loss self hb e He) as [ms [body [Hrun _]]].
    do 3 eexists. split; [exact Hrun|apply zeros_twice].
Qed.

Lemma accumulators_are_zeros_witness :
  allocates_zeros (Adam.get_updates [0%nat] [] (fun _ => const 0.5))
    (adam_default, store_adam_default) [0%nat] 2.
Proof.
  apply (proj1 (proj2 (proj2 (proj2 (proj2
           (accumulators_are_zeros [0%nat] [] (fun _ => const 0.5)
              store_adam_default))))) adam_default).
  reflexivity.
Defined.

(** ** The batch assigns each variable once *)

Lemma run_updates_distinct ups u h :
  NoDup (map target ups) -> In u ups ->
  value (run_updates ups h) (target u) = new_value u h.
Proof.
  intros Hnd Hin. apply in_split in Hin. destruct Hin as [pre [post ->]].
  apply run_updates_last. intros v Hv E.
  rewrite map_app in Hnd. apply NoDup_remove_2 in Hnd. apply Hnd.
  apply in_or_app. right. rewrite <- E. now apply in_map.
Qed.

Lemma run_updates_permuted ups ups' h x :
  NoDup (map target ups) -> Permutation ups ups' ->
  value (run_updates ups' h) x = value (run_updates ups h) x.
Proof.
  intros Hnd Hp.
  assert (Hnd' : NoDup (map target ups')).
  { eapply Permutation_NoDup; [|exact Hnd]. now apply Permutation_map. }
  destruct (in_dec Nat.eq_dec x (map target ups)) as [Hin|Hout].
  - apply in_map_iff in Hin. destruct Hin as [u [<- Hu]].
    rewrite (run_updates_distinct ups u h Hnd Hu).
    apply run_updates_distinct; [assumption|]. eapply Permutation_in; eauto.
  - rewrite !run_updates_untouched; [reflexivity| |].
    + intros u Hu E. apply Hout. rewrite <- E. now apply in_map.
    + intros u Hu E. apply Hout. rewrite <- E. apply in_map.
      eapply Permutation_in; [apply Permutation_sym; exact Hp|exact Hu].
Qed.

Lemma distinct_targets_batch {F} (run : M (instance F * backend) (list update_op))
  s ups s' :
  run s = (inr ups, s') -> NoDup (map target ups) -> emits_distinct_targets run s.
Proof.
  intros Hrun Hnd. exists ups, s'. split; [exact Hrun|]. split; [exact Hnd|]. split.
  - intros u h Hu. now apply run_updates_distinct.
  - intros ups' h x Hp. now apply run_updates_permuted.
Qed.

Lemma targets_zip3 (F : var * texpr * var -> list update_op)
  (l1 : list var) (l3 : list var) :
  forall (l2 : list texpr),
  List.length l2 = List.length l1 ->
  (forall p g m, Permutation (map target (F (p, g, m))) [p; m]) ->
  Permutation (map target (flat_map F (zip3 l1 l2 l3)))
    (flat_map (fun pm : var * var => [fst pm; snd pm]) (combine l1 l3)).
Proof.
  revert l3. induction l1 as [|p r IH]; intros l3 l2 Hlen HF; [constructor|].
  destruct l2 as [|g r2]; [discriminate|]. destruct l3 as [|m r3]; [constructor|].
  unfold zip3 in *. cbn [combine flat_map]. rewrite map_app.
  apply Permutation_app; [apply HF|].
  apply IH; [cbn in Hlen; lia|exact HF].
Qed.

Lemma targets_zip4 (F : var * texpr * var * var -> list update_op)
  (l1 : list var) (l3 l4 : list var) :
  forall (l2 : list texpr),
  List.length l2 = List.length l1 ->
  (forall p g a b, Permutation (map target (F (p, g, a, b))) [p; a; b]) ->
  Permutation (map target (flat_map F (zip4 l1 l2 l3 l4)))
    (flat_map (fun t : var * var * var => [fst (fst t); snd (fst t); snd t])
       (zip3 l1 l3 l4)).
Proof.
  revert l3 l4. induction l1 as [|p r IH]; intros l3 l4 l2 Hlen HF; [constructor|].
  destruct l2 as [|g r2]; [discriminate|]. destruct l3 as [|a r3]; [constructor|].
  destruct l4 as [|b r4]; [constructor|].
  unfold zip4, zip3 in *. cbn [combine flat_map]. rewrite map_app.
  apply Permutation_app; [apply HF|].
  apply IH; [cbn in Hlen; lia|exact HF].
Qed.

Lemma in_targets2 x ps s k :
  In x (flat_map (fun pm : var * var => [fst pm; snd pm]) (combine ps (seq s k))) ->
  In x ps \/ (s <= x)%nat.
Proof.
  intros H. apply in_flat_map in H. destruct H as [[p m] [Hz Hx]].
  pose proof (in_combine_l _ _ _ _ Hz). pose proof (in_combine_r _ _ _ _ Hz) as Hm.
  apply in_seq in Hm. cbn in Hx. destruct Hx as [<-|[<-|[]]]; [now left|right; lia].
Qed.

Lemma NoDup_targets2 ps s k :
  NoDup ps -> Forall (fun p => (p < s)%nat) ps ->
  NoDup (flat_map (fun pm : var * var => [fst pm; snd pm]) (combine ps (seq s k))).
Proof.
  revert s k. induction ps as [|p r IH]; intros s k Hnd Hlt; [constructor|].
  destruct k as [|k]; [constructor|].
  inversion Hnd as [|? ? Hp Hr]; subst. inversion Hlt as [|? ? Hps Hrs]; subst.
  cbn [seq combine flat_map app fst snd].
  assert (IHr : NoDup (flat_map (fun pm : var * var => [fst pm; snd pm])
                         (combine r (seq (S s) k)))).
  { apply IH; [assumption|]. eapply Forall_impl; [|exact Hrs]. cbn. intros; lia. }
  constructor; [|constructor; [|exact IHr]].
  - intros [E|Hin]; [lia|]. apply in_targets2 in Hin. destruct Hin; [contradiction|lia].
  - intros Hin. apply in_targets2 in Hin. destruct Hin as [Hin|Hin]; [|lia].
    rewrite Forall_forall in Hrs. specialize (Hrs _ Hin). lia.
Qed.

Lemma in_targets3 x ps a b k :
  In x (flat_map (fun t : var * var * var => [fst (fst t); snd (fst t); snd t])
          (zip3 ps (seq a k) (seq b k))) ->
  In x ps \/ (a <= x < a + k)%nat \/ (b <= x < b + k)%nat.
Proof.
  intros H. apply in_flat_map in H. destruct H as [[[p m] v] [Hz Hx]].
  apply in_zip3 in Hz. destruct Hz as (Hp & Hm & Hv).
  apply in_seq in Hm, Hv. cbn in Hx.
  destruct Hx as [<-|[<-|[<-|[]]]]; [now left|right; left; lia|right; right; lia].
Qed.

Lemma NoDup_targets3 ps a b k :
  NoDup ps -> Forall (fun p => (p < a)%nat) ps -> (a + k <= b)%nat ->
  NoDup (flat_map (fun t : var * var * var => [fst (fst t); snd (fst t); snd t])
           (zip3 ps (seq a k) (seq b k))).
Proof.
  revert a b k. induction ps as [|p r IH]; intros a b k Hnd Hlt Hab; [constructor|].
  destruct k as [|k]; [constructor|].
  inversion Hnd as [|? ? Hp Hr]; subst. inversion Hlt as [|? ? Hps Hrs]; subst.
  unfold zip3. cbn [seq combine flat_map app fst snd]. fold (zip3 r (seq (S a) k) (seq (S b) k)).
  assert (IHr : NoDup (flat_map
                         (fun t : var * var * var => [fst (fst t); snd (fst t); snd t])
                         (zip3 r (seq (S a) k) (seq (S b) k)))).
  { apply IH; [assumption| |lia]. eapply Forall_impl; [|exact Hrs]. cbn. intros; lia. }
  rewrite Forall_forall in Hrs.
  constructor; [|constructor; [|constructor; [|exact IHr]]].
  - intros [E|[E|Hin]]; [lia|lia|]. apply in_targets3 in Hin.
    destruct Hin as [Hin|[Hin|Hin]]; [contradiction|lia|lia].
  - intros [E|Hin]; [lia|]. apply in_targets3 in Hin.
    destruct Hin as [Hin|[Hin|Hin]]; [specialize (Hrs _ Hin); lia|lia|lia].
  - intros Hin. apply in_targets3 in Hin.
    destruct Hin as [Hin|[Hin|Hin]]; [specialize (Hrs _ Hin); lia|lia|lia].
Qed.

Lemma counter_ops_targets d clr it :
  map target (counter_ops d clr it) = if advances d clr then [it] else [].
Proof.
  unfold counter_ops, advances. destruct (Rgtb_spec d 0) as [Hd|Hd].
  - assert (E : Reqb d 0 = false) by (destruct (Reqb_spec d 0); [lra|reflexivity]).
    rewrite E. destruct clr; reflexivity.
  - destruct clr as [c|]; [|reflexivity]. destruct (Reqb d 0); reflexivity.
Qed.

(** The targets of a whole batch: a header of handles, then the targets of
    the per-parameter updates. *)
Lemma NoDup_header_body (hdr body : list var) (params : list var) (n0 : nat) :
  NoDup hdr -> Forall (fun x => (x < n0)%nat) hdr ->
  (forall x, In x hdr -> ~ In x params) ->
  NoDup body -> (forall x, In x body -> In x params \/ (n0 <= x)%nat) ->
  NoDup (hdr ++ body).
Proof.
  intros Hh Hlt Hdis Hb Hin. apply NoDup_app; auto.
  intros x Hx Hx'. destruct (Hin x Hx') as [H|H]; [now apply (Hdis x)|].
  rewrite Forall_forall in Hlt. specialize (Hlt x Hx). lia.
Qed.

Ltac targets2 Hrun :=
  cbn [with_state Optimizer.updates base fst snd];
  rewrite ?map_app, ?counter_ops_targets; cbn [map target app K.update];
  repeat first [apply Permutation_app_head | apply perm_skip];
  apply targets_zip3; [apply get_gradients_length|];
  intros p g m; cbn [map target K.update]; apply perm_swap.

Lemma SGD_targets params cs loss (self : SGD.t) hb :
  let a := attrs self in
  clr_complete (SGD.clr a) = true ->
  exists ups s', SGD.get_updates params cs loss (self, hb) = (inr ups, s') /\
    Permutation (map target ups)
      (((if advances (SGD.initial_decay a) (SGD.clr a) then [SGD.iterations a] else [])
        ++ [SGD.current_lr a])
       ++ flat_map (fun pm : var * var => [fst pm; snd pm])
            (combine params (seq (next_var hb) (List.length params)))).
Proof.
  intros a Hc. unfold a in *.
  destruct (rate_expr_complete (SGD.lr a) (SGD.decay a) (SGD.iterations a)
              (SGD.initial_decay a) _ Hc) as [e H].
  unfold a in *. do 2 eexists. split.
  - unfold SGD.get_updates. mrun H. unfold bind at 1. erewrite for_each_appends.
    2:{ intros [[p g] m] o h. body_run.
        instantiate (1 := fun pgm => let '(p, g, m) := pgm in [_; _]).
        cbv beta iota. reflexivity. }
    finish_run.
  - rewrite <- app_assoc. targets2 H.
Qed.

Lemma RMSprop_targets params cs loss (self : RMSprop.t) hb :
  let a := attrs self in
  clr_complete (RMSprop.clr a) = true ->
  exists ups s', RMSprop.get_updates params cs loss (self, hb) = (inr ups, s') /\
    Permutation (map target ups)
      (((if advances (RMSprop.initial_decay a) (RMSprop.clr a)
         then [RMSprop.iterations a] else [])
        ++ [RMSprop.current_lr a])
       ++ flat_map (fun pm : var * var => [fst pm; snd pm])
            (combine params (seq (next_var hb) (List.length params)))).
Proof.
  intros a Hc. unfold a in *.
  destruct (rate_expr_complete (RMSprop.lr a) (RMSprop.decay a) (RMSprop.iterations a)
              (RMSprop.initial_decay a) _ Hc) as [e H].
  unfold a in *. do 2 eexists. split.
  - unfold RMSprop.get_updates. mrun H. unfold bind at 1. erewrite for_each_appends.
    2:{ intros [[p g] m] o h. body_run.
        instantiate (1 := fun pgm => let '(p, g, m) := pgm in [_; _]).
        cbv beta iota. reflexivity. }
    finish_run.
  - rewrite <- app_assoc. targets2 H.
Qed.

Lemma Adagrad_targets params cs loss (self : Adagrad.t) hb :
  let a := attrs self in
  clr_complete (Adagrad.clr a) = true ->
  exists ups s', Adagrad.get_updates params cs loss (self, hb) = (inr ups, s') /\
    Permutation (map target ups)
      (((if advances (Adagrad.initial_decay a) (Adagrad.clr a)
         then [Adagrad.iterations a] else [])
        ++ [Adagrad.current_lr a])
       ++ flat_map (fun pm : var * var => [fst pm; snd pm])
            (combine params (seq (next_var hb) (List.length params)))).
Proof.
  intros a Hc. unfold a in *.
  destruct (rate_expr_complete (Adagrad.lr a) (Adagrad.decay a) (Adagrad.iterations a)
              (Adagrad.initial_decay a) _ Hc) as [e H].
  unfold a in *. do 2 eexists. split.
  - unfold Adagrad.get_updates. mrun H. unfold bind at 1. erewrite for_each_appends.
    2:{ intros [[p g] m] o h. body_run.
        instantiate (1 := fun pgm => let '(p, g, m) := pgm in [_; _]).
        cbv beta iota. reflexivity. }
    finish_run.
  - rewrite <- app_assoc. targets2 H.
Qed.

Lemma perm_rot3 (a b c : var) : Permutation [a; b; c] [c; a; b].
Proof. exact (Permutation_app_comm [a; b] [c]). Qed.

Ltac targets3 :=
  cbn [with_state Optimizer.updates base fst snd];
  rewrite ?map_app, ?counter_ops_targets; cbn [map target app K.update];
  repeat first [apply Permutation_app_head | apply perm_skip];
  apply targets_zip4; [apply get_gradients_length|];
  intros p g m v; cbn [map target K.update adadelta_updates];
  first [apply perm_swap | apply perm_rot3].

Lemma Adadelta_targets params cs loss (self : Adadelta.t) hb :
  let a := attrs self in
  let n := List.length params in
  clr_complete (Adadelta.clr a) = true ->
  exists ups s', Adadelta.get_updates params cs loss (self, hb) = (inr ups, s') /\
    Permutation (map target ups)
      (((if advances (Adadelta.initial_decay a) (Adadelta.clr a)
         then [Adadelta.iterations a] else [])
        ++ [Adadelta.current_lr a])
       ++ flat_map (fun t : var * var * var => [fst (fst t); snd (fst t); snd t])
            (zip3 params (seq (next_var hb) n) (seq (next_var hb + n) n))).
Proof.
  intros a n Hc. unfold a, n in *.
  destruct (rate_expr_complete (Adadelta.lr a) (Adadelta.decay a) (Adadelta.iterations a)
              (Adadelta.initial_decay a) _ Hc) as [e H].
  unfold a in *.
  destruct (Adadelta_get_updates_ok params cs loss self hb e H) as [Hrun _].
  do 2 eexists. split; [exact Hrun|].
  rewrite <- app_assoc. targets3.
Qed.

Lemma Adam_targets params cs loss (self : Adam.t) hb :
  let a := attrs self in
  let n := List.length params in
  clr_complete (Adam.clr a) = true ->
  exists ups s', Adam.get_updates params cs loss (self, hb) = (inr ups, s') /\
    Permutation (map target ups)
      ([Adam.iterations a; Adam.current_lr a]
       ++ flat_map (fun t : var * var * var => [fst (fst t); snd (fst t); snd t])
            (zip3 params (seq (next_var hb) n) (seq (next_var hb + n) n))).
Proof.
  intros a n Hc. unfold a, n in *.
  destruct (rate_expr_complete (Adam.lr a) (Adam.decay a) (Adam.iterations a)
              (Adam.initial_decay a) _ Hc) as [e H].
  unfold a in *. do 2 eexists. split.
  - unfold Adam.get_updates. mrun H. unfold bind at 1. erewrite for_each_appends.
    2:{ intros [[[p g] m] v] o h. body_run.
        instantiate (1 := fun x => let '(p, g, m, v) := x in [_; _; _]).
        cbv beta iota. reflexivity. }
    finish_run.
  - targets3.
Qed.

Lemma Adamax_targets params cs loss (self : Adamax.t) hb :
  let a := attrs self in
  let n := List.length params in
  clr_complete (Adamax.clr a) = true ->
  exists ups s', Adamax.get_updates params cs loss (self, hb) = (inr ups, s') /\
    Permutation (map target ups)
      ([Adamax.iterations a; Adamax.current_lr a]
       ++ flat_map (fun t : var * var * var => [fst (fst t); snd (fst t); snd t])
            (zip3 params (seq (next_var hb) n) (seq (next_var hb + n) n))).
Proof.
  intros a n Hc. unfold a, n in *.
  destruct (rate_expr_complete (Adamax.lr a) (Adamax.decay a) (Adamax.iterations a)
              (Adamax.initial_decay a) _ Hc) as [e H].
  unfold a in *. do 2 eexists. split.
  - unfold Adamax.get_updates. mrun H. unfold bind at 1. erewrite for_each_appends.
    2:{ intros [[[p g] m] v] o h. body_run.
        instantiate (1 := fun x => let '(p, g, m, v) := x in [_; _; _]).
        cbv beta iota. reflexivity. }
    finish_run.
  - targets3.
Qed.

Lemma Nadam_targets params cs loss (self : Nadam.t) hb :
  let a := attrs self in
  let n := List.length params in
  clr_complete (Nadam.clr a) = true ->
  exists ups s', Nadam.get_updates params cs loss (self, hb) = (inr ups, s') /\
    Permutation (map target ups)
      ([Nadam.iterations a; Nadam.current_lr a; Nadam.m_schedule a]
       ++ flat_map (fun t : var * var * var => [fst (fst t); snd (fst t); snd t])
            (zip3 params (seq (next_var hb) n) (seq (next_var hb + n) n))).
Proof.
  intros a n Hc. unfold a, n in *.
  destruct (nadam_rate_complete a Hc) as [e H].
  unfold a in *. unfold nadam_rate, rate_of in H.
  do 2 eexists. split.
  - unfold Nadam.get_updates. mrun H. unfold bind at 1.
    assert (E : forall s : Nadam.t * backend,
              match Nadam.clr (attrs self) with
              | Some c => lift_exn (clr_block c (Nadam.iterations (attrs self))
                                      (read (Nadam.lr (attrs self))))
              | None => ret (read (Nadam.lr (attrs self)))
              end s = (inr e, s)).
    { intros s. destruct (Nadam.clr (attrs self)); [unfold lift_exn; rewrite H|injection H as <-];
        reflexivity. }
    rewrite E. cbv beta iota. mrun H. unfold bind at 1. erewrite for_each_appends.
    2:{ intros [[[p g] m] v] o h. body_run.
        instantiate (1 := fun x => let '(p, g, m, v) := x in [_; _; _]).
        cbv beta iota. reflexivity. }
    finish_run.
  - targets3.
Qed.

Lemma NoDup_batch2 (hdr xs params : list var) (hb : backend) :
  NoDup hdr -> incl hdr xs -> allocated xs hb -> parameters_ok params xs hb ->
  NoDup (hdr ++ flat_map (fun pm : var * var => [fst pm; snd pm])
                  (combine params (seq (next_var hb) (List.length params)))).
Proof.
  intros Hh Hi [_ Hlt] (Hnd & Hp & Hdis).
  apply NoDup_header_body with (params := params) (n0 := next_var hb).
  - exact Hh.
  - rewrite Forall_forall in *. intros x Hx. apply Hlt, Hi, Hx.
  - intros x Hx Hx'. apply (Hdis x Hx'), Hi, Hx.
  - now apply NoDup_targets2.
  - intros x. apply in_targets2.
Qed.

Lemma NoDup_batch3 (hdr xs params : list var) (hb : backend) :
  let n := List.length params in
  NoDup hdr -> incl hdr xs -> allocated xs hb -> parameters_ok params xs hb ->
  NoDup (hdr ++ flat_map (fun t : var * var * var => [fst (fst t); snd (fst t); snd t])
                  (zip3 params (seq (next_var hb) n) (seq (next_var hb + n) n))).
Proof.
  intros n Hh Hi [_ Hlt] (Hnd & Hp & Hdis).
  apply NoDup_header_body with (params := params) (n0 := next_var hb).
  - exact Hh.
  - rewrite Forall_forall in *. intros x Hx. apply Hlt, Hi, Hx.
  - intros x Hx Hx'. apply (Hdis x Hx'), Hi, Hx.
  - apply NoDup_targets3; [assumption|assumption|lia].
  - intros x Hx. apply in_targets3 in Hx. destruct Hx as [Hx|[Hx|Hx]]; [now left|right; lia|right; lia].
Qed.

Ltac distinct L B :=
  intros self a Ha Hp Hc; unfold a in *;
  match goal with
  | |- emits_distinct_targets (?run ?params ?cs ?loss) (_, ?hb) =>
      let ups := fresh "ups" in
      let s' := fresh "s'" in
      let Hrun := fresh "Hrun" in
      let Hperm := fresh "Hperm" in
      destruct (L params cs loss self hb Hc) as [ups [s' [Hrun Hperm]]];
      apply (distinct_targets_batch _ _ _ _ Hrun);
      eapply Permutation_NoDup; [apply Permutation_sym; exact Hperm|]
  end;
  eapply B; [| |exact Ha|exact Hp];
  [ handles Ha;
    try match goal with |- context [advances ?d ?c] => destruct (advances d c) end;
    repeat constructor; cbn [In app]; intuition congruence
  | unfold SGD_handles, RMSprop_handles, Adagrad_handles, Adadelta_handles,
      Adam_handles, Adamax_handles, Nadam_handles;
    try match goal with |- context [advances ?d ?c] => destruct (advances d c) end;
    intros x Hx; cbn [In app] in *; intuition ].

(** X17: with the handles of the object allocated and the parameters
    distinct existing variables that are none of these handles,
    [get_updates] of every class returns a batch that assigns no variable
    twice: every variable it writes gets the right-hand side of its one
    update, evaluated in the store of before the step, and the batch gives
    the same store in whatever order its updates are listed. *)
Theorem get_updates_assigns_once (params : list var) (cs : constraints_t)
  (loss : K.loss_t) (hb : backend) :
  (forall self : SGD.t, let a := attrs self in
     allocated (SGD_handles a) hb -> parameters_ok params (SGD_handles a) hb ->
     clr_complete (SGD.clr a) = true ->
     emits_distinct_targets (SGD.get_updates params cs loss) (self, hb)) /\
  (forall self : RMSprop.t, let a := attrs self in
     allocated (RMSprop_handles a) hb -> parameters_ok params (RMSprop_handles a) hb ->
     clr_complete (RMSprop.clr a) = true ->
     emits_distinct_targets (RMSprop.get_updates params cs loss) (self, hb)) /\
  (forall self : Adagrad.t, let a := attrs self in
     allocated (Adagrad_handles a) hb -> parameters_ok params (Adagrad_handles a) hb ->
     clr_complete (Adagrad.clr a) = true ->
     emits_distinct_targets (Adagrad.get_updates params cs loss) (self, hb)) /\
  (forall self : Adadelta.t, let a := attrs self in
     allocated (Adadelta_handles a) hb -> parameters_ok params (Adadelta_handles a) hb ->
     clr_complete (Adadelta.clr a) = true ->
     emits_distinct_targets (Adadelta.get_updates params cs loss) (self, hb)) /\
  (forall self : Adam.t, let a := attrs self in
     allocated (Adam_handles a) hb -> parameters_ok params (Adam_handles a) hb ->
     clr_complete (Adam.clr a) = true ->
     emits_distinct_targets (Adam.get_updates params cs loss) (self, hb)) /\
  (forall self : Adamax.t, let a := attrs self in
     allocated (Adamax_handles a) hb -> parameters_ok params (Adamax_handles a) hb ->
     clr_complete (Adamax.clr a) = true ->
     emits_distinct_targets (Adamax.get_updates params cs loss) (self, hb)) /\
  (forall self : Nadam.t, let a := attrs self in
     allocated (Nadam_handles a) hb -> parameters_ok params (Nadam_handles a) hb ->
     clr_complete (Nadam.clr a) = true ->
     emits_distinct_targets (Nadam.get_updates params cs loss) (self, hb)).
Proof.
  repeat match goal with |- _ /\ _ => split end.
  - distinct SGD_targets NoDup_batch2.
  - distinct RMSprop_targets NoDup_batch2.
  - distinct Adagrad_targets NoDup_batch2.
  - distinct Adadelta_targets NoDup_batch3.
  - distinct Adam_targets NoDup_batch3.
  - distinct Adamax_targets NoDup_batch3.
  - distinct Nadam_targets NoDup_batch3.
Qed.

Lemma get_updates_assigns_once_witness :
  emits_distinct_targets (Adam.get_updates [0%nat] [] (fun _ => const 0.5))
    (adam_default, store_adam_default).
Proof.
  apply (proj1 (proj2 (proj2 (proj2 (proj2
           (get_updates_assigns_once [0%nat] [] (fun _ => const 0.5)
              store_adam_default))))) adam_default).
  - allocated_example.
  - split; [repeat constructor; cbn; tauto|].
    split; [repeat constructor; cbn; lia|].
    cbn. intros p [<-|[]]. intuition lia.
  - reflexivity.
Defined.

(** ** The update rules on values *)

Lemma SGD_get_updates_body params cs loss (self : SGD.t) hb e :
  let a := attrs self in
  rate_expr (SGD.lr a) (SGD.decay a) (SGD.iterations a) (SGD.initial_decay a)
    (SGD.clr a) = inr e ->
  exists s',
    SGD.get_updates params cs loss (self, hb) =
    (inr (counter_ops (SGD.initial_decay a) (SGD.clr a) (SGD.iterations a)
          ++ [Update (SGD.current_lr a) e]
          ++ flat_map (sgd_updates a cs e)
               (zip3 params (Optimizer.get_gradients (base self) loss params)
                  (seq (next_var hb) (List.length params)))), s').
Proof.
  intros a H. subst a. unfold SGD.get_updates. eexists.
  mrun H. unfold bind at 1.
  erewrite (for_each_appends _ (sgd_updates (attrs self) cs e)).
  2:{ intros [[p g] m] o h. body_run. reflexivity. }
  finish_run.
Qed.

Lemma nth_error_zip3 {A B C} (l1 : list A) (l2 : list B) (l3 : list C) i a b c :
  nth_error l1 i = Some a -> nth_error l2 i = Some b -> nth_error l3 i = Some c ->
  In (a, b, c) (zip3 l1 l2 l3).
Proof.
  intros H1 H2 H3. unfold zip3. apply nth_error_In with (n := i).
  apply nth_error_combine. split; [|exact H3]. apply nth_error_combine. auto.
Qed.

Lemma nth_error_seq_some a n i : (i < n)%nat -> nth_error (seq a n) i = Some (a + i)%nat.
Proof.
  revert a i. induction n as [|n IH]; intros a [|i] Hi; cbn; try lia.
  - f_equal. lia.
  - rewrite IH by lia. f_equal. lia.
Qed.

Lemma plain_step_lists r dp dg dm :
  List.length dg = List.length dp -> List.length dm = List.length dp ->
  zipWith Rplus dp
    (zipWith Rminus (map (Rmult 0) dm) (map (Rmult r) dg))
  = zipWith Rminus dp (map (Rmult r) dg).
Proof.
  revert dg dm. induction dp as [|x dp IH]; intros [|y dg] [|z dm] Hg Hm;
    try discriminate; [reflexivity|].
  cbn. f_equal; [ring|]. apply IH; cbn in *; lia.
Qed.

Lemma nesterov_step_lists r dp dg dm :
  List.length dg = List.length dp -> List.length dm = List.length dp ->
  zipWith Rminus
    (zipWith Rplus dp
       (map (Rmult 0) (zipWith Rminus (map (Rmult 0) dm) (map (Rmult r) dg))))
    (map (Rmult r) dg)
  = zipWith Rminus dp (map (Rmult r) dg).
Proof.
  revert dg dm. induction dp as [|x dp IH]; intros [|y dg] [|z dm] Hg Hm;
    try discriminate; [reflexivity|].
  cbn. f_equal; [ring|]. apply IH; cbn in *; lia.
Qed.

Lemma sgd_step_value (nesterov : bool) (P G Mt : tensor) (r : R) s :
  like s P -> like s G -> like s Mt ->
  (if nesterov
   then (P + scalar 0 * (scalar 0 * Mt - scalar r * G) - scalar r * G)%T
   else (P + (scalar 0 * Mt - scalar r * G))%T)
  = (P - scalar r * G)%T.
Proof.
  destruct P as [sp dp], G as [sg dg], Mt as [sm dm]. unfold like. cbn [shape data].
  intros [-> Lp] [-> Lg] [-> Lm].
  destruct s as [|k s].
  - cbn in Lp, Lg, Lm.
    destruct dp as [|x [|? ?]]; try discriminate.
    destruct dg as [|y [|? ?]]; try discriminate.
    destruct dm as [|z [|? ?]]; try discriminate.
    destruct nesterov; cbn; unfold item; cbn; do 2 f_equal; ring.
  - unfold tzip, scalar, item. cbn [shape data hd].
    destruct nesterov; f_equal.
    + apply nesterov_step_lists; congruence.
    + apply plain_step_lists; congruence.
Qed.

Lemma SGD_batch params cs loss (self : SGD.t) hb :
  let a := attrs self in
  allocated (SGD_handles a) hb -> parameters_ok params (SGD_handles a) hb ->
  clr_complete (SGD.clr a) = true ->
  exists e s',
    let ups := counter_ops (SGD.initial_decay a) (SGD.clr a) (SGD.iterations a)
               ++ [Update (SGD.current_lr a) e]
               ++ flat_map (sgd_updates a cs e)
                    (zip3 params (Optimizer.get_gradients (base self) loss params)
                       (seq (next_var hb) (List.length params))) in
    SGD.get_updates params cs loss (self, hb) = (inr ups, s') /\
    NoDup (map target ups).
Proof.
  intros a Ha Hp Hc. unfold a in *.
  destruct (rate_expr_complete (SGD.lr a) (SGD.decay a) (SGD.iterations a)
              (SGD.initial_decay a) _ Hc) as [e He]. unfold a in *.
  destruct (SGD_get_updates_body params cs loss self hb e He) as [s' Hrun].
  destruct (SGD_targets params cs loss self hb Hc) as [ups' [s'' [Hrun' Hperm]]].
  rewrite Hrun in Hrun'. injection Hrun' as Hups _.
  exists e, s'. split; [exact Hrun|]. cbn [app]. rewrite Hups.
  eapply Permutation_NoDup; [apply Permutation_sym; exact Hperm|].
  eapply NoDup_batch2; [| |exact Ha|exact Hp].
  - handles Ha. destruct (advances _ _); repeat constructor; cbn [In app];
      intuition congruence.
  - unfold SGD_handles. destruct (advances _ _); intros x Hx; cbn [In app] in *;
      intuition.
Qed.

(** X18: in a store where the momentum variable of an SGD object is 0, a
    step of the batch of [get_updates] is plain gradient descent, with and
    without Nesterov momentum: every parameter without a constraint becomes
    [p - r * g], where [g] is its (clipped) gradient and [r] the rate the
    same step records in [current_lr]. *)
Theorem sgd_without_momentum (params : list var) (cs : constraints_t)
  (loss : K.loss_t) (hb : backend) (self : SGD.t) :
  allocated (SGD_handles (attrs self)) hb ->
  parameters_ok params (SGD_handles (attrs self)) hb ->
  clr_complete (SGD.clr (attrs self)) = true ->
  plain_descent params cs loss self hb.
Proof.
  intros Ha Hp Hc.
  destruct (SGD_batch params cs loss self hb Ha Hp Hc) as [e [s' [Hrun Hnd]]].
  cbv zeta in Hrun, Hnd. unfold plain_descent. cbv zeta.
  do 2 eexists. split; [exact Hrun|].
  intros h i p g r s Hi Hg Hcs Hmom Hcur Lp Lg Lm.
  match type of Hnd with NoDup (map target ?l) => set (ups := l) in * end.
  assert (He : e h = scalar r).
  { rewrite <- Hcur. symmetry.
    apply (run_updates_distinct ups (Update (SGD.current_lr (attrs self)) e) h Hnd).
    subst ups. apply in_or_app. right. now left. }
  assert (Hlen : (i < List.length params)%nat).
  { apply nth_error_Some. congruence. }
  assert (Hin : In (Update p (apply_constraint cs p
                      (if SGD.nesterov (attrs self)
                       then (!p + !(SGD.momentum (attrs self))
                                  * (!(SGD.momentum (attrs self)) * !(next_var hb + i)%nat
                                     - e * g) - e * g)%E
                       else (!p + (!(SGD.momentum (attrs self)) * !(next_var hb + i)%nat
                                   - e * g))%E))) ups).
  { subst ups. apply in_or_app. right. right. apply in_flat_map.
    exists (p, g, (next_var hb + i)%nat). split.
    - apply nth_error_zip3 with (i := i); auto. now apply nth_error_seq_some.
    - cbn. right. now left. }
  pose proof (run_updates_distinct ups _ h Hnd Hin) as Hv. cbn [target new_value] in Hv.
  rewrite Hv.
  unfold apply_constraint. rewrite Hcs.
  destruct (SGD.nesterov (attrs self)); unfold lift2, read; rewrite Hmom, He.
  - apply (sgd_step_value true _ _ _ r s Lp Lg Lm).
  - apply (sgd_step_value false _ _ _ r s Lp Lg Lm).
Qed.

Lemma sgd_without_momentum_witness :
  exists ups s',
    SGD.get_updates [0%nat] [] (fun _ => const 0.5) (sgd_default, store_sgd_default)
    = (inr ups, s') /\
    value (run_updates ups store_sgd_default) 0%nat
    = (scalar 2 - scalar 0.01 * scalar 0.5)%T.
Proof.
  destruct (sgd_without_momentum [0%nat] [] (fun _ => const 0.5) store_sgd_default
              sgd_default) as [ups [s' [Hrun H]]].
  - allocated_example.
  - split; [repeat constructor; cbn; tauto|].
    split; [repeat constructor; cbn; lia|].
    cbn. intros p [<-|[]]. intuition lia.
  - reflexivity.
  - exists ups, s'. split; [exact Hrun|].
    apply (H store_sgd_default 0%nat 0%nat (const 0.5) 0.01 []); try reflexivity.
    + assert (He : rate_expr 2%nat 4%nat 1%nat 0 None = inr (read 2%nat)).
      { unfold rate_expr, rate_of. now rewrite Rgtb_false by lra. }
      destruct (SGD_get_updates_body [0%nat] [] (fun _ => const 0.5) sgd_default
                  store_sgd_default _ He) as [s'' Hrun'].
      rewrite Hrun' in Hrun. injection Hrun as <- _.
      cbn [attrs sgd_default SGD.initial_decay SGD.clr SGD.iterations SGD.current_lr].
      unfold counter_ops. rewrite Rgtb_false by lra. reflexivity.
    + split; reflexivity.
    + split; reflexivity.
    + split; reflexivity.
Defined.

(** ** The accumulators of squared gradients *)

Lemma nonneg_square (t : tensor) : nonneg (tmap (fun x => x * x) t).
Proof.
  unfold nonneg, tmap. cbn. apply Forall_forall. intros x Hx.
  apply in_map_iff in Hx. destruct Hx as [y [<- _]]. nra.
Qed.

Lemma nonneg_item (t : tensor) : nonneg t -> 0 <= item t.
Proof.
  unfold nonneg, item. destruct (data t) as [|x r]; cbn; [lra|].
  intros H. now inversion H.
Qed.

Lemma Forall_zipWith (f : R -> R -> R) (P : R -> Prop) l l' :
  (forall x y, In x l -> In y l' -> P (f x y)) -> Forall P (zipWith f l l').
Proof.
  revert l'. induction l as [|x l IH]; intros [|y l'] H; cbn; constructor.
  - apply H; now left.
  - apply IH. intros a b Ha Hb. apply H; now right.
Qed.

Lemma Forall_tzip (f : R -> R -> R) (P : R -> Prop) (a b : tensor) :
  (forall x y, (In x (data a) \/ x = item a) -> (In y (data b) \/ y = item b) ->
               P (f x y)) ->
  Forall P (data (tzip f a b)).
Proof.
  intros H. unfold tzip. destruct (shape b) as [|? ?]; [|destruct (shape a) as [|? ?]];
    cbn [data].
  - apply Forall_forall. intros z Hz. apply in_map_iff in Hz.
    destruct Hz as [x [<- Hx]]. apply H; auto.
  - apply Forall_forall. intros z Hz. apply in_map_iff in Hz.
    destruct Hz as [y [<- Hy]]. apply H; auto.
  - apply Forall_zipWith. intros x y Hx Hy. apply H; auto.
Qed.

Lemma nonneg_element (t : tensor) x : nonneg t -> In x (data t) \/ x = item t -> 0 <= x.
Proof.
  intros Ht [Hx| ->]; [|now apply nonneg_item].
  unfold nonneg in Ht. rewrite Forall_forall in Ht. auto.
Qed.

Lemma nonneg_plus (a b : tensor) : nonneg a -> nonneg b -> nonneg (a + b)%T.
Proof.
  intros Ha Hb. apply Forall_tzip. intros x y Hx Hy.
  pose proof (nonneg_element a x Ha Hx). pose proof (nonneg_element b y Hb Hy). lra.
Qed.

Lemma nonneg_scale (c : R) (a : tensor) : 0 <= c -> nonneg a -> nonneg (scalar c * a)%T.
Proof.
  intros Hc Ha. apply Forall_tzip. intros x y Hx Hy.
  pose proof (nonneg_element a y Ha Hy).
  assert (x = c) as -> by (destruct Hx as [[<-|[]]|Hx]; [reflexivity|exact Hx]).
  now apply Rmult_le_pos.
Qed.

Lemma nonneg_abs (t : tensor) : nonneg (tmap Rabs t).
Proof.
  unfold nonneg, tmap. cbn. apply Forall_forall. intros x Hx.
  apply in_map_iff in Hx. destruct Hx as [y [<- _]]. apply Rabs_pos.
Qed.

Lemma nonneg_max (a b : tensor) : nonneg b -> nonneg (tzip Rmax a b).
Proof.
  intros Hb. apply Forall_tzip. intros x y _ Hy.
  pose proof (nonneg_element b y Hb Hy). pose proof (Rmax_r x y). lra.
Qed.

(** A convex combination of an accumulator and a square. *)
Lemma nonneg_average (rho : R) (a g : tensor) :
  0 <= rho <= 1 -> nonneg a ->
  nonneg (scalar rho * a + (scalar 1 - scalar rho) * tsquare g)%T.
Proof.
  intros Hr Ha. apply nonneg_plus; [apply nonneg_scale; [lra|exact Ha]|].
  change (scalar 1 - scalar rho)%T with (scalar (1 - rho)).
  apply nonneg_scale; [lra|apply nonneg_square].
Qed.

Lemma nth_error_below {A} (l : list A) i : (i < List.length l)%nat -> exists x, nth_error l i = Some x.
Proof.
  intros H. destruct (nth_error l i) eqn:E; [eauto|].
  apply nth_error_None in E. lia.
Qed.

Lemma nth_error_zip4 {A B C D} (l1 : list A) (l2 : list B) (l3 : list C) (l4 : list D)
  i a b c d :
  nth_error l1 i = Some a -> nth_error l2 i = Some b -> nth_error l3 i = Some c ->
  nth_error l4 i = Some d -> In (a, b, c, d) (zip4 l1 l2 l3 l4).
Proof.
  intros H1 H2 H3 H4. unfold zip4. apply nth_error_In with (n := i).
  apply nth_error_combine. split; [|exact H4].
  apply nth_error_combine. split; [|exact H3]. apply nth_error_combine. auto.
Qed.

Lemma parameter_and_gradient (self : Optimizer.t) loss params i :
  (i < List.length params)%nat ->
  exists p g, nth_error params i = Some p /\
              nth_error (Optimizer.get_gradients self loss params) i = Some g.
Proof.
  intros Hi. destruct (nth_error_below params i Hi) as [p Hp].
  destruct (nth_error_below (Optimizer.get_gradients self loss params) i) as [g Hg].
  { now rewrite get_gradients_length. }
  eauto.
Qed.

Ltac in_body :=
  repeat first [apply in_cons | (apply in_or_app; right)];
  apply in_flat_map.

Ltac batch_distinct B Hperm Ha Hp :=
  eapply Permutation_NoDup; [apply Permutation_sym; exact Hperm|];
  eapply B; [| |exact Ha|exact Hp];
  [ handles Ha;
    try match goal with |- context [advances ?d ?c] => destruct (advances d c) end;
    repeat constructor; cbn [In app]; intuition congruence
  | unfold SGD_handles, RMSprop_handles, Adagrad_handles, Adadelta_handles,
      Adam_handles, Adamax_handles, Nadam_handles;
    try match goal with |- context [advances ?d ?c] => destruct (advances d c) end;
    intros x Hx; cbn [In app] in *; intuition ].

Ltac run3 H :=
  mrun H; unfold bind at 1; erewrite for_each_appends;
  [ finish_run
  | intros [[p g] m] o h; body_run;
    instantiate (1 := fun pgm => let '(p, g, m) := pgm in [_; _]);
    cbv beta iota; reflexivity ].

Ltac run4 H :=
  mrun H; unfold bind at 1; erewrite for_each_appends;
  [ finish_run
  | intros [[[p g] m] v] o h; body_run;
    instantiate (1 := fun x => let '(p, g, m, v) := x in [_; _; _]);
    cbv beta iota; reflexivity ].

Lemma Adagrad_accumulator params cs loss (self : Adagrad.t) hb :
  let a := attrs self in
  allocated (Adagrad_handles a) hb -> parameters_ok params (Adagrad_handles a) hb ->
  clr_complete (Adagrad.clr a) = true ->
  exists ups s',
    Adagrad.get_updates params cs loss (self, hb) = (inr ups, s') /\
    forall h i, (i < List.length params)%nat ->
      exists g : texpr,
        value (run_updates ups h) (next_var hb + i)%nat
        = (value h (next_var hb + i)%nat + tsquare (g h))%T.
Proof.
  intros a Ha Hp Hc. unfold a in *.
  destruct (rate_expr_complete (Adagrad.lr a) (Adagrad.decay a) (Adagrad.iterations a)
              (Adagrad.initial_decay a) _ Hc) as [e H]. unfold a in *.
  destruct (Adagrad_targets params cs loss self hb Hc) as [ups [s' [Hrun Hperm]]].
  assert (Hnd : NoDup (map target ups)) by batch_distinct NoDup_batch2 Hperm Ha Hp.
  eassert (Hrun' : Adagrad.get_updates params cs loss (self, hb) = (inr _, _)).
  { unfold Adagrad.get_updates. run3 H. }
  rewrite Hrun in Hrun'. injection Hrun' as Hups _.
  exists ups, s'. split; [exact Hrun|].
  intros h i Hi.
  destruct (parameter_and_gradient (base self) loss params i Hi) as [p [g [Hpi Hgi]]].
  exists g.
  apply (run_updates_distinct ups
           (Update (next_var hb + i)%nat (!(next_var hb + i)%nat + K.square g)%E) h Hnd).
  rewrite Hups. in_body. exists (p, g, (next_var hb + i)%nat). split.
  - apply nth_error_zip3 with (i := i); auto. now apply nth_error_seq_some.
  - cbn. left. reflexivity.
Qed.

Lemma RMSprop_accumulator params cs loss (self : RMSprop.t) hb :
  let a := attrs self in
  allocated (RMSprop_handles a) hb -> parameters_ok params (RMSprop_handles a) hb ->
  clr_complete (RMSprop.clr a) = true ->
  exists ups s',
    RMSprop.get_updates params cs loss (self, hb) = (inr ups, s') /\
    forall h i, (i < List.length params)%nat ->
      exists g : texpr,
        value (run_updates ups h) (next_var hb + i)%nat
        = (value h (RMSprop.rho a) * value h (next_var hb + i)%nat
           + (scalar 1 - value h (RMSprop.rho a)) * tsquare (g h))%T.
Proof.
  intros a Ha Hp Hc. unfold a in *.
  destruct (rate_expr_complete (RMSprop.lr a) (RMSprop.decay a) (RMSprop.iterations a)
              (RMSprop.initial_decay a) _ Hc) as [e H]. unfold a in *.
  destruct (RMSprop_targets params cs loss self hb Hc) as [ups [s' [Hrun Hperm]]].
  assert (Hnd : NoDup (map target ups)) by batch_distinct NoDup_batch2 Hperm Ha Hp.
  eassert (Hrun' : RMSprop.get_updates params cs loss (self, hb) = (inr _, _)).
  { unfold RMSprop.get_updates. run3 H. }
  rewrite Hrun in Hrun'. injection Hrun' as Hups _.
  exists ups, s'. split; [exact Hrun|].
  intros h i Hi.
  destruct (parameter_and_gradient (base self) loss params i Hi) as [p [g [Hpi Hgi]]].
  exists g.
  apply (run_updates_distinct ups
           (Update (next_var hb + i)%nat
              (!(RMSprop.rho (attrs self)) * !(next_var hb + i)%nat
               + (#1 - !(RMSprop.rho (attrs self))) * K.square g)%E) h Hnd).
  rewrite Hups. in_body. exists (p, g, (next_var hb + i)%nat). split.
  - apply nth_error_zip3 with (i := i); auto. now apply nth_error_seq_some.
  - cbn. left. reflexivity.
Qed.

Lemma Adadelta_accumulator params cs loss (self : Adadelta.t) hb :
  let a := attrs self in
  let n := List.length params in
  allocated (Adadelta_handles a) hb -> parameters_ok params (Adadelta_handles a) hb ->
  clr_complete (Adadelta.clr a) = true ->
  exists ups s',
    Adadelta.get_updates params cs loss (self, hb) = (inr ups, s') /\
    forall h i, (i < n)%nat ->
      exists (g : texpr) (u : tensor),
        value (run_updates ups h) (next_var hb + i)%nat
        = (scalar (Adadelta.rho a) * value h (next_var hb + i)%nat
           + scalar (1 - Adadelta.rho a) * tsquare (g h))%T /\
        value (run_updates ups h) (next_var hb + n + i)%nat
        = (scalar (Adadelta.rho a) * value h (next_var hb + n + i)%nat
           + scalar (1 - Adadelta.rho a) * tsquare u)%T.
Proof.
  intros a n Ha Hp Hc. unfold a, n in *.
  destruct (rate_expr_complete (Adadelta.lr a) (Adadelta.decay a) (Adadelta.iterations a)
              (Adadelta.initial_decay a) _ Hc) as [e H]. unfold a in *.
  destruct (Adadelta_targets params cs loss self hb Hc) as [ups [s' [Hrun Hperm]]].
  assert (Hnd : NoDup (map target ups)) by batch_distinct NoDup_batch3 Hperm Ha Hp.
  destruct (Adadelta_get_updates_ok params cs loss self hb e H) as [Hrun' _].
  rewrite Hrun in Hrun'. injection Hrun' as Hups _.
  exists ups, s'. split; [exact Hrun|].
  intros h i Hi.
  destruct (parameter_and_gradient (base self) loss params i Hi) as [p [g [Hpi Hgi]]].
  assert (Hin : In (p, g, (next_var hb + i)%nat, (next_var hb + List.length params + i)%nat)
                  (zip4 params (Optimizer.get_gradients (base self) loss params)
                     (seq (next_var hb) (List.length params))
                     (seq (next_var hb + List.length params) (List.length params)))).
  { apply nth_error_zip4 with (i := i); auto; now apply nth_error_seq_some. }
  exists g. eexists. split.
  - apply (run_updates_distinct ups
             (Update (next_var hb + i)%nat
                (#(Adadelta.rho (attrs self)) * !(next_var hb + i)%nat
                 + #(1 - Adadelta.rho (attrs self)) * K.square g)%E) h Hnd).
    rewrite Hups. in_body. eexists. split; [exact Hin|]. cbn. left. reflexivity.
  - match goal with
    | |- _ = (_ + _ * tsquare ?u)%T =>
        unify u (Adadelta.update_term (attrs self) g
                   (#(Adadelta.rho (attrs self)) * !(next_var hb + i)%nat
                    + #(1 - Adadelta.rho (attrs self)) * K.square g)%E
                   (next_var hb + List.length params + i)%nat h)
    end.
    apply (run_updates_distinct ups
             (Update (next_var hb + List.length params + i)%nat
                (#(Adadelta.rho (attrs self)) * !(next_var hb + List.length params + i)%nat
                 + #(1 - Adadelta.rho (attrs self))
                   * K.square (Adadelta.update_term (attrs self) g
                                 (#(Adadelta.rho (attrs self)) * !(next_var hb + i)%nat
                                  + #(1 - Adadelta.rho (attrs self)) * K.square g)%E
                                 (next_var hb + List.length params + i)%nat))%E) h Hnd).
    rewrite Hups. in_body. eexists. split; [exact Hin|]. cbn. right. right. left. reflexivity.
Qed.

Lemma Adam_accumulator params cs loss (self : Adam.t) hb :
  let a := attrs self in
  let n := List.length params in
  allocated (Adam_handles a) hb -> parameters_ok params (Adam_handles a) hb ->
  clr_complete (Adam.clr a) = true ->
  exists ups s',
    Adam.get_updates params cs loss (self, hb) = (inr ups, s') /\
    forall h i, (i < n)%nat ->
      exists g : texpr,
        value (run_updates ups h) (next_var hb + n + i)%nat
        = (value h (Adam.beta_2 a) * value h (next_var hb + n + i)%nat
           + (scalar 1 - value h (Adam.beta_2 a)) * tsquare (g h))%T.
Proof.
  intros a n Ha Hp Hc. unfold a, n in *.
  destruct (rate_expr_complete (Adam.lr a) (Adam.decay a) (Adam.iterations a)
              (Adam.initial_decay a) _ Hc) as [e H]. unfold a in *.
  destruct (Adam_targets params cs loss self hb Hc) as [ups [s' [Hrun Hperm]]].
  assert (Hnd : NoDup (map target ups)) by batch_distinct NoDup_batch3 Hperm Ha Hp.
  eassert (Hrun' : Adam.get_updates params cs loss (self, hb) = (inr _, _)).
  { unfold Adam.get_updates. run4 H. }
  rewrite Hrun in Hrun'. injection Hrun' as Hups _.
  exists ups, s'. split; [exact Hrun|].
  intros h i Hi.
  destruct (parameter_and_gradient (base self) loss params i Hi) as [p [g [Hpi Hgi]]].
  exists g.
  apply (run_updates_distinct ups
           (Update (next_var hb + List.length params + i)%nat
              (!(Adam.beta_2 (attrs self)) * !(next_var hb + List.length params + i)%nat
               + (#1 - !(Adam.beta_2 (attrs self))) * K.square g)%E) h Hnd).
  rewrite Hups. in_body.
  exists (p, g, (next_var hb + i)%nat, (next_var hb + List.length params + i)%nat). split.
  - apply nth_error_zip4 with (i := i); auto; now apply nth_error_seq_some.
  - cbn. right. left. reflexivity.
Qed.

Lemma Adamax_accumulator params cs loss (self : Adamax.t) hb :
  let a := attrs self in
  let n := List.length params in
  allocated (Adamax_handles a) hb -> parameters_ok params (Adamax_handles a) hb ->
  clr_complete (Adamax.clr a) = true ->
  exists ups s',
    Adamax.get_updates params cs loss (self, hb) = (inr ups, s') /\
    forall h i, (i < n)%nat ->
      exists g : texpr,
        value (run_updates ups h) (next_var hb + n + i)%nat
        = tzip Rmax (value h (Adamax.beta_2 a) * value h (next_var hb + n + i)%nat)%T
            (tmap Rabs (g h)).
Proof.
  intros a n Ha Hp Hc. unfold a, n in *.
  destruct (rate_expr_complete (Adamax.lr a) (Adamax.decay a) (Adamax.iterations a)
              (Adamax.initial_decay a) _ Hc) as [e H]. unfold a in *.
  destruct (Adamax_targets params cs loss self hb Hc) as [ups [s' [Hrun Hperm]]].
  assert (Hnd : NoDup (map target ups)) by batch_distinct NoDup_batch3 Hperm Ha Hp.
  eassert (Hrun' : Adamax.get_updates params cs loss (self, hb) = (inr _, _)).
  { unfold Adamax.get_updates. run4 H. }
  rewrite Hrun in Hrun'. injection Hrun' as Hups _.
  exists ups, s'. split; [exact Hrun|].
  intros h i Hi.
  destruct (parameter_and_gradient (base self) loss params i Hi) as [p [g [Hpi Hgi]]].
  exists g.
  apply (run_updates_distinct ups
           (Update (next_var hb + List.length params + i)%nat
              (K.maximum
                 (!(Adamax.beta_2 (attrs self)) * !(next_var hb + List.length params + i)%nat)%E
                 (K.abs g))) h Hnd).
  rewrite Hups. in_body.
  exists (p, g, (next_var hb + i)%nat, (next_var hb + List.length params + i)%nat). split.
  - apply nth_error_zip4 with (i := i); auto; now apply nth_error_seq_some.
  - cbn. right. left. reflexivity.
Qed.

Lemma Nadam_accumulator params cs loss (self : Nadam.t) hb :
  let a := attrs self in
  let n := List.length params in
  allocated (Nadam_handles a) hb -> parameters_ok params (Nadam_handles a) hb ->
  clr_complete (Nadam.clr a) = true ->
  exists ups s',
    Nadam.get_updates params cs loss (self, hb) = (inr ups, s') /\
    forall h i, (i < n)%nat ->
      exists g : texpr,
        value (run_updates ups h) (next_var hb + n + i)%nat
        = (value h (Nadam.beta_2 a) * value h (next_var hb + n + i)%nat
           + (scalar 1 - value h (Nadam.beta_2 a)) * tsquare (g h))%T.
Proof.
  intros a n Ha Hp Hc. unfold a, n in *.
  destruct (nadam_rate_complete a Hc) as [e H]. unfold a in *.
  unfold nadam_rate, rate_of in H.
  destruct (Nadam_targets params cs loss self hb Hc) as [ups [s' [Hrun Hperm]]].
  assert (Hnd : NoDup (map target ups)) by batch_distinct NoDup_batch3 Hperm Ha Hp.
  eassert (Hrun' : Nadam.get_updates params cs loss (self, hb) = (inr _, _)).
  { unfold Nadam.get_updates. mrun H. unfold bind at 1.
    assert (E : forall s : Nadam.t * backend,
              match Nadam.clr (attrs self) with
              | Some c => lift_exn (clr_block c (Nadam.iterations (attrs self))
                                      (read (Nadam.lr (attrs self))))
              | None => ret (read (Nadam.lr (attrs self)))
              end s = (inr e, s)).
    { intros s. destruct (Nadam.clr (attrs self)); [unfold lift_exn; rewrite H|injection H as <-];
        reflexivity. }
    rewrite E. cbv beta iota. run4 H. }
  rewrite Hrun in Hrun'. injection Hrun' as Hups _.
  exists ups, s'. split; [exact Hrun|].
  intros h i Hi.
  destruct (parameter_and_gradient (base self) loss params i Hi) as [p [g [Hpi Hgi]]].
  exists g.
  apply (run_updates_distinct ups
           (Update (next_var hb + List.length params + i)%nat
              (!(Nadam.beta_2 (attrs self)) * !(next_var hb + List.length params + i)%nat
               + (#1 - !(Nadam.beta_2 (attrs self))) * K.square g)%E) h Hnd).
  rewrite Hups. in_body.
  exists (p, g, (next_var hb + i)%nat, (next_var hb + List.length params + i)%nat). split.
  - apply nth_error_zip4 with (i := i); auto; now apply nth_error_seq_some.
  - cbn. right. left. reflexivity.
Qed.

(** X19: a step never makes an accumulator of squared gradients negative.
    The accumulators of RMSprop, of Adagrad, both accumulator lists of
    Adadelta and the second-moment accumulators of Adam and Nadam stay
    non-negative when the averaging coefficient ([rho], [beta_2]) lies
    between 0 and 1; the infinity-norm accumulators of Adamax are
    non-negative after every step, whatever they held before. *)
Theorem accumulators_stay_nonnegative (params : list var) (cs : constraints_t)
  (loss : K.loss_t) (hb : backend) :
  let n := List.length params in
  (forall self : RMSprop.t, let a := attrs self in
     allocated (RMSprop_handles a) hb -> parameters_ok params (RMSprop_handles a) hb ->
     clr_complete (RMSprop.clr a) = true ->
     keeps_nonneg (RMSprop.get_updates params cs loss) (self, hb)
       (fun i => (next_var hb + i)%nat) n (fun h => unit_scalar h (RMSprop.rho a))) /\
  (forall self : Adagrad.t, let a := attrs self in
     allocated (Adagrad_handles a) hb -> parameters_ok params (Adagrad_handles a) hb ->
     clr_complete (Adagrad.clr a) = true ->
     keeps_nonneg (Adagrad.get_updates params cs loss) (self, hb)
       (fun i => (next_var hb + i)%nat) n (fun _ => True)) /\
  (forall self : Adadelta.t, let a := attrs self in
     allocated (Adadelta_handles a) hb -> parameters_ok params (Adadelta_handles a) hb ->
     clr_complete (Adadelta.clr a) = true ->
     0 <= Adadelta.rho a <= 1 ->
     keeps_nonneg (Adadelta.get_updates params cs loss) (self, hb)
       (fun i => (next_var hb + i)%nat) (2 * n) (fun _ => True)) /\
  (forall self : Adam.t, let a := attrs self in
     allocated (Adam_handles a) hb -> parameters_ok params (Adam_handles a) hb ->
     clr_complete (Adam.clr a) = true ->
     keeps_nonneg (Adam.get_updates params cs loss) (self, hb)
       (fun i => (next_var hb + n + i)%nat) n (fun h => unit_scalar h (Adam.beta_2 a))) /\
  (forall self : Adamax.t, let a := attrs self in
     allocated (Adamax_handles a) hb -> parameters_ok params (Adamax_handles a) hb ->
     clr_complete (Adamax.clr a) = true ->
     makes_nonneg (Adamax.get_updates params cs loss) (self, hb)
       (fun i => (next_var hb + n + i)%nat) n) /\
  (forall self : Nadam.t, let a := attrs self in
     allocated (Nadam_handles a) hb -> parameters_ok params (Nadam_handles a) hb ->
     clr_complete (Nadam.clr a) = true ->
     keeps_nonneg (Nadam.get_updates params cs loss) (self, hb)
       (fun i => (next_var hb + n + i)%nat) n (fun h => unit_scalar h (Nadam.beta_2 a))).
Proof.
  intros n. subst n. repeat match goal with |- _ /\ _ => split end.
  - intros self a Ha Hp Hc. unfold a in *.
    destruct (RMSprop_accumulator params cs loss self hb Ha Hp Hc) as [ups [s' [Hrun Hv]]].
    exists ups, s'. split; [exact Hrun|]. intros h i Hi [r [Hr Hb]] Hn.
    destruct (Hv h i Hi) as [g Hg]. rewrite Hg, Hr. now apply nonneg_average.
  - intros self a Ha Hp Hc. unfold a in *.
    destruct (Adagrad_accumulator params cs loss self hb Ha Hp Hc) as [ups [s' [Hrun Hv]]].
    exists ups, s'. split; [exact Hrun|]. intros h i Hi _ Hn.
    destruct (Hv h i Hi) as [g Hg]. rewrite Hg.
    apply nonneg_plus; [exact Hn|apply nonneg_square].
  - intros self a Ha Hp Hc Hrho. unfold a in *.
    destruct (Adadelta_accumulator params cs loss self hb Ha Hp Hc) as [ups [s' [Hrun Hv]]].
    exists ups, s'. split; [exact Hrun|]. intros h i Hi _ Hn.
    destruct (Nat.lt_ge_cases i (List.length params)) as [Hlt|Hge].
    + destruct (Hv h i Hlt) as [g [u [Hg _]]]. rewrite Hg.
      apply nonneg_plus; apply nonneg_scale; try lra; [exact Hn|apply nonneg_square].
    + assert (Hj : (i - List.length params < List.length params)%nat) by lia.
      destruct (Hv h _ Hj) as [g [u [_ Hu]]].
      replace (next_var hb + List.length params + (i - List.length params))%nat
        with (next_var hb + i)%nat in Hu by lia.
      rewrite Hu.
      apply nonneg_plus; apply nonneg_scale; try lra; [exact Hn|apply nonneg_square].
  - intros self a Ha Hp Hc. unfold a in *.
    destruct (Adam_accumulator params cs loss self hb Ha Hp Hc) as [ups [s' [Hrun Hv]]].
    exists ups, s'. split; [exact Hrun|]. intros h i Hi [r [Hr Hb]] Hn.
    destruct (Hv h i Hi) as [g Hg]. rewrite Hg, Hr. now apply nonneg_average.
  - intros self a Ha Hp Hc. unfold a in *.
    destruct (Adamax_accumulator params cs loss self hb Ha Hp Hc) as [ups [s' [Hrun Hv]]].
    exists ups, s'. split; [exact Hrun|]. intros h i Hi.
    destruct (Hv h i Hi) as [g Hg]. rewrite Hg. apply nonneg_max, nonneg_abs.
  - intros self a Ha Hp Hc. unfold a in *.
    destruct (Nadam_accumulator params cs loss self hb Ha Hp Hc) as [ups [s' [Hrun Hv]]].
    exists ups, s'. split; [exact Hrun|]. intros h i Hi [r [Hr Hb]] Hn.
    destruct (Hv h i Hi) as [g Hg]. rewrite Hg, Hr. now apply nonneg_average.
Qed.

Lemma accumulators_stay_nonnegative_witness :
  exists ups s',
    RMSprop.get_updates [0%nat] [] (fun _ => const 0.5)
      (rmsprop_default, store_rmsprop_default) = (inr ups, s') /\
    nonneg (value (run_updates ups store_rmsprop_default) 6%nat).
Proof.
  destruct (proj1 (accumulators_stay_nonnegative [0%nat] [] (fun _ => const 0.5)
                     store_rmsprop_default) rmsprop_default)
    as [ups [s' [Hrun H]]].
  - allocated_example.
  - split; [repeat constructor; cbn; tauto|].
    split; [repeat constructor; cbn; lia|].
    cbn. intros p [<-|[]]. intuition lia.
  - reflexivity.
  - exists ups, s'. split; [exact Hrun|].
    apply (H store_rmsprop_default 0%nat).
    + cbn. lia.
    + exists 0.9. split; [reflexivity|lra].
    + unfold nonneg. cbn. constructor; [lra|constructor].
Defined.

(** * Adadelta on every parameter *)

Example adadelta_on_two_constructed :
  Adadelta.init 1.0 0.95 1e-8 0 None [] store_two
  = (inr adadelta_on_two, store_adadelta_two).
Proof. reflexivity. Qed.

Lemma nth_error_zip4_at {A B C D} (l1 : list A) (l2 : list B) (l3 : list C)
  (l4 : list D) i a b c d :
  nth_error l1 i = Some a -> nth_error l2 i = Some b -> nth_error l3 i = Some c ->
  nth_error l4 i = Some d -> nth_error (zip4 l1 l2 l3 l4) i = Some (a, b, c, d).
Proof.
  intros H1 H2 H3 H4. unfold zip4.
  apply nth_error_combine. split; [|exact H4].
  apply nth_error_combine. split; [|exact H3]. apply nth_error_combine. auto.
Qed.

(** C5: in Adadelta, for every parameter of the list and whatever the
    constraints, the update term of a step is
    [g * sqrt(d_a + epsilon) / sqrt(new_a + epsilon)] with [d_a] the delta
    accumulator stored by the step before; the new delta accumulator
    [rho * d_a + (1 - rho) * update^2] is emitted after the parameter
    update, and in a run of two steps the update term of the second step
    uses the [new_d_a] of the first. *)
Theorem adadelta_uses_stored_delta_accumulator (self : Adadelta.t) (hb : backend)
  (params : list var) (cs : constraints_t) (loss : K.loss_t) :
  allocated (Adadelta_handles (attrs self)) hb ->
  parameters_ok params (Adadelta_handles (attrs self)) hb ->
  clr_complete (Adadelta.clr (attrs self)) = true ->
  adadelta_step_spec self hb params cs loss.
Proof.
  intros Ha Hp Hc. unfold adadelta_step_spec. cbv zeta.
  destruct (rate_expr_complete (Adadelta.lr (attrs self)) (Adadelta.decay (attrs self))
              (Adadelta.iterations (attrs self)) (Adadelta.initial_decay (attrs self))
              _ Hc) as [e He].
  destruct (Adadelta_get_updates_ok params cs loss self hb e He) as [Hrun _].
  cbv zeta in Hrun.
  destruct (Adadelta_targets params cs loss self hb Hc) as [ups [s' [Hrun' Hperm]]].
  assert (Hnd : NoDup (map target ups)) by batch_distinct NoDup_batch3 Hperm Ha Hp.
  rewrite Hrun' in Hrun. injection Hrun as Hups _.
  set (n := List.length params) in *.
  set (F := adadelta_updates (attrs self) cs e) in *.
  set (pre := counter_ops (Adadelta.initial_decay (attrs self))
                (Adadelta.clr (attrs self)) (Adadelta.iterations (attrs self))) in *.
  exists ups, s', e. split; [exact Hrun'|]. split.
  { rewrite Hups. apply in_or_app. right. now left. }
  intros i p g Hpi Hgi.
  assert (Hi : (i < n)%nat) by (apply nth_error_Some; congruence).
  set (acc := (next_var hb + i)%nat). set (d_a := (next_var hb + n + i)%nat).
  assert (Hz : nth_error (zip4 params (Optimizer.get_gradients (base self) loss params)
                            (seq (next_var hb) n) (seq (next_var hb + n) n)) i
               = Some (p, g, acc, d_a)).
  { apply nth_error_zip4_at; auto; now apply nth_error_seq_some. }
  destruct (nth_error_split _ _ Hz) as [l1 [l2 [Hl _]]].
  rewrite Hl, flat_map_app in Hups. cbn [flat_map] in Hups.
  unfold F at 2 in Hups. cbn [adadelta_updates] in Hups. cbv zeta in Hups.
  match type of Hups with
  | _ = _ ++ _ :: _ ++ (?u1 :: ?u2 :: ?u3 :: nil) ++ _ =>
      set (U1 := u1) in *; set (U2 := u2) in *; set (U3 := u3) in *
  end.
  assert (Step : forall h,
            value (run_updates ups h) acc = new_value U1 h /\
            value (run_updates ups h) p = new_value U2 h /\
            value (run_updates ups h) d_a = new_value U3 h).
  { intros h.
    assert (In3 : forall u, In u [U1; U2; U3] -> In u ups).
    { intros u Hu. rewrite Hups. apply in_or_app. right. apply in_cons.
      apply in_or_app. right. apply in_or_app. left. exact Hu. }
    repeat split.
    - apply (run_updates_distinct ups U1 h Hnd). apply In3. now left.
    - apply (run_updates_distinct ups U2 h Hnd). apply In3. right. now left.
    - apply (run_updates_distinct ups U3 h Hnd). apply In3. right. right. now left. }
  split.
  { exists (pre ++ [Update (Adadelta.current_lr (attrs self)) e] ++ flat_map F l1),
      (flat_map F l2).
    do 3 eexists. rewrite Hups, <- !app_assoc. reflexivity. }
  intros h0. pose proof (Step h0) as (S1 & S2 & S3).
  set (h1 := run_updates ups h0) in *.
  destruct (Step h1) as (_ & T2 & _).
  assert (New : (value h1 p
                 - e h1 * (g h1 * tsqrt (value h1 d_a + scalar (Adadelta.epsilon (attrs self)))
                           / tsqrt (scalar (Adadelta.rho (attrs self)) * value h1 acc
                                    + scalar (1 - Adadelta.rho (attrs self)) * tsquare (g h1)
                                    + scalar (Adadelta.epsilon (attrs self)))))%T
                = (value h1 p
                   - e h1 * (g h1 * tsqrt (new_value U3 h0
                                           + scalar (Adadelta.epsilon (attrs self)))
                             / tsqrt (scalar (Adadelta.rho (attrs self)) * value h1 acc
                                      + scalar (1 - Adadelta.rho (attrs self)) * tsquare (g h1)
                                      + scalar (Adadelta.epsilon (attrs self)))))%T).
  { rewrite S3. reflexivity. }
  repeat match goal with |- _ /\ _ => split end.
  - rewrite S1. reflexivity.
  - rewrite S2. reflexivity.
  - rewrite S3. reflexivity.
  - rewrite T2. reflexivity.
  - exact New.
  - intros Hcs. split.
    + rewrite S2. unfold U2. cbn [new_value]. unfold apply_constraint. rewrite Hcs.
      reflexivity.
    + rewrite T2. unfold U2. cbn [new_value]. unfold apply_constraint. rewrite Hcs.
      exact New.
Qed.

Lemma adadelta_uses_stored_delta_accumulator_witness :
  adadelta_step_spec adadelta_on_two store_adadelta_two [0%nat; 1%nat] []
    (fun _ => const 0.1).
Proof.
  apply adadelta_uses_stored_delta_accumulator.
  - allocated_example.
  - split; [repeat constructor; cbn; intuition (try discriminate; try lia)|].
    split; [repeat constructor; cbn; lia|].
    cbn. intros p [<-|[<-|[]]]; intuition lia.
  - reflexivity.
Defined.
